(** * The reactivity core of my-vue: dependency tracking and effect scheduling

    A shallow embedding of [packages/reactivity/src/effect.ts].  The engine
    functions ([track], [trigger], [triggerEffects], [triggerEffect],
    [cleanupEffect], [ReactiveEffect.run], [ReactiveEffect.stop],
    [pauseTracking], [resetTracking], [effect], [stop]) are state-passing
    Rocq functions over an explicit store.  The closures handed to the engine by its users ([fn],
    [scheduler], [onStop]) are inputs of the engine: they are represented as
    scripts of calls into the engine and executed by a fuel-bounded
    interpreter, because a closure may run, stop or notify any effect,
    including the one that is executing.

    [effect] creates an effect object at a handle that is not in use; a
    runner is identified with the effect it carries, so that the exported
    [stop(runner)] is [ReactiveEffect.stop] of that effect.  Values of
    reactive properties play no role in the engine; the numbers passed as
    [newValue] and [oldValue] are integers.

    The first part defines the store and the engine, the second the
    vocabulary of the properties, the third proves them: first the
    properties C1 to C10 of the specification, then further properties of
    the engine (X1 to X14). *)

From stdpp Require Import base option list gmap strings pretty.
From Stdlib Require Import ZArith Lia Ascii String.

Open Scope Z_scope.

(** ** Data model *)

(** An effect object is addressed by a handle (object identity). *)
Definition eid := nat.

(** Operation kinds of [TriggerOpTypes] (declared in [operations.ts]). *)
Inductive TriggerOpTypes := ADD | SET | DELETE | CLEAR.

(** What kind of value an observed target is.  [KindFunction] stands for a
    callable object: a legal [WeakMap] key that is not an object for
    [isObject]. *)
Inductive target_kind := KindArray | KindObject | KindFunction.

(** An observed target: its identity together with its (immutable) kind. *)
Inductive target := Target (kind : target_kind) (id : nat).

(** Keys of a [KeyToDepMap]: property names and the [ITERATE_KEY] symbol. *)
Inductive key := KStr (s : string) | ITERATE_KEY.

#[global] Instance target_kind_eq_dec : EqDecision target_kind.
Proof. solve_decision. Defined.
#[global] Instance target_eq_dec : EqDecision target.
Proof. solve_decision. Defined.
#[global] Instance key_eq_dec : EqDecision key.
Proof. solve_decision. Defined.
#[global] Instance TriggerOpTypes_eq_dec : EqDecision TriggerOpTypes.
Proof. solve_decision. Defined.

Definition target_encode (t : target) : nat * nat :=
  match t with
  | Target KindArray i => (0%nat, i)
  | Target KindObject i => (1%nat, i)
  | Target KindFunction i => (2%nat, i)
  end.

Definition target_decode (p : nat * nat) : target :=
  match p with
  | (0%nat, i) => Target KindArray i
  | (1%nat, i) => Target KindObject i
  | (_, i) => Target KindFunction i
  end.

#[global] Instance target_countable : Countable target.
Proof.
  apply (inj_countable' target_encode target_decode).
  by intros [[] i].
Defined.

Definition key_encode (k : key) : string + unit :=
  match k with KStr s => inl s | ITERATE_KEY => inr () end.

Definition key_decode (x : string + unit) : key :=
  match x with inl s => KStr s | inr _ => ITERATE_KEY end.

#[global] Instance key_countable : Countable key.
Proof.
  apply (inj_countable' key_encode key_decode).
  by intros [].
Defined.

(** A [Set<ReactiveEffect>].  JavaScript sets iterate in insertion order, so
    a dependency set is a duplicate-free list kept in insertion order. *)
Abbreviation Dep := (list eid).
Abbreviation KeyToDepMap := (gmap key Dep).

(** [dep.add(e)] and [dep.delete(e)]. *)
Definition dep_add (e : eid) (d : Dep) : Dep :=
  if decide (e ∈ d) then d else d ++ [e].

Definition dep_delete (e : eid) (d : Dep) : Dep :=
  filter (λ x, x ≠ e) d.

(** A reference to a [Dep] object.  Every [Dep] is created by [track] inside
    [targetMap] and is never removed from it, so the object is identified by
    the slot that holds it; two holders of the same reference alias the same
    set. *)
Abbreviation depref := (target * key)%type.

(** The closures given to the engine ([fn], [scheduler], [onStop]): scripts of
    calls into the engine over a memory of boolean variables of their own.
    The calls are those of [track], [trigger], [run], [stop],
    [pauseTracking] and [resetTracking]; a closure that calls [effect], and
    so creates effect objects while it runs, is not represented. *)
Inductive prog :=
| PDone                                          (* return *)
| PThrow                                         (* throw *)
| PTrack (t : target) (k : key) (rest : prog)    (* track(t, k); rest *)
| PTrigger (t : target) (ty : TriggerOpTypes) (k : key)
           (newValue oldValue : option Z) (rest : prog)
                                                 (* trigger(t, ty, k, n, o); rest *)
| PRun (e : eid) (rest : prog)                   (* e.run(); rest *)
| PStop (e : eid) (rest : prog)                  (* e.stop(); rest *)
| PPauseTracking (rest : prog)                   (* pauseTracking(); rest *)
| PResetTracking (rest : prog)                   (* resetTracking(); rest *)
| PIf (x : nat) (p q : prog)                     (* if (x) p else q *)
| PAssign (x : nat) (b : bool) (rest : prog)     (* x = b; rest *)
| PTry (body rest : prog).                       (* try { body } catch {}; rest *)

(** [class ReactiveEffect].  Only the truthiness of [computed] is used. *)
Record ReactiveEffect := mkEffect {
  active : bool;
  deps : list depref;
  parent : option eid;
  computed : bool;
  deferStop : bool;
  onStop : option prog;
  fn : prog;
  scheduler : option prog
}.

(** History of what the engine did; written, never read, by the engine. *)
Inductive event :=
| EvRunInactive (e : eid)   (* run() on a stopped effect: plain fn() *)
| EvRunEnter (e : eid)      (* run(): the try block is entered *)
| EvRunLeave (e : eid)      (* run(): the finally block is entered *)
| EvScheduler (e : eid)     (* effect.scheduler() is invoked *)
| EvOnStop (e : eid)        (* this.onStop() is invoked *)
| EvDeferStop (e : eid)     (* stop() of the current effect is deferred *)
| EvTrack (e : eid) (t : target) (k : key)  (* trackEffects subscribes e *)
| EvPause                   (* pauseTracking() *)
| EvReset.                  (* resetTracking() *)

#[global] Instance event_eq_dec : EqDecision event.
Proof. solve_decision. Defined.

(** The module state: [targetMap], [activeEffect], [shouldTrack], the effect
    objects, the variables of the closures, and the history. *)
Record state := mkState {
  targetMap : gmap target KeyToDepMap;
  activeEffect : option eid;
  shouldTrack : bool;
  heap : gmap eid ReactiveEffect;
  mem : gmap nat bool;
  trace : list event
}.

(** How a call ends: it returns, or an exception escapes it. *)
Inductive outcome := Returned | Threw.

(** *** Field updates *)

Definition set_active (b : bool) (ef : ReactiveEffect) : ReactiveEffect :=
  mkEffect b (deps ef) (parent ef) (computed ef) (deferStop ef)
           (onStop ef) (fn ef) (scheduler ef).

Definition set_deps (l : list depref) (ef : ReactiveEffect) : ReactiveEffect :=
  mkEffect (active ef) l (parent ef) (computed ef) (deferStop ef)
           (onStop ef) (fn ef) (scheduler ef).

Definition set_parent (p : option eid) (ef : ReactiveEffect) : ReactiveEffect :=
  mkEffect (active ef) (deps ef) p (computed ef) (deferStop ef)
           (onStop ef) (fn ef) (scheduler ef).

Definition set_deferStop (b : bool) (ef : ReactiveEffect) : ReactiveEffect :=
  mkEffect (active ef) (deps ef) (parent ef) (computed ef) b
           (onStop ef) (fn ef) (scheduler ef).

Definition set_targetMap (tm : gmap target KeyToDepMap) (s : state) : state :=
  mkState tm (activeEffect s) (shouldTrack s) (heap s) (mem s) (trace s).

Definition set_activeEffect (a : option eid) (s : state) : state :=
  mkState (targetMap s) a (shouldTrack s) (heap s) (mem s) (trace s).

Definition set_shouldTrack (b : bool) (s : state) : state :=
  mkState (targetMap s) (activeEffect s) b (heap s) (mem s) (trace s).

Definition set_mem (m : gmap nat bool) (s : state) : state :=
  mkState (targetMap s) (activeEffect s) (shouldTrack s) (heap s) m (trace s).

Definition upd_effect (e : eid) (f : ReactiveEffect → ReactiveEffect)
    (s : state) : state :=
  mkState (targetMap s) (activeEffect s) (shouldTrack s)
          (alter f e (heap s)) (mem s) (trace s).

Definition log (ev : event) (s : state) : state :=
  mkState (targetMap s) (activeEffect s) (shouldTrack s) (heap s) (mem s)
          (trace s ++ [ev]).

(** *** Reading the store *)

(** The set behind a reference (empty when it was never created). *)
Definition dep_at (s : state) (t : target) (k : key) : Dep :=
  default [] (targetMap s !! t ≫= (.!! k)).

Definition parent_of (s : state) (e : eid) : option eid :=
  heap s !! e ≫= parent.

Definition deps_of (s : state) (e : eid) : list depref :=
  default [] (deps <$> heap s !! e).

Definition active_of (s : state) (e : eid) : bool :=
  default false (active <$> heap s !! e).

Definition deferStop_of (s : state) (e : eid) : bool :=
  default false (deferStop <$> heap s !! e).

Definition computed_of (s : state) (e : eid) : bool :=
  default false (computed <$> heap s !! e).

(** Mutation of the set behind a reference, in place. *)
Definition dep_alter (f : Dep → Dep) (r : depref)
    (tm : gmap target KeyToDepMap) : gmap target KeyToDepMap :=
  alter (alter f r.2) r.1 tm.

(** ** Helpers of [@my-vue/shared] *)

(** Modelled from the spec: [isArray] of [@my-vue/shared] is not part of the
    sources; the target is "sequence-like". *)
Definition isArray (t : target) : bool :=
  match t with Target KindArray _ => true | _ => false end.

(** Modelled from the spec: [isObject] of [@my-vue/shared] is not part of the
    sources; the target is a keyed structure (arrays are objects, callables
    are not). *)
Definition isObject (t : target) : bool :=
  match t with Target KindFunction _ => false | _ => true end.

Definition is_digit (c : ascii) : bool :=
  (48 <=? nat_of_ascii c)%nat && (nat_of_ascii c <=? 57)%nat.

Fixpoint all_digits (s : string) : bool :=
  match s with
  | EmptyString => true
  | String c r => is_digit c && all_digits r
  end.

(** Modelled from the spec: [isIntegerKey] of [@my-vue/shared] is not part of
    the sources; the key is "an integer index", that is the decimal numeral
    of a natural number without sign or leading zero. *)
Definition isIntegerKey (k : key) : bool :=
  match k with
  | KStr (String c r) =>
      is_digit c && all_digits r
      && (negb (Ascii.eqb c "0"%char) || String.eqb r EmptyString)
  | _ => false
  end.

(** ** The engine *)

(** A call into the engine: it may fail to produce a result (the
    interpreter of closures ran out of fuel, or a handle is dangling). *)
Abbreviation M := (state → option (outcome * state)).

Definition ret : M := λ s, Some (Returned, s).
Definition throw : M := λ s, Some (Threw, s).
Definition lift (f : state → state) : M := λ s, Some (Returned, f s).

(** Sequencing: an exception skips what follows. *)
Definition seq (m1 m2 : M) : M := λ s,
  match m1 s with
  | Some (Returned, s') => m2 s'
  | r => r
  end.

Infix ">>" := seq (at level 65, right associativity).

(** [try { body } finally { fin }]: [fin] runs on both exits of [body]; the
    outcome of [body] stands unless [fin] itself throws. *)
Definition try_finally (body fin : M) : M := λ s,
  match body s with
  | None => None
  | Some (o, s1) =>
      match fin s1 with
      | Some (Returned, s2) => Some (o, s2)
      | r => r
      end
  end.

(** A [for] loop over an array snapshot. *)
Fixpoint for_each (f : eid → M) (l : list eid) : M :=
  match l with
  | [] => ret
  | e :: l' => f e >> for_each f l'
  end.

Definition pauseTracking (s : state) : state :=
  set_shouldTrack false (log EvPause s).

Definition resetTracking (s : state) : state :=
  set_shouldTrack true (log EvReset s).

(** [cleanupEffect]: delete the effect from every set of its list, then
    truncate the list. *)
Definition cleanupEffect (e : eid) (s : state) : state :=
  match heap s !! e with
  | None => s
  | Some ef =>
      upd_effect e (set_deps [])
        (set_targetMap
           (foldl (λ tm r, dep_alter (dep_delete e) r tm) (targetMap s) (deps ef))
           s)
  end.

(** [trackEffects(dep)]. *)
Definition trackEffects (r : depref) (s : state) : state :=
  match activeEffect s with
  | Some e =>
      upd_effect e (λ ef, set_deps (deps ef ++ [r]) ef)
        (set_targetMap (dep_alter (dep_add e) r (targetMap s))
           (log (EvTrack e r.1 r.2) s))
  | None => s
  end.

(** [track(target, key)]. *)
Definition track (t : target) (k : key) (s : state) : state :=
  if shouldTrack s && bool_decide (is_Some (activeEffect s)) then
    let depsMap := default ∅ (targetMap s !! t) in
    let dep := default [] (depsMap !! k) in
    trackEffects (t, k)
      (set_targetMap (<[t := <[k := dep]> depsMap]> (targetMap s)) s)
  else s.

(** The indices visited by [for (let i = newValue; i < oldValue; i++)];
    a bound that is not a number makes the comparison false.  The source
    counts in floating-point numbers: the list is what the loop visits when
    both bounds are safe integers ([safe_integer] below), which is what the
    properties of this loop assume. *)
Definition length_range (newValue oldValue : option Z) : list Z :=
  match newValue, oldValue with
  | Some n, Some o => seqZ n (o - n)
  | _, _ => []
  end.

(** The array [deps] built by [trigger] (lines 107 to 123). *)
Definition trigger_deps (depsMap : KeyToDepMap) (t : target)
    (ty : TriggerOpTypes) (k : key) (newValue oldValue : option Z)
    : list (option Dep) :=
  [depsMap !! k]
  ++ (if isArray t && bool_decide (k = KStr "length") then
        (λ i, depsMap !! KStr (pretty (i - 1))) <$> length_range newValue oldValue
      else [])
  ++ (if bool_decide (ty = ADD) then
        if isArray t && isIntegerKey k then [depsMap !! KStr "length"]
        else if isObject t then [depsMap !! ITERATE_KEY]
        else []
      else []).

(** The set [dep] filled from [deps] (lines 126 to 130). *)
Definition collect (deps : list (option Dep)) : Dep :=
  foldl (λ acc od,
           match od with
           | None => acc
           | Some d => foldl (λ a v, dep_add v a) acc d
           end) [] deps.

(** The first two statements of the finally block of [run] (lines 63, 64). *)
Definition run_restore (e : eid) (s : state) : state :=
  upd_effect e (set_parent None)
    (set_activeEffect (parent_of s e) (log (EvRunLeave e) s)).

(** The try block of [run] up to the call of [fn] (lines 57 to 60). *)
Definition run_prologue (e : eid) (s : state) : state :=
  cleanupEffect e
    (set_shouldTrack true
       (set_activeEffect (Some e)
          (upd_effect e (set_parent (activeEffect s))
             (log (EvRunEnter e) s)))).

Section Engine.

(** How a closure is invoked. *)
Variable call : prog → M.

(** [ReactiveEffect.stop]. *)
Definition stop (e : eid) : M := λ s,
  match heap s !! e with
  | None => None
  | Some ef =>
      if decide (activeEffect s = Some e) then
        Some (Returned, upd_effect e (set_deferStop true) (log (EvDeferStop e) s))
      else
        (lift (cleanupEffect e) >>
         match onStop ef with
         | Some p => lift (log (EvOnStop e)) >> call p
         | None => ret
         end >>
         lift (upd_effect e (set_active false))) s
  end.

(** The finally block of [run] (lines 63 to 68): the current effect and
    the parent link are restored, then a deferred stop is carried out. *)
Definition run_epilogue (e : eid) : M := λ s,
  match heap s !! e with
  | None => None
  | Some ef =>
      if deferStop ef then
        (stop e >> lift (upd_effect e (set_deferStop false))) (run_restore e s)
      else Some (Returned, run_restore e s)
  end.

(** [ReactiveEffect.run]. *)
Definition run (e : eid) : M := λ s,
  match heap s !! e with
  | None => None
  | Some ef =>
      if negb (active ef) then call (fn ef) (log (EvRunInactive e) s)
      else try_finally (λ s, call (fn ef) (run_prologue e s))
                       (run_epilogue e) s
  end.

(** [triggerEffect]. *)
Definition triggerEffect (e : eid) : M := λ s,
  if decide (activeEffect s ≠ Some e) then
    match heap s !! e with
    | None => None
    | Some ef =>
        match scheduler ef with
        | Some p => call p (log (EvScheduler e) s)
        | None => run e s
        end
    end
  else Some (Returned, s).

(** [triggerEffects]: two loops over the snapshot [effects]. *)
Definition triggerEffects (dep : Dep) : M :=
  let effects := dep in
  for_each (λ e s, match heap s !! e with
                   | None => None
                   | Some ef => if computed ef then triggerEffect e s
                                else Some (Returned, s)
                   end) effects >>
  for_each (λ e s, match heap s !! e with
                   | None => None
                   | Some ef => if negb (computed ef) then triggerEffect e s
                                else Some (Returned, s)
                   end) effects.

(** [trigger]. *)
Definition trigger (t : target) (ty : TriggerOpTypes) (k : key)
    (newValue oldValue : option Z) : M := λ s,
  match targetMap s !! t with
  | None => Some (Returned, s)
  | Some depsMap =>
      triggerEffects (collect (trigger_deps depsMap t ty k newValue oldValue)) s
  end.

End Engine.

(** One step of a closure: [call] runs what remains of the script and the
    closures that the engine invokes on the way. *)
Definition exec_step (call : prog → M) (p : prog) : M := λ s,
  match p with
  | PDone => ret s
  | PThrow => throw s
  | PTrack t k rest => call rest (track t k s)
  | PTrigger t ty k nv ov rest => (trigger call t ty k nv ov >> call rest) s
  | PRun e rest => (run call e >> call rest) s
  | PStop e rest => (stop call e >> call rest) s
  | PPauseTracking rest => call rest (pauseTracking s)
  | PResetTracking rest => call rest (resetTracking s)
  | PIf x p q => call (if default false (mem s !! x) then p else q) s
  | PAssign x b rest => call rest (set_mem (<[x := b]> (mem s)) s)
  | PTry body rest =>
      match call body s with
      | None => None
      | Some (_, s') => call rest s'
      end
  end.

(** Execution of a closure.  Each step of the script spends one unit of
    fuel; [None] means the fuel did not suffice. *)
Fixpoint exec (n : nat) (p : prog) : M :=
  match n with
  | O => λ _, None
  | S n' => exec_step (exec n') p
  end.

(** ** Registration: [effect] and [stop] *)

(** What [effect] is given as [fn]: a plain function, or a runner (a function
    that carries its effect in the property [effect]). *)
Inductive callable := Closure (p : prog) | Runner (e : eid).

(** [ReactiveEffectOptions]; an absent [lazy] is falsy. *)
Record ReactiveEffectOptions := mkOptions {
  lazy : bool;
  opt_scheduler : option prog
}.

(** [new ReactiveEffect(fn, scheduler)]: the field initialisers of the class
    and the constructor. *)
Definition new_ReactiveEffect (fn : prog) (scheduler : option prog)
    : ReactiveEffect :=
  mkEffect true [] None false false None fn scheduler.

(** The handle of the next object to be created. *)
Definition fresh_eid (s : state) : eid := fresh (dom (heap s)).

Definition set_heap (h : gmap eid ReactiveEffect) (s : state) : state :=
  mkState (targetMap s) (activeEffect s) (shouldTrack s) h (mem s) (trace s).

(** How [effect] ends: it returns a runner (identified with its effect), or
    an exception escapes it. *)
Inductive completion := Value (runner : eid) | Exception.

(** [effect(fn, options)]. *)
Definition effect (call : prog → M) (f : callable)
    (options : option ReactiveEffectOptions) (s : state)
    : option (completion * state) :=
  let '(_effect, s1) :=
    match f with
    | Runner e => (e, s)
    | Closure p =>
        let e := fresh_eid s in
        (e, set_heap (<[e := new_ReactiveEffect p (options ≫= opt_scheduler)]>
                        (heap s)) s)
    end in
  if match options with None => true | Some o => negb (lazy o) end then
    match run call _effect s1 with
    | None => None
    | Some (Returned, s2) => Some (Value _effect, s2)
    | Some (Threw, s2) => Some (Exception, s2)
    end
  else Some (Value _effect, s1).

(** The exported [stop(runner)]. *)
Definition stop_runner (call : prog → M) (runner : eid) : M :=
  stop call runner.

(** * Vocabulary of the properties

    The relations, invariants and scenarios in terms of which the properties
    of the engine are stated. *)

(** ** Reasoning about calls *)

(** [hoare R m]: whenever [m] produces a result, the states before and after
    are related by [R]. *)
Definition hoare (R : state → state → Prop) (m : M) : Prop :=
  ∀ s o s', m s = Some (o, s') → R s s'.

(** The events that only mark a call. *)
Definition plain (ev : event) : bool :=
  match ev with
  | EvRunInactive _ | EvScheduler _ | EvOnStop _ | EvDeferStop _ => true
  | _ => false
  end.

(** What a relation must satisfy to hold across every call: it holds across
    the elementary steps and across [run], given that it holds across the
    closures. *)
Record respects (R : state → state → Prop) : Prop := {
  resp_log : ∀ ev s, plain ev = true → R s (log ev s);
  resp_deferStop : ∀ e b s, R s (upd_effect e (set_deferStop b) s);
  resp_inactive : ∀ e s, R s (upd_effect e (set_active false) s);
  resp_cleanup : ∀ e s, R s (cleanupEffect e s);
  resp_track : ∀ t k s, R s (track t k s);
  resp_pause : ∀ s, R s (pauseTracking s);
  resp_reset : ∀ s, R s (resetTracking s);
  resp_mem : ∀ m s, R s (set_mem m s);
  resp_run : ∀ call, (∀ p, hoare R (call p)) → ∀ e, hoare R (run call e)
}.

Arguments resp_log {R}.
Arguments resp_deferStop {R}.
Arguments resp_inactive {R}.
Arguments resp_cleanup {R}.
Arguments resp_track {R}.
Arguments resp_pause {R}.
Arguments resp_reset {R}.
Arguments resp_mem {R}.
Arguments resp_run {R}.

(** ** Fuel *)

(** [m'] produces every result that [m] produces. *)
Definition refines (m m' : M) : Prop :=
  ∀ s r, m s = Some r → m' s = Some r.

(** ** What the elementary steps change *)

(** The entry of [targetMap] behind a reference. *)
Definition dep_lookup (tm : gmap target KeyToDepMap) (t : target) (k : key)
    : option Dep :=
  tm !! t ≫= (.!! k).

(** Whether [track] records the read. *)
Definition tracking (s : state) : bool :=
  shouldTrack s && bool_decide (is_Some (activeEffect s)).

(** ** The fields of an effect that no call changes *)

Definition static (ef : ReactiveEffect)
    : bool * option prog * prog * option prog :=
  (computed ef, onStop ef, fn ef, scheduler ef).

(** The effects are the same objects, with the same closures and flag. *)
Definition same_static (s s' : state) : Prop :=
  ∀ x, static <$> heap s' !! x = static <$> heap s !! x.

(** ** Notification order *)

(** One loop of [triggerEffects]: the effects whose [computed] flag satisfies
    [g] are notified, the others are passed over. *)
Definition pass (call : prog → M) (g : bool → bool) (e : eid) : M := λ s,
  match heap s !! e with
  | None => None
  | Some ef => if g (computed ef) then triggerEffect call e s
               else Some (Returned, s)
  end.

(** ** Dependency sets as sets *)

Definition collect_step (acc : Dep) (od : option Dep) : Dep :=
  match od with
  | None => acc
  | Some d => foldl (λ a v, dep_add v a) acc d
  end.

(** The collection of effects that [trigger] hands to [triggerEffects]. *)
Definition trigger_effects (s : state) (t : target) (ty : TriggerOpTypes)
    (k : key) (newValue oldValue : option Z) : Dep :=
  match targetMap s !! t with
  | None => []
  | Some depsMap => collect (trigger_deps depsMap t ty k newValue oldValue)
  end.

(** ** Relations that speak about the history *)

(** [traced Φ s s']: the history of [s'] extends that of [s] by some [tr],
    and [Φ tr] relates the two states. *)
Definition traced (Φ : list event → state → state → Prop) (s s' : state)
    : Prop :=
  ∃ tr, trace s' = trace s ++ tr ∧ Φ tr s s'.

(** ** C10: [run] and the tracking flag *)

(** The value that an event records for [shouldTrack], when it records an
    assignment of the flag: [pauseTracking] clears it, [resetTracking] and
    the try block of an active [run] set it. *)
Definition sets_flag (ev : event) : option bool :=
  match ev with
  | EvPause => Some false
  | EvReset => Some true
  | EvRunEnter _ => Some true
  | _ => None
  end.

(** The flag after a history, from its value before. *)
Definition tracking_after (b : bool) (tr : list event) : bool :=
  foldl (λ b ev, default b (sets_flag ev)) b tr.

(** The flag follows the assignments that the history records. *)
Definition follows_flag (tr : list event) (s s' : state) : Prop :=
  shouldTrack s' = tracking_after (shouldTrack s) tr.

(** ** C5: a run starts from no subscriptions *)

(** The subscription list of an effect names every set that holds it. *)
Definition consistent (s : state) : Prop :=
  ∀ t k e, e ∈ dep_at s t k → (t, k) ∈ deps_of s e.

(** Membership in a set comes from before or from a recorded read. *)
Definition subscribed_by_track (tr : list event) (s s' : state) : Prop :=
  ∀ e t k, e ∈ dep_at s' t k → e ∈ dep_at s t k ∨ EvTrack e t k ∈ tr.

(** ** The invariant of the store *)

(** Handles held by the store denote effects of the store. *)
Definition handles_valid (s : state) : Prop :=
  (∀ e, activeEffect s = Some e → is_Some (heap s !! e))
  ∧ (∀ x p, parent_of s x = Some p → is_Some (heap s !! p)).

Definition wf (s : state) : Prop := consistent s ∧ handles_valid s.

Definition preserves_wf (s s' : state) : Prop := wf s → wf s'.

(** ** C6: the current effect across a run *)

(** Whether a history, replayed on a stack of running effects (entering
    pushes, leaving pops), enters an effect that is on the stack: a
    re-entrant run. *)
Fixpoint reentrant (stk : list eid) (tr : list event) : bool :=
  match tr with
  | [] => false
  | EvRunEnter e :: tr' => bool_decide (e ∈ stk) || reentrant (e :: stk) tr'
  | EvRunLeave e :: tr' => reentrant (tail stk) tr'
  | _ :: tr' => reentrant stk tr'
  end.

(** No effect is run again while it is running. *)
Definition no_reentry (tr : list event) : Prop := reentrant [] tr = false.

(** The stack that the replay of a history leaves. *)
Fixpoint running (stk : list eid) (tr : list event) : list eid :=
  match tr with
  | [] => stk
  | EvRunEnter e :: tr' => running (e :: stk) tr'
  | EvRunLeave e :: tr' => running (tail stk) tr'
  | _ :: tr' => running stk tr'
  end.

(** The checked replay: it fails when an effect is entered while it is on
    the stack, or when the effect that leaves is not the innermost one. *)
Fixpoint bracket (stk : list eid) (tr : list event) : option (list eid) :=
  match tr with
  | [] => Some stk
  | EvRunEnter e :: tr' =>
      if decide (e ∈ stk) then None else bracket (e :: stk) tr'
  | EvRunLeave e :: tr' =>
      match stk with
      | x :: stk' => if decide (x = e) then bracket stk' tr' else None
      | [] => None
      end
  | _ :: tr' => bracket stk tr'
  end.

(** A history without re-entrant run is properly nested. *)
Definition well_nested (tr : list event) (s s' : state) : Prop :=
  ∀ stk, reentrant stk tr = false → bracket stk tr = Some stk.

(** The innermost running effect, [b] below the stack. *)
Definition top (b : option eid) (stk : list eid) : option eid :=
  match stk with
  | [] => b
  | e :: _ => Some e
  end.

(** The parent link of every effect of the stack is the effect below it. *)
Fixpoint linked (b : option eid) (stk : list eid) (s : state) : Prop :=
  match stk with
  | [] => True
  | e :: rest => parent_of s e = top b rest ∧ linked b rest s
  end.

(** The store represents the stack: [activeEffect] is its top and the parent
    links lead down to [b]. *)
Definition chain (b : option eid) (stk : list eid) (s : state) : Prop :=
  activeEffect s = top b stk ∧ linked b stk s.

(** Across a properly nested history the store represents the same stack
    before and after, and cleared parent links of effects outside the stack
    stay cleared. *)
Definition lifo (tr : list event) (s s' : state) : Prop :=
  ∀ b stk stk', bracket stk tr = Some stk' → NoDup stk → chain b stk s →
    stk' = stk ∧ chain b stk s'
    ∧ ∀ x, x ∉ stk → parent_of s x = None → parent_of s' x = None.

(** The same, for an active [run] of [e], whose parent link is cleared in
    the end. *)
Definition lifo_run (e : eid) (tr : list event) (s s' : state) : Prop :=
  ∀ b stk stk', bracket stk tr = Some stk' → NoDup stk → chain b stk s →
    stk' = stk ∧ chain b stk s'
    ∧ (∀ x, x ∉ stk → parent_of s x = None → parent_of s' x = None)
    ∧ parent_of s' e = None.

(** The parent link of [e] is written by the runs of [e] only: an active
    run of [e] sets it when it begins and clears it when it ends. *)
Definition parent_follows (e : eid) (tr : list event) (s s' : state) : Prop :=
  parent_of s' e
  = if bool_decide (EvRunEnter e ∈ tr) then None else parent_of s e.

(** ** C2 and C7: stopping *)

(** The state in which a stop that is not deferred leaves the store, from
    the state [s] in which [onStop] returned. *)
Definition stopped (e : eid) (s : state) : state :=
  upd_effect e (set_active false) s.

(** The end of the finally block after a deferred stop was carried out. *)
Definition deactivated (e : eid) (s : state) : state :=
  upd_effect e (set_deferStop false) (stopped e s).

(** ** Scenarios *)

Open Scope nat_scope.

(** [new ReactiveEffect(fn, scheduler)], with [onStop] and [computed] as the
    creator sets them. *)
Definition new_effect (fn : prog) (scheduler onStop : option prog)
    (computed : bool) : ReactiveEffect :=
  mkEffect true [] None computed false onStop fn scheduler.

(** The state of a freshly loaded module with the given effect objects. *)
Definition initial (effects : list (eid * ReactiveEffect))
    (vars : list (nat * bool)) : state :=
  mkState ∅ None true (list_to_map effects) (list_to_map vars) [].

(** An effect that reads one slot. *)
Definition reader (t : target) (k : string) : ReactiveEffect :=
  new_effect (PTrack t (KStr k) PDone) None None false.

(** *** Truncation of an array (C1) *)

Definition arr : target := Target KindArray 0.

(** Five effects, effect [i] subscribed to index [i] of an array. *)
Definition s_array : state :=
  initial [(0, reader arr "0"); (1, reader arr "1");
           (2, reader arr "2"); (3, reader arr "3");
           (4, reader arr "4")] [].

Definition subscribe_all : prog :=
  PRun 0 (PRun 1 (PRun 2 (PRun 3 (PRun 4 PDone)))).

(** *** Stopping twice (C2) *)

(** A callback that records its first invocation in variable 0 and any
    later one in variable 1. *)
Definition counting : prog :=
  PIf 0 (PAssign 1 true PDone) (PAssign 0 true PDone).

(** One effect with this [onStop] callback. *)
Definition s_stop : state :=
  initial [(0, new_effect PDone None (Some counting) false)] [].

(** The effect of [s_stop] once stopped, and the store that holds it. *)
Definition stopped_effect : ReactiveEffect :=
  mkEffect false [] None false false (Some counting) PDone None.

Definition s_stopped : state :=
  mkState ∅ None true {[0 := stopped_effect]} {[0 := true]} [EvOnStop 0].

(** *** Notification order (C3) *)

Definition obj : target := Target KindObject 0.

(** A plain effect and a derived one with a scheduler, both subscribed to
    the same slot, the plain one first. *)
Definition s_order : state :=
  initial [(0, reader obj "x");
           (1, new_effect (PTrack obj (KStr "x") PDone) (Some PDone) None true)]
          [].

(** *** A computation that writes what it reads (C4) *)




(** *** Branch pruning (C5) *)

(** [flag ? a : b], the flag being variable 0 of the closure. *)
Definition branching : prog :=
  PTrack obj (KStr "flag")
    (PIf 0 (PTrack obj (KStr "a") PDone) (PTrack obj (KStr "b") PDone)).

Definition s_branch0 : state :=
  initial [(0, new_effect branching None None false)] [(0, true)].

(** The first run, with the flag set; then the flag is cleared. *)
Definition first_run : prog := PRun 0 (PAssign 0 false PDone).

Definition s_branch1 : state :=
  match exec 10 first_run s_branch0 with
  | Some (_, s) => s
  | None => s_branch0
  end.

Definition branch_effect1 : ReactiveEffect :=
  mkEffect true [(obj, KStr "flag"); (obj, KStr "a")] None false false None
           branching None.

(** *** Nested and re-entrant runs (C6) *)

(** Effect 1 runs itself once more, as long as variable 0 is set. *)
Definition again : prog := PIf 0 (PAssign 0 false (PRun 1 PDone)) PDone.

(** Effect 0 has started and is about to run effect 1 from its [fn]. *)
Definition s_reentrant : state :=
  run_prologue 0
    (initial [(0, new_effect (PRun 1 PDone) None None false);
              (1, new_effect again None None false)] [(0, true)]).

(** Effect 0 has started and is about to run effect 1, whose [fn] reads a
    slot and then fails. *)
Definition s_nested : state :=
  run_prologue 0
    (initial [(0, new_effect (PTry (PRun 1 PDone) PDone) None None false);
              (1, new_effect (PTrack obj (KStr "y") PThrow) None None false)]
             []).

Definition s_nested_end : state :=
  match run (exec 10) 1 s_nested with
  | Some (_, s) => s
  | None => s_nested
  end.

(** The state in which the [fn] of effect 1 fails. *)
Definition s_nested_mid : state :=
  match exec 10 (PTrack obj (KStr "y") PThrow) (run_prologue 1 s_nested) with
  | Some (_, s) => s
  | None => s_nested
  end.

(** Effect 0 has started and is about to run effect 2, whose [fn] runs
    effect 1, which runs itself once more. *)
Definition s_harmless : state :=
  run_prologue 0
    (initial [(0, new_effect (PRun 2 PDone) None None false);
              (1, new_effect again None None false);
              (2, new_effect (PRun 1 PDone) None None false)] [(0, true)]).

Definition s_harmless_mid : state :=
  match exec 10 (PRun 1 PDone) (run_prologue 2 s_harmless) with
  | Some (_, s) => s
  | None => s_harmless
  end.

Definition s_harmless_end : state :=
  match run (exec 10) 2 s_harmless with
  | Some (_, s) => s
  | None => s_harmless
  end.

(** Effect 0 has started and is about to run effect 2, which stops itself
    and whose [onStop] callback runs effect 1, which runs itself once
    more. *)
Definition s_callback : state :=
  run_prologue 0
    (initial [(0, new_effect (PRun 2 PDone) None None false);
              (1, new_effect again None None false);
              (2, new_effect (PStop 2 PDone) None (Some (PRun 1 PDone)) false)]
             [(0, true)]).

(** *** Deferred stop (C7) *)

(** An effect that reads a slot and then stops itself, and whose [onStop]
    callback throws. *)
Definition s_deferred_throw : state :=
  initial [(0, new_effect (PTrack obj (KStr "a") (PStop 0 PDone)) None
                 (Some PThrow) false)] [].

(** Effect 0 runs itself once more as long as variable 0 is set, and stops
    itself in the inner run. *)
Definition stop_inside : prog :=
  PIf 0 (PAssign 0 false (PRun 0 PDone)) (PStop 0 PDone).

Definition s_stop_inside : state :=
  initial [(0, new_effect stop_inside None (Some PDone) false)] [(0, true)].

(** An effect that reads a slot and then stops itself. *)
Definition stops_itself : ReactiveEffect :=
  new_effect (PTrack obj (KStr "a") (PStop 0 PDone)) None (Some PDone) false.

Definition s_deferred : state := initial [(0, stops_itself)] [].

(** The state in which its [fn] calls [stop], and the state in which its
    [fn] returns. *)
Definition s_deferred_mid : state :=
  track obj (KStr "a") (run_prologue 0 s_deferred).

Definition s_deferred_end : state :=
  match exec 5 (fn stops_itself) (run_prologue 0 s_deferred) with
  | Some (_, s) => s
  | None => s_deferred
  end.

Definition stops_itself_end : ReactiveEffect :=
  mkEffect true [(obj, KStr "a")] None false true (Some PDone)
           (PTrack obj (KStr "a") (PStop 0 PDone)) None.

(** *** Tracking while paused (C10) *)

(** A reader is run while tracking is paused. *)
Definition s_paused : state := pauseTracking (initial [(0, reader obj "x")] []).

Definition s_paused_end : state :=
  match run (exec 5) 0 s_paused with
  | Some (_, s) => s
  | None => s_paused
  end.

(** An effect whose computation reads one slot inside a region where
    tracking is paused and another one after the region. *)
Definition pausing : ReactiveEffect :=
  new_effect
    (PPauseTracking
       (PTrack obj (KStr "x") (PResetTracking (PTrack obj (KStr "y") PDone))))
    None None false.

Definition s_region : state := initial [(0, pausing)] [].

Definition s_region_end : state :=
  match run (exec 6) 0 s_region with
  | Some (_, s) => s
  | None => s_region
  end.

(** *** Reading and adding (C8, C9) *)

(** An array and an object, each with a subscriber of what an addition
    changes: ["length"] and the iteration key. *)
Definition s_fanout : state :=
  match exec 10 (PRun 0 (PRun 1 PDone))
          (initial [(0, reader arr "length");
                    (1, new_effect (PTrack obj ITERATE_KEY PDone) None None false)]
                   []) with
  | Some (_, s) => s
  | None => initial [] []
  end.

(** ** The invariant of the store, both ways *)

(** Every set named by a subscription list holds the effect. *)
Definition recorded (s : state) : Prop :=
  ∀ t k e, (t, k) ∈ deps_of s e → e ∈ dep_at s t k.

(** The subscription lists and the sets agree, and the handles are valid. *)
Definition store_invariant (s : state) : Prop := wf s ∧ recorded s.

Definition keeps_invariant (s s' : state) : Prop :=
  store_invariant s → store_invariant s'.

(** ** Stopped effects *)

(** No call brings a stopped effect back or replaces a closure. *)
Definition stays_stopped (s s' : state) : Prop :=
  ∀ e, active_of s e = false → active_of s' e = false.

(** The effect is out of the engine: it is stopped, it is neither the
    current effect nor the saved parent of a running one, and it belongs to
    no dependency set. *)
Definition retired (e : eid) (s : state) : Prop :=
  active_of s e = false
  ∧ activeEffect s ≠ Some e
  ∧ (∀ x, parent_of s x ≠ Some e)
  ∧ (∀ t k, e ∉ dep_at s t k).

(** A retired effect stays retired, and the history shows no tracked run of
    it and no read recorded for it. *)
Definition stays_retired (e : eid) (tr : list event) (s s' : state) : Prop :=
  retired e s →
  retired e s' ∧ (EvRunEnter e ∉ tr) ∧ (∀ t k, EvTrack e t k ∉ tr).

(** ** Computations that read *)

(** A closure that reads the slots [l] in order and goes on as [rest]. *)
Definition reads (l : list depref) (rest : prog) : prog :=
  foldr (λ r p, PTrack r.1 r.2 p) rest l.

(** The reads of the slots [l], in order. *)
Definition track_all (l : list depref) (s : state) : state :=
  foldl (λ s r, track r.1 r.2 s) s l.

(** Two effects and a closure that reads two slots of an object. *)
Definition two_reads : list depref := [(obj, KStr "a"); (obj, KStr "b")].

Definition s_reads : state :=
  initial [(0, new_effect (reads two_reads PDone) None None false);
           (1, reader obj "a")] [].

(** The store after the first effect of [s_reads] has run. *)
Definition s_reads_end : state :=
  match run (exec 3) 0 s_reads with
  | Some (_, s) => s
  | None => s_reads
  end.

(** The store of [s_array] after each effect has run once. *)
Definition s_indexed : state :=
  match exec 12 subscribe_all s_array with
  | Some (_, s) => s
  | None => s_array
  end.

(** The first effect of [s_reads_end] is stopped; then the second one runs,
    the slot it reads is written, and the stopped effect is run. *)
Definition s_reads_stopped : state :=
  match stop (exec 1) 0 s_reads_end with
  | Some (_, s) => s
  | None => s_reads_end
  end.

Definition after_stop : prog :=
  PRun 1 (PTrigger obj SET (KStr "a") None None (PRun 0 PDone)).

Definition s_reads_final : state :=
  match exec 8 after_stop s_reads_stopped with
  | Some (_, s) => s
  | None => s_reads_stopped
  end.

(** ** Numbers *)

(** [Number.isSafeInteger]: the integers on which the arithmetic of the
    source ([i++], [i - 1], the conversion to a string) is exact. *)
Definition safe_integer (z : Z) : Prop := (- 2 ^ 53 < z < 2 ^ 53)%Z.

(** ** Tracking while paused *)

(** From a state in which tracking is paused, and as long as the history
    records no assignment of [true] to the flag, tracking stays paused, no
    read is recorded and no effect becomes a member of a set. *)
Definition stays_paused (tr : list event) (s s' : state) : Prop :=
  shouldTrack s = false →
  (∀ ev, ev ∈ tr → sets_flag ev ≠ Some true) →
  shouldTrack s' = false
  ∧ (∀ e t k, EvTrack e t k ∉ tr)
  ∧ (∀ e t k, e ∈ dep_at s' t k → e ∈ dep_at s t k).




(** * Properties *)

Ltac by_compute := vm_compute; reflexivity.

Ltac decide_by_compute :=
  match goal with
  | |- ?P => apply (bool_decide_unpack P); vm_compute; exact I
  end.

(** ** Reasoning about calls *)

Lemma seq_Some (m1 m2 : M) s o s' :
  (m1 >> m2) s = Some (o, s') →
  (m1 s = Some (Threw, s') ∧ o = Threw)
  ∨ ∃ s1, m1 s = Some (Returned, s1) ∧ m2 s1 = Some (o, s').
Proof.
  unfold seq. destruct (m1 s) as [[[] s1]|] eqn:E; intros H.
  - right. eauto.
  - left. by inversion H.
  - done.
Qed.

Lemma try_finally_Some (body fin : M) s o s' :
  try_finally body fin s = Some (o, s') →
  ∃ o1 s1, body s = Some (o1, s1)
    ∧ ((fin s1 = Some (Returned, s') ∧ o = o1)
       ∨ (fin s1 = Some (Threw, s') ∧ o = Threw)).
Proof.
  unfold try_finally. destruct (body s) as [[o1 s1]|] eqn:E; [|done].
  destruct (fin s1) as [[[] s2]|] eqn:F; intros H; [| |done];
    eexists _, _; (split; [done|]); inversion H; subst; rewrite F; eauto.
Qed.

Section HoareRules.
Context (R : state → state → Prop) `{!PreOrder R}.

Lemma hoare_ret : hoare R ret.
Proof. intros s o s' H. inversion H. reflexivity. Qed.

Lemma hoare_lift f : (∀ s, R s (f s)) → hoare R (lift f).
Proof. intros Hf s o s' H. inversion H. apply Hf. Qed.

Lemma hoare_seq m1 m2 : hoare R m1 → hoare R m2 → hoare R (m1 >> m2).
Proof.
  intros H1 H2 s o s' H. apply seq_Some in H as [[H _]|(s1 & Ha & Hb)].
  - by eapply H1.
  - etrans; [by eapply H1 | by eapply H2].
Qed.

Lemma hoare_try_finally body fin :
  hoare R body → hoare R fin → hoare R (try_finally body fin).
Proof.
  intros H1 H2 s o s' H.
  apply try_finally_Some in H as (o1 & s1 & Ha & [[Hb _]|[Hb _]]);
    (etrans; [by eapply H1 | by eapply H2]).
Qed.

Lemma hoare_for_each f l : (∀ e, hoare R (f e)) → hoare R (for_each f l).
Proof.
  intros Hf. induction l as [|e l IH]; simpl.
  - apply hoare_ret.
  - by apply hoare_seq.
Qed.

(** The rules of the engine functions, from a rule for the closures. *)
Section Calls.
Context (call : prog → M) (Hcall : ∀ p, hoare R (call p)).
Context (Hlog : ∀ ev s, plain ev = true → R s (log ev s))
        (HdeferStop : ∀ e b s, R s (upd_effect e (set_deferStop b) s))
        (Hinactive : ∀ e s, R s (upd_effect e (set_active false) s))
        (Hcleanup : ∀ e s, R s (cleanupEffect e s)).

Lemma hoare_stop e : hoare R (stop call e).
Proof.
  intros s o s'. unfold stop. destruct (heap s !! e) as [ef|]; [|done].
  case_decide.
  - intros Hs. inversion Hs. etrans; [by apply (Hlog (EvDeferStop e))|].
    apply HdeferStop.
  - apply hoare_seq; [by apply hoare_lift|].
    apply hoare_seq; [|by apply hoare_lift].
    destruct (onStop ef); [|apply hoare_ret].
    apply hoare_seq; [|apply Hcall].
    apply hoare_lift. intros. by apply Hlog.
Qed.

Context (Hrun : ∀ e, hoare R (run call e)).

Lemma hoare_triggerEffect e : hoare R (triggerEffect call e).
Proof.
  intros s o s'. unfold triggerEffect. case_decide.
  - destruct (heap s !! e) as [ef|]; [|done].
    destruct (scheduler ef).
    + intros Hs. etrans; [by apply (Hlog (EvScheduler e)) | by eapply Hcall].
    + apply Hrun.
  - intros Hs. inversion Hs. reflexivity.
Qed.

Lemma hoare_triggerEffects l : hoare R (triggerEffects call l).
Proof.
  unfold triggerEffects. apply hoare_seq; apply hoare_for_each; intros e s o s';
    (destruct (heap s !! e) as [ef|]; [|done]);
    destruct (computed ef); simpl;
    try apply hoare_triggerEffect; intros H; inversion H; reflexivity.
Qed.

Lemma hoare_trigger t ty k nv ov : hoare R (trigger call t ty k nv ov).
Proof.
  intros s o s'. unfold trigger. destruct (targetMap s !! t).
  - apply hoare_triggerEffects.
  - intros H. inversion H. reflexivity.
Qed.

(** The finally block, for a relation that its steps respect. *)
Lemma hoare_run_epilogue e :
  (∀ s, is_Some (heap s !! e) → R s (run_restore e s)) →
  hoare R (run_epilogue call e).
Proof.
  intros Hres s o s'. unfold run_epilogue.
  destruct (heap s !! e) as [ef|] eqn:He; [|done].
  intros H. etrans; [by apply Hres|]. revert H.
  destruct (deferStop ef).
  - apply hoare_seq; [apply hoare_stop | by apply hoare_lift].
  - intros H. inversion H. reflexivity.
Qed.

(** [run], for a relation that its steps respect. *)
Lemma hoare_run_stepwise e :
  (∀ s, is_Some (heap s !! e) → R s (run_prologue e s)) →
  (∀ s, is_Some (heap s !! e) → R s (run_restore e s)) →
  hoare R (run call e).
Proof.
  intros Hpro Hres s o s'. unfold run.
  destruct (heap s !! e) as [ef|] eqn:He; [|done].
  destruct (active ef); simpl.
  - intros H. apply try_finally_Some in H as (o1 & s1 & Hfn & Hfin).
    etrans; [by apply Hpro|]. etrans; [by eapply Hcall|].
    destruct Hfin as [[Hfin _]|[Hfin _]];
      by eapply hoare_run_epilogue.
  - intros H. etrans; [by apply (Hlog (EvRunInactive e)) | by eapply Hcall].
Qed.
End Calls.

Lemma respects_stepwise :
  (∀ ev s, plain ev = true → R s (log ev s)) →
  (∀ e b s, R s (upd_effect e (set_deferStop b) s)) →
  (∀ e s, R s (upd_effect e (set_active false) s)) →
  (∀ e s, R s (cleanupEffect e s)) →
  (∀ t k s, R s (track t k s)) →
  (∀ s, R s (pauseTracking s)) →
  (∀ s, R s (resetTracking s)) →
  (∀ m s, R s (set_mem m s)) →
  (∀ e s, is_Some (heap s !! e) → R s (run_prologue e s)) →
  (∀ e s, is_Some (heap s !! e) → R s (run_restore e s)) →
  respects R.
Proof.
  intros H1 H2 H3 H4 H5 H6 H7 H8 H9 H10. split; try done.
  intros call Hcall e. apply hoare_run_stepwise; auto.
Qed.

Context (HR : respects R).

Lemma hoare_stop' call e : (∀ p, hoare R (call p)) → hoare R (stop call e).
Proof.
  intros. apply hoare_stop;
    [done | apply (resp_log HR) | apply (resp_deferStop HR)
    | apply (resp_inactive HR) | apply (resp_cleanup HR)].
Qed.

Lemma hoare_trigger' call t ty k nv ov :
  (∀ p, hoare R (call p)) → hoare R (trigger call t ty k nv ov).
Proof.
  intros. apply hoare_trigger;
    [done | apply (resp_log HR) | by apply (resp_run HR)].
Qed.

Lemma exec_respects n p : hoare R (exec n p).
Proof.
  revert p. induction n as [|n IH]; intros p s o s'; [done|].
  destruct p; simpl.
  - intros H. inversion H. reflexivity.
  - intros H. inversion H. reflexivity.
  - intros H. etrans; [apply (resp_track HR t k) | by eapply IH].
  - apply hoare_seq; [|apply IH]. by apply hoare_trigger'.
  - apply hoare_seq; [|apply IH]. by apply resp_run.
  - apply hoare_seq; [|apply IH]. by apply hoare_stop'.
  - intros H. etrans; [apply (resp_pause HR) | by eapply IH].
  - intros H. etrans; [apply (resp_reset HR) | by eapply IH].
  - apply IH.
  - intros H. etrans; [apply (resp_mem HR (<[x:=b]> (mem s))) | by eapply IH].
  - destruct (exec n p1 s) as [[o1 s1]|] eqn:E; [|done].
    intros H. etrans; by eapply IH.
Qed.

Lemma run_respects n e : hoare R (run (exec n) e).
Proof. apply resp_run; [done|]. intros p. apply exec_respects. Qed.

Lemma stop_respects n e : hoare R (stop (exec n) e).
Proof. apply hoare_stop'. intros p. apply exec_respects. Qed.

Lemma triggerEffect_respects n e : hoare R (triggerEffect (exec n) e).
Proof.
  apply hoare_triggerEffect.
  - intros p. apply exec_respects.
  - apply (resp_log HR).
  - intros e'. apply run_respects.
Qed.

Lemma triggerEffects_respects n l : hoare R (triggerEffects (exec n) l).
Proof.
  apply hoare_triggerEffects.
  - intros p. apply exec_respects.
  - apply (resp_log HR).
  - intros e'. apply run_respects.
Qed.

Lemma trigger_respects n t ty k nv ov :
  hoare R (trigger (exec n) t ty k nv ov).
Proof. apply hoare_trigger'. intros p. apply exec_respects. Qed.

End HoareRules.

(** ** Fuel *)

Lemma refines_refl m : refines m m.
Proof. by intros s r. Qed.

Lemma seq_refines m1 m1' m2 m2' :
  refines m1 m1' → refines m2 m2' → refines (m1 >> m2) (m1' >> m2').
Proof.
  intros H1 H2 s r. unfold seq.
  destruct (m1 s) as [[[] s1]|] eqn:E; [| |done]; rewrite (H1 _ _ E); [|done].
  apply H2.
Qed.

Lemma try_finally_refines b b' f f' :
  refines b b' → refines f f' → refines (try_finally b f) (try_finally b' f').
Proof.
  intros H1 H2 s r. unfold try_finally.
  destruct (b s) as [[o s1]|] eqn:E; [|done]. rewrite (H1 _ _ E).
  destruct (f s1) as [r1|] eqn:F; [|done]. by rewrite (H2 _ _ F).
Qed.

Lemma for_each_refines f f' l :
  (∀ e, refines (f e) (f' e)) → refines (for_each f l) (for_each f' l).
Proof.
  intros Hf. induction l as [|e l IH]; simpl; [apply refines_refl|].
  by apply seq_refines.
Qed.

Section Refinement.
Context (call call' : prog → M) (Hcall : ∀ p, refines (call p) (call' p)).

Lemma stop_refines e : refines (stop call e) (stop call' e).
Proof.
  intros s r. unfold stop. destruct (heap s !! e) as [ef|]; [|done].
  case_decide as Hd; [done|]. clear Hd. revert s r.
  apply seq_refines; [apply refines_refl|].
  apply seq_refines; [|apply refines_refl].
  destruct (onStop ef); [|apply refines_refl].
  apply seq_refines; [apply refines_refl | apply Hcall].
Qed.

Lemma run_epilogue_refines e :
  refines (run_epilogue call e) (run_epilogue call' e).
Proof.
  intros s r. unfold run_epilogue. destruct (heap s !! e) as [ef|]; [|done].
  destruct (deferStop ef); [|done]. generalize (run_restore e s). revert r.
  intros r s0. revert s0 r.
  apply seq_refines; [apply stop_refines | apply refines_refl].
Qed.

Lemma run_refines e : refines (run call e) (run call' e).
Proof.
  intros s r. unfold run. destruct (heap s !! e) as [ef|]; [|done].
  destruct (active ef); simpl; [|apply Hcall]. revert s r.
  apply try_finally_refines; [|apply run_epilogue_refines].
  intros s r. apply Hcall.
Qed.

Lemma triggerEffect_refines e :
  refines (triggerEffect call e) (triggerEffect call' e).
Proof.
  intros s r. unfold triggerEffect. case_decide; [|done].
  destruct (heap s !! e) as [ef|]; [|done].
  destruct (scheduler ef); [apply Hcall | apply run_refines].
Qed.

Lemma triggerEffects_refines l :
  refines (triggerEffects call l) (triggerEffects call' l).
Proof.
  unfold triggerEffects. apply seq_refines; apply for_each_refines;
    intros e s r; (destruct (heap s !! e) as [ef|]; [|done]);
    destruct (computed ef); simpl; try done; apply triggerEffect_refines.
Qed.

Lemma trigger_refines t ty k nv ov :
  refines (trigger call t ty k nv ov) (trigger call' t ty k nv ov).
Proof.
  intros s r. unfold trigger. destruct (targetMap s !! t); [|done].
  apply triggerEffects_refines.
Qed.
End Refinement.

Lemma exec_step_refines call call' p :
  (∀ p, refines (call p) (call' p)) →
  refines (exec_step call p) (exec_step call' p).
Proof.
  intros Hcall s r. destruct p; simpl; try done; try apply Hcall.
  - revert s r. apply seq_refines; [by apply trigger_refines | apply Hcall].
  - revert s r. apply seq_refines; [by apply run_refines | apply Hcall].
  - revert s r. apply seq_refines; [by apply stop_refines | apply Hcall].
  - destruct (call p1 s) as [[o s1]|] eqn:E; [|done].
    rewrite (Hcall _ _ _ E). apply Hcall.
Qed.

(** A result obtained with some fuel is obtained with any larger fuel. *)
Lemma exec_S n p : refines (exec n p) (exec (S n) p).
Proof.
  revert p. induction n as [|n IH]; intros p; [done|].
  by apply exec_step_refines.
Qed.

Lemma exec_fuel_mono n m p : (n ≤ m)%nat → refines (exec n p) (exec m p).
Proof.
  induction 1 as [|m _ IH]; [apply refines_refl|].
  intros s r H. by apply exec_S, IH.
Qed.

(** ** What the elementary steps change *)

Lemma dep_at_lookup s t k : dep_at s t k = default [] (dep_lookup (targetMap s) t k).
Proof. reflexivity. Qed.

Lemma dep_lookup_alter f r tm t k :
  dep_lookup (dep_alter f r tm) t k
  = if decide (r = (t, k)) then f <$> dep_lookup tm t k else dep_lookup tm t k.
Proof.
  destruct r as [t0 k0]. unfold dep_lookup, dep_alter. simpl.
  rewrite lookup_alter. case_decide as Ht.
  - subst t0. destruct (tm !! t) as [dm|]; simpl.
    + rewrite lookup_alter. repeat case_decide; congruence.
    + by case_decide.
  - case_decide; congruence.
Qed.

Lemma dep_delete_idemp e (d : Dep) : dep_delete e (dep_delete e d) = dep_delete e d.
Proof.
  unfold dep_delete. rewrite list_filter_filter.
  apply list_filter_iff. intros x. tauto.
Qed.

Lemma dep_lookup_foldl_delete e l tm t k :
  dep_lookup (foldl (λ tm r, dep_alter (dep_delete e) r tm) tm l) t k
  = if decide ((t, k) ∈ l) then dep_delete e <$> dep_lookup tm t k
    else dep_lookup tm t k.
Proof.
  revert tm. induction l as [|r l IH]; intros tm.
  - cbn [foldl]. destruct (decide ((t, k) ∈ [])) as [H|H]; [|done].
    exfalso. revert H. apply elem_of_nil.
  - cbn [foldl]. rewrite IH, dep_lookup_alter.
    destruct (decide ((t, k) ∈ l)) as [Hl|Hl];
      destruct (decide (r = (t, k))) as [Hr|Hr];
      destruct (decide ((t, k) ∈ r :: l)) as [Hrl|Hrl];
      rewrite elem_of_cons in Hrl; try subst r; try done;
      try (exfalso; intuition congruence).
    destruct (dep_lookup tm t k) as [d|]; simpl; [|done].
    by rewrite dep_delete_idemp.
Qed.

Lemma cleanupEffect_heap e s :
  heap (cleanupEffect e s) = alter (set_deps []) e (heap s).
Proof.
  unfold cleanupEffect. destruct (heap s !! e) eqn:E; [done|].
  simpl. apply map_eq. intros x. rewrite lookup_alter.
  case_decide; [subst; by rewrite E | done].
Qed.

Lemma cleanupEffect_targetMap e s :
  targetMap (cleanupEffect e s)
  = foldl (λ tm r, dep_alter (dep_delete e) r tm) (targetMap s) (deps_of s e).
Proof.
  unfold cleanupEffect, deps_of. by destruct (heap s !! e).
Qed.

Lemma cleanupEffect_activeEffect e s :
  activeEffect (cleanupEffect e s) = activeEffect s.
Proof. unfold cleanupEffect. by destruct (heap s !! e). Qed.

Lemma cleanupEffect_shouldTrack e s :
  shouldTrack (cleanupEffect e s) = shouldTrack s.
Proof. unfold cleanupEffect. by destruct (heap s !! e). Qed.

Lemma cleanupEffect_trace e s : trace (cleanupEffect e s) = trace s.
Proof. unfold cleanupEffect. by destruct (heap s !! e). Qed.

Lemma cleanupEffect_mem e s : mem (cleanupEffect e s) = mem s.
Proof. unfold cleanupEffect. by destruct (heap s !! e). Qed.

Lemma dep_at_cleanupEffect e s t k :
  dep_at (cleanupEffect e s) t k
  = if decide ((t, k) ∈ deps_of s e) then dep_delete e (dep_at s t k)
    else dep_at s t k.
Proof.
  rewrite !dep_at_lookup, cleanupEffect_targetMap, dep_lookup_foldl_delete.
  case_decide; [|done]. by destruct (dep_lookup (targetMap s) t k).
Qed.

Lemma track_off t k s : tracking s = false → track t k s = s.
Proof. unfold track, tracking. by intros ->. Qed.

Lemma tracking_Some s :
  tracking s = true ↔ shouldTrack s = true ∧ ∃ e, activeEffect s = Some e.
Proof.
  unfold tracking. rewrite andb_true_iff, bool_decide_eq_true.
  unfold is_Some. naive_solver.
Qed.

Lemma track_on t k s e :
  shouldTrack s = true → activeEffect s = Some e →
  track t k s
  = mkState
      (dep_alter (dep_add e) (t, k)
         (<[t := <[k := dep_at s t k]> (default ∅ (targetMap s !! t))]> (targetMap s)))
      (Some e) true
      (alter (λ ef, set_deps (deps ef ++ [(t, k)]) ef) e (heap s))
      (mem s) (trace s ++ [EvTrack e t k]).
Proof.
  intros Hs He. unfold track, trackEffects. rewrite Hs, He. simpl.
  unfold upd_effect, set_targetMap, log. simpl. rewrite Hs, He.
  f_equal. unfold dep_at. by destruct (targetMap s !! t).
Qed.

Lemma dep_lookup_create tm t k d t' k' :
  dep_lookup (<[t := <[k := d]> (default ∅ (tm !! t))]> tm) t' k'
  = if decide ((t, k) = (t', k')) then Some d else dep_lookup tm t' k'.
Proof.
  unfold dep_lookup. destruct (decide (t = t')) as [<-|Ht].
  - rewrite lookup_insert_eq. simpl. destruct (decide (k = k')) as [<-|Hk].
    + rewrite lookup_insert_eq. by rewrite decide_True.
    + rewrite lookup_insert_ne by done. rewrite decide_False by congruence.
      destruct (tm !! t); simpl; [done|]. by rewrite lookup_empty.
  - rewrite lookup_insert_ne by done. by rewrite decide_False by congruence.
Qed.

Lemma dep_lookup_track t k s e t' k' :
  shouldTrack s = true → activeEffect s = Some e →
  dep_lookup (targetMap (track t k s)) t' k'
  = if decide ((t, k) = (t', k')) then Some (dep_add e (dep_at s t k))
    else dep_lookup (targetMap s) t' k'.
Proof.
  intros Hs He. rewrite (track_on _ _ _ e) by done. simpl.
  rewrite dep_lookup_alter, dep_lookup_create. by case_decide.
Qed.

Lemma run_prologue_heap e s :
  heap (run_prologue e s)
  = alter (set_deps []) e (alter (set_parent (activeEffect s)) e (heap s)).
Proof. unfold run_prologue. by rewrite cleanupEffect_heap. Qed.

Lemma run_restore_heap e s :
  heap (run_restore e s) = alter (set_parent None) e (heap s).
Proof. reflexivity. Qed.

Lemma track_heap t k s :
  heap (track t k s)
  = match activeEffect s with
    | Some e =>
        if shouldTrack s
        then alter (λ ef, set_deps (deps ef ++ [(t, k)]) ef) e (heap s)
        else heap s
    | None => heap s
    end.
Proof.
  destruct (activeEffect s) as [e|] eqn:He, (shouldTrack s) eqn:Hs;
    try (rewrite track_off; [done | unfold tracking; rewrite ?Hs, ?He; done]).
  by rewrite (track_on _ _ _ e).
Qed.

(** ** The fields of an effect that no call changes *)

#[global] Instance same_static_preorder : PreOrder same_static.
Proof.
  split.
  - by intros s x.
  - intros s1 s2 s3 H12 H23 x. by rewrite H23, H12.
Qed.

Lemma same_static_heap s s' : heap s' = heap s → same_static s s'.
Proof. intros H x. by rewrite H. Qed.

Lemma static_alter f e (h : gmap eid ReactiveEffect) x :
  (∀ ef, static (f ef) = static ef) →
  static <$> alter f e h !! x = static <$> h !! x.
Proof.
  intros Hf. rewrite lookup_alter. case_decide; [subst|done].
  destruct (h !! x); simpl; [|done]. by rewrite Hf.
Qed.

Lemma same_static_alter f e s s' :
  (∀ ef, static (f ef) = static ef) →
  heap s' = alter f e (heap s) → same_static s s'.
Proof. intros Hf H x. rewrite H. by apply static_alter. Qed.

Lemma same_static_track t k s : same_static s (track t k s).
Proof.
  intros x. rewrite track_heap.
  destruct (activeEffect s), (shouldTrack s); try done. by apply static_alter.
Qed.

Lemma same_static_cleanupEffect e s : same_static s (cleanupEffect e s).
Proof. eapply same_static_alter; [|apply cleanupEffect_heap]. done. Qed.

Lemma same_static_run_prologue e s : same_static s (run_prologue e s).
Proof.
  intros x. rewrite run_prologue_heap. by rewrite !static_alter.
Qed.

Lemma same_static_respects : respects same_static.
Proof.
  apply respects_stepwise; try apply _.
  - intros. by apply same_static_heap.
  - intros. eapply same_static_alter; [|reflexivity]. done.
  - intros. eapply same_static_alter; [|reflexivity]. done.
  - apply same_static_cleanupEffect.
  - apply same_static_track.
  - intros. by apply same_static_heap.
  - intros. by apply same_static_heap.
  - intros. by apply same_static_heap.
  - intros. apply same_static_run_prologue.
  - intros. eapply same_static_alter; [|apply run_restore_heap]. done.
Qed.

(** ** Notification order *)

Lemma for_each_app f l1 l2 s :
  for_each f (l1 ++ l2) s = (for_each f l1 >> for_each f l2) s.
Proof.
  revert s. induction l1 as [|e l1 IH]; intros s; simpl.
  - done.
  - unfold seq. destruct (f e s) as [[[] s1]|]; [|done..].
    by rewrite IH.
Qed.

Lemma triggerEffects_passes call l :
  triggerEffects call l
  = (for_each (pass call id) l >> for_each (pass call negb) l).
Proof. reflexivity. Qed.

Lemma pass_filter n g l s0 s :
  same_static s0 s →
  (∀ e, e ∈ l → is_Some (heap s0 !! e)) →
  for_each (pass (exec n) g) l s
  = for_each (triggerEffect (exec n))
      (filter (λ e, g (computed_of s0 e) = true) l) s.
Proof.
  revert s. induction l as [|e l IH]; intros s Hst Hdom; [done|].
  destruct (Hdom e) as [ef0 He0]; [by left|].
  pose proof (Hst e) as Hse. rewrite He0 in Hse.
  destruct (heap s !! e) as [ef|] eqn:He; [|done].
  assert (computed ef = computed ef0) as Hc
    by (unfold static in Hse; simpl in Hse; congruence).
  assert (computed_of s0 e = computed ef0) as Hc0
    by (unfold computed_of; by rewrite He0).
  rewrite filter_cons. cbn [for_each]. unfold seq at 1, pass at 1.
  rewrite He, Hc. destruct (decide (g (computed_of s0 e) = true)) as [Hg|Hg];
    rewrite Hc0 in Hg.
  - rewrite Hg. cbn [for_each]. unfold seq.
    destruct (triggerEffect (exec n) e s) as [[[] s1]|] eqn:Ht; [|done..].
    apply IH; [|intros; apply Hdom; by right].
    etrans; [done|]. by eapply triggerEffect_respects, Ht; try apply _;
      apply same_static_respects.
  - apply not_true_is_false in Hg. rewrite Hg.
    apply IH; [done|]. intros; apply Hdom; by right.
Qed.

(** C3.  [triggerEffects] notifies the effects of the collection in an order
    that is a rearrangement of the collection (every node is notified once
    for each of its occurrences) in which every node marked [computed] comes
    before every node that is not. *)
Theorem triggerEffects_computed_first n (l : Dep) s :
  (∀ e, e ∈ l → is_Some (heap s !! e)) →
  ∃ order : list eid,
    triggerEffects (exec n) l s = for_each (triggerEffect (exec n)) order s
    ∧ order ≡ₚ l
    ∧ ∀ i j d p, order !! i = Some d → order !! j = Some p →
        computed_of s d = true → computed_of s p = false → (i < j)%nat.
Proof.
  intros Hdom.
  exists (filter (λ e, computed_of s e = true) l
          ++ filter (λ e, ¬ computed_of s e = true) l).
  split; [|split].
  - rewrite triggerEffects_passes, for_each_app. unfold seq.
    rewrite (pass_filter n id l s s) by done. unfold id.
    destruct (for_each _ (filter _ l) s) as [[[] s1]|] eqn:E; [|done..].
    rewrite (pass_filter n negb l s s1); [|by eapply hoare_for_each, E;
      try apply _; intros e; apply triggerEffect_respects; try apply _;
      apply same_static_respects | done].
    f_equal. apply list_filter_iff. intros e.
    destruct (computed_of s e); naive_solver.
  - apply filter_app_complement.
  - intros i j d p Hi Hj Hd Hp.
    apply lookup_app_Some in Hj as [Hj|[Hj _]].
    + apply list_elem_of_lookup_2, list_elem_of_filter in Hj as [Hj _]. congruence.
    + apply lookup_app_Some in Hi as [Hi|[_ Hi]].
      * apply lookup_lt_Some in Hi. lia.
      * apply list_elem_of_lookup_2, list_elem_of_filter in Hi as [Hi _]. done.
Qed.

(** ** Dependency sets as sets *)

Lemma elem_of_dep_add x e (d : Dep) : x ∈ dep_add e d ↔ x = e ∨ x ∈ d.
Proof.
  unfold dep_add. case_decide as He.
  - split; [intros; by right | by intros [->|?]].
  - rewrite elem_of_app, list_elem_of_singleton. tauto.
Qed.

Lemma NoDup_dep_add e (d : Dep) : NoDup d → NoDup (dep_add e d).
Proof.
  intros Hd. unfold dep_add. case_decide as He; [done|].
  apply NoDup_app. split; [done|]. split; [|apply NoDup_singleton].
  intros x Hx ->%list_elem_of_singleton. done.
Qed.

Lemma elem_of_dep_delete x e (d : Dep) : x ∈ dep_delete e d ↔ x ≠ e ∧ x ∈ d.
Proof. unfold dep_delete. by rewrite list_elem_of_filter. Qed.

Lemma elem_of_foldl_dep_add x (d acc : Dep) :
  x ∈ foldl (λ a v, dep_add v a) acc d ↔ x ∈ acc ∨ x ∈ d.
Proof.
  revert acc. induction d as [|v d IH]; intros acc; simpl.
  - rewrite elem_of_nil. tauto.
  - rewrite IH, elem_of_dep_add, elem_of_cons. tauto.
Qed.

Lemma NoDup_foldl_dep_add (d acc : Dep) :
  NoDup acc → NoDup (foldl (λ a v, dep_add v a) acc d).
Proof.
  revert acc. induction d as [|v d IH]; intros acc Ha; simpl; [done|].
  by apply IH, NoDup_dep_add.
Qed.

Lemma elem_of_collect_from x deps acc :
  x ∈ foldl collect_step acc deps ↔ x ∈ acc ∨ ∃ d, Some d ∈ deps ∧ x ∈ d.
Proof.
  revert acc. induction deps as [|od deps IH]; intros acc; simpl.
  - split; [by left|]. intros [?|(d & Hd & _)]; [done|]. by apply elem_of_nil in Hd.
  - rewrite IH. destruct od as [d0|]; simpl.
    + rewrite elem_of_foldl_dep_add. split.
      * intros [[?|?]|(d & Hd & Hx)]; [by left| |].
        -- right. exists d0. split; [by left|done].
        -- right. exists d. split; [by right|done].
      * intros [?|(d & Hd & Hx)]; [by left; left|].
        apply elem_of_cons in Hd as [Hd|Hd].
        -- injection Hd as ->. left. by right.
        -- right. eauto.
    + split.
      * intros [?|(d & Hd & Hx)]; [by left|]. right. exists d. split; [by right|done].
      * intros [?|(d & Hd & Hx)]; [by left|].
        apply elem_of_cons in Hd as [Hd|Hd]; [done|]. right. eauto.
Qed.

(** The collection handed to notification holds exactly the members of the
    sets that were found. *)
Lemma elem_of_collect x deps :
  x ∈ collect deps ↔ ∃ d, Some d ∈ deps ∧ x ∈ d.
Proof.
  unfold collect. rewrite (elem_of_collect_from x deps []), elem_of_nil. tauto.
Qed.

(** The collection is deduplicated. *)
Lemma NoDup_collect deps : NoDup (collect deps).
Proof.
  unfold collect. fold collect_step.
  generalize (NoDup_nil_2 (A:=eid)). generalize (@nil eid).
  induction deps as [|od deps IH]; intros acc Ha; simpl; [done|].
  apply IH. destruct od; simpl; [by apply NoDup_foldl_dep_add | done].
Qed.

Lemma trigger_unfold call t ty k nv ov s :
  trigger call t ty k nv ov s
  = triggerEffects call (trigger_effects s t ty k nv ov) s.
Proof. unfold trigger, trigger_effects. by destruct (targetMap s !! t). Qed.

Lemma dep_at_Some s t k depsMap :
  targetMap s !! t = Some depsMap → dep_at s t k = default [] (depsMap !! k).
Proof. unfold dep_at. by intros ->. Qed.

Lemma elem_of_dep_at_Some s t k depsMap x :
  targetMap s !! t = Some depsMap →
  x ∈ dep_at s t k ↔ ∃ d, depsMap !! k = Some d ∧ x ∈ d.
Proof.
  intros H. rewrite (dep_at_Some _ _ _ _ H). destruct (depsMap !! k) as [d|]; simpl.
  - split; [eauto|]. by intros (d0 & [= ->] & ?).
  - split; [by intros ?%elem_of_nil | by intros (? & ? & ?)].
Qed.

Lemma dep_at_None s t k : targetMap s !! t = None → dep_at s t k = [].
Proof. unfold dep_at. by intros ->. Qed.

(** ** C8: the contract of [track] *)

(** C8.  [track(target, key)] changes nothing unless tracking is enabled and
    there is a current effect [e]; then the set of [(target, key)] exists
    afterwards (with its per-target map) and is the former set (empty when it
    had to be created) with [e] added, the reference is appended to the
    subscription list of [e], and no other set, no other field of [e], no
    other effect and neither global changes. *)
Theorem track_contract t k s :
  (shouldTrack s = false ∨ activeEffect s = None → track t k s = s)
  ∧ (∀ e, shouldTrack s = true → activeEffect s = Some e →
       let s' := track t k s in
       is_Some (targetMap s' !! t)
       ∧ dep_lookup (targetMap s') t k = Some (dep_add e (dep_at s t k))
       ∧ e ∈ dep_at s' t k
       ∧ (∀ t' k', (t', k') ≠ (t, k) →
            dep_lookup (targetMap s') t' k' = dep_lookup (targetMap s) t' k')
       ∧ (∀ t', t' ≠ t → targetMap s' !! t' = targetMap s !! t')
       ∧ heap s' !! e = (λ ef, set_deps (deps ef ++ [(t, k)]) ef) <$> heap s !! e
       ∧ (is_Some (heap s !! e) → deps_of s' e = deps_of s e ++ [(t, k)])
       ∧ (∀ x, x ≠ e → heap s' !! x = heap s !! x)
       ∧ activeEffect s' = activeEffect s
       ∧ shouldTrack s' = shouldTrack s
       ∧ mem s' = mem s).
Proof.
  split.
  - intros H. apply track_off. unfold tracking.
    destruct H as [-> | ->]; [done|]. by rewrite andb_false_r.
  - intros e Hs He s'.
    assert (Hl := dep_lookup_track t k s e). subst s'.
    split_and!.
    + rewrite (track_on _ _ _ e) by done. simpl. unfold dep_alter. simpl.
      rewrite lookup_alter_eq, lookup_insert_eq. by eexists.
    + rewrite Hl by done. by rewrite decide_True.
    + rewrite dep_at_lookup, Hl by done. rewrite decide_True by done. simpl.
      apply elem_of_dep_add. by left.
    + intros t' k' Hne. rewrite Hl by done. by rewrite decide_False.
    + intros t' Hne. rewrite (track_on _ _ _ e) by done. simpl.
      unfold dep_alter. simpl. rewrite lookup_alter_ne by done.
      by rewrite lookup_insert_ne.
    + rewrite track_heap, He, Hs. apply lookup_alter_eq.
    + intros [ef Hef]. unfold deps_of.
      by rewrite track_heap, He, Hs, lookup_alter_eq, Hef.
    + intros x Hx. rewrite track_heap, He, Hs. by apply lookup_alter_ne.
    + rewrite (track_on _ _ _ e) by done. by rewrite He.
    + rewrite (track_on _ _ _ e) by done. by rewrite Hs.
    + by rewrite (track_on _ _ _ e) by done.
Qed.

(** ** C9: what an addition notifies *)

(** C9.  For [trigger(target, ADD, key, ...)] the collection handed to
    notification is deduplicated and holds the subscribers of [key] itself;
    when the target is an array and [key] an integer index it also holds the
    subscribers of ["length"]; otherwise, when the target is an object, it
    also holds the subscribers of [ITERATE_KEY]. *)
Theorem trigger_add_fanout call t k nv ov s :
  let effects := trigger_effects s t ADD k nv ov in
  trigger call t ADD k nv ov s = triggerEffects call effects s
  ∧ NoDup effects
  ∧ (∀ x, x ∈ dep_at s t k → x ∈ effects)
  ∧ (isArray t = true → isIntegerKey k = true →
       ∀ x, x ∈ dep_at s t (KStr "length") → x ∈ effects)
  ∧ (¬ (isArray t = true ∧ isIntegerKey k = true) → isObject t = true →
       ∀ x, x ∈ dep_at s t ITERATE_KEY → x ∈ effects).
Proof.
  intros effects. split; [apply trigger_unfold|]. subst effects.
  unfold trigger_effects.
  destruct (targetMap s !! t) as [depsMap|] eqn:Ht.
  - split; [apply NoDup_collect|].
    split_and!.
    + intros x (d & Hd & Hx)%(elem_of_dep_at_Some _ _ _ _ _ Ht).
      apply elem_of_collect. exists d. split; [|done].
      unfold trigger_deps. rewrite <- Hd. by left.
    + intros Ha Hi x (d & Hd & Hx)%(elem_of_dep_at_Some _ _ _ _ _ Ht).
      apply elem_of_collect. exists d. split; [|done].
      unfold trigger_deps. rewrite Ha, Hi, <- Hd. simpl.
      apply elem_of_cons. right. apply elem_of_app. right. by left.
    + intros Hn Ho x (d & Hd & Hx)%(elem_of_dep_at_Some _ _ _ _ _ Ht).
      apply elem_of_collect. exists d. split; [|done].
      unfold trigger_deps. rewrite Ho, <- Hd. simpl.
      apply elem_of_cons. right. apply elem_of_app. right.
      destruct (isArray t), (isIntegerKey k); simpl; try by left.
      by destruct Hn.
  - split; [apply NoDup_nil_2|].
    split_and!; intros; by rewrite dep_at_None in * by done.
Qed.

(** ** C4: the current effect is not notified *)



(** ** Relations that speak about the history *)

Lemma traced_intro Φ tr s s' :
  trace s' = trace s ++ tr → Φ tr s s' → traced Φ s s'.
Proof. intros. by exists tr. Qed.

Lemma traced_elim Φ tr s s' :
  traced Φ s s' → trace s' = trace s ++ tr → Φ tr s s'.
Proof.
  intros (tr' & Ht & HΦ) Htr. rewrite Ht in Htr.
  by apply app_inv_head in Htr as <-.
Qed.

Lemma traced_preorder Φ :
  (∀ s, Φ [] s s) →
  (∀ tr1 tr2 s1 s2 s3, Φ tr1 s1 s2 → Φ tr2 s2 s3 → Φ (tr1 ++ tr2) s1 s3) →
  PreOrder (traced Φ).
Proof.
  intros Hrefl Htrans. split.
  - intros s. exists []. by rewrite app_nil_r.
  - intros s1 s2 s3 (tr1 & Ht1 & H1) (tr2 & Ht2 & H2).
    exists (tr1 ++ tr2). rewrite Ht2, Ht1, app_assoc. eauto.
Qed.

Lemma track_trace t k s :
  trace (track t k s)
  = trace s ++ match activeEffect s with
               | Some e => if shouldTrack s then [EvTrack e t k] else []
               | None => []
               end.
Proof.
  destruct (activeEffect s) as [e|] eqn:He, (shouldTrack s) eqn:Hs;
    try (rewrite track_off, app_nil_r;
         [done | unfold tracking; rewrite ?Hs, ?He; done]).
  by rewrite (track_on _ _ _ e).
Qed.

Lemma track_activeEffect t k s : activeEffect (track t k s) = activeEffect s.
Proof.
  destruct (activeEffect s) as [e|] eqn:He, (shouldTrack s) eqn:Hs;
    try (rewrite track_off; [done | unfold tracking; rewrite ?Hs, ?He; done]).
  by rewrite (track_on _ _ _ e).
Qed.

Lemma track_shouldTrack t k s : shouldTrack (track t k s) = shouldTrack s.
Proof.
  destruct (activeEffect s) as [e|] eqn:He, (shouldTrack s) eqn:Hs;
    try (rewrite track_off; [done | unfold tracking; rewrite ?Hs, ?He; done]).
  by rewrite (track_on _ _ _ e).
Qed.

Lemma run_prologue_trace e s :
  trace (run_prologue e s) = trace s ++ [EvRunEnter e].
Proof. unfold run_prologue. by rewrite cleanupEffect_trace. Qed.

Lemma run_prologue_activeEffect e s : activeEffect (run_prologue e s) = Some e.
Proof. unfold run_prologue. by rewrite cleanupEffect_activeEffect. Qed.

Lemma run_prologue_shouldTrack e s : shouldTrack (run_prologue e s) = true.
Proof. unfold run_prologue. by rewrite cleanupEffect_shouldTrack. Qed.

(** A rule for [traced] relations from what each elementary step appends. *)
Lemma respects_traced Φ :
  (∀ s, Φ [] s s) →
  (∀ tr1 tr2 s1 s2 s3, Φ tr1 s1 s2 → Φ tr2 s2 s3 → Φ (tr1 ++ tr2) s1 s3) →
  (∀ ev s, plain ev = true → Φ [ev] s (log ev s)) →
  (∀ e b s, Φ [] s (upd_effect e (set_deferStop b) s)) →
  (∀ e s, Φ [] s (upd_effect e (set_active false) s)) →
  (∀ e s, Φ [] s (cleanupEffect e s)) →
  (∀ t k s e, activeEffect s = Some e → shouldTrack s = true →
     Φ [EvTrack e t k] s (track t k s)) →
  (∀ s, Φ [EvPause] s (pauseTracking s)) →
  (∀ s, Φ [EvReset] s (resetTracking s)) →
  (∀ m s, Φ [] s (set_mem m s)) →
  (∀ call, (∀ p, hoare (traced Φ) (call p)) →
     ∀ e, hoare (traced Φ) (run call e)) →
  respects (traced Φ).
Proof.
  intros Hrefl Htrans H1 H2 H3 H4 H5 H6 H7 H8 H9.
  split; try done.
  - intros. eapply traced_intro; [reflexivity | by apply H1].
  - intros. eapply traced_intro; [|apply H2]. by rewrite app_nil_r.
  - intros. eapply traced_intro; [|apply H3]. by rewrite app_nil_r.
  - intros. eapply traced_intro; [|apply H4].
    by rewrite cleanupEffect_trace, app_nil_r.
  - intros t k s.
    destruct (activeEffect s) as [e|] eqn:He, (shouldTrack s) eqn:Hs.
    + eapply traced_intro; [|by apply H5]. by rewrite track_trace, He, Hs.
    + rewrite track_off by (unfold tracking; by rewrite Hs).
      eapply traced_intro; [|apply Hrefl]. by rewrite app_nil_r.
    + rewrite track_off by (unfold tracking; by rewrite He, andb_false_r).
      eapply traced_intro; [|apply Hrefl]. by rewrite app_nil_r.
    + rewrite track_off by (unfold tracking; by rewrite Hs).
      eapply traced_intro; [|apply Hrefl]. by rewrite app_nil_r.
  - intros. eapply traced_intro; [reflexivity | by apply H6].
  - intros. eapply traced_intro; [reflexivity | by apply H7].
  - intros. eapply traced_intro; [|apply H8]. by rewrite app_nil_r.
Qed.

(** The same for a relation that the steps of [run] respect one by one. *)
Lemma respects_traced_stepwise Φ :
  (∀ s, Φ [] s s) →
  (∀ tr1 tr2 s1 s2 s3, Φ tr1 s1 s2 → Φ tr2 s2 s3 → Φ (tr1 ++ tr2) s1 s3) →
  (∀ ev s, plain ev = true → Φ [ev] s (log ev s)) →
  (∀ e b s, Φ [] s (upd_effect e (set_deferStop b) s)) →
  (∀ e s, Φ [] s (upd_effect e (set_active false) s)) →
  (∀ e s, Φ [] s (cleanupEffect e s)) →
  (∀ t k s e, activeEffect s = Some e → shouldTrack s = true →
     Φ [EvTrack e t k] s (track t k s)) →
  (∀ s, Φ [EvPause] s (pauseTracking s)) →
  (∀ s, Φ [EvReset] s (resetTracking s)) →
  (∀ m s, Φ [] s (set_mem m s)) →
  (∀ e s, is_Some (heap s !! e) → Φ [EvRunEnter e] s (run_prologue e s)) →
  (∀ e s, is_Some (heap s !! e) → Φ [EvRunLeave e] s (run_restore e s)) →
  respects (traced Φ).
Proof.
  intros Hrefl Htrans H1 H2 H3 H4 H5 H6 H7 H8 H9 H10.
  pose proof (traced_preorder Φ Hrefl Htrans).
  apply respects_traced; try done.
  intros call Hcall e. apply hoare_run_stepwise; try done.
  - intros. eapply traced_intro; [reflexivity | by apply H1].
  - intros. eapply traced_intro; [|apply H2]. by rewrite app_nil_r.
  - intros. eapply traced_intro; [|apply H3]. by rewrite app_nil_r.
  - intros. eapply traced_intro; [|apply H4].
    by rewrite cleanupEffect_trace, app_nil_r.
  - intros. eapply traced_intro; [|by apply H9]. apply run_prologue_trace.
  - intros. eapply traced_intro; [|by apply H10]. done.
Qed.

(** ** The shape of an active [run] *)

Lemma active_of_Some s e :
  active_of s e = true ↔ ∃ ef, heap s !! e = Some ef ∧ active ef = true.
Proof.
  unfold active_of. destruct (heap s !! e) as [ef|]; simpl.
  - split; [eauto|]. by intros (? & [= <-] & ?).
  - split; [done|]. by intros (? & ? & ?).
Qed.

(** An active [run] is: the prologue, the call of [fn], the finally block. *)
Lemma run_active_Some call e s ef o s' :
  heap s !! e = Some ef → active ef = true →
  run call e s = Some (o, s') →
  ∃ o1 s1, call (fn ef) (run_prologue e s) = Some (o1, s1)
    ∧ ((run_epilogue call e s1 = Some (Returned, s') ∧ o = o1)
       ∨ (run_epilogue call e s1 = Some (Threw, s') ∧ o = Threw)).
Proof.
  intros He Ha. unfold run. rewrite He, Ha. simpl. intros H.
  by apply (try_finally_Some (λ s, call (fn ef) (run_prologue e s))) in H.
Qed.

Lemma run_after_prologue R `{!PreOrder R} call e s o s' :
  (∀ p, hoare R (call p)) → hoare R (run_epilogue call e) →
  active_of s e = true →
  run call e s = Some (o, s') → R (run_prologue e s) s'.
Proof.
  intros Hcall Hepi (ef & He & Ha)%active_of_Some Hrun.
  destruct (run_active_Some _ _ _ _ _ _ He Ha Hrun)
    as (o1 & s1 & Hfn & [[Hfin _]|[Hfin _]]);
    (etrans; [by eapply Hcall | by eapply Hepi]).
Qed.

Lemma run_epilogue_respects R `{!PreOrder R} n e :
  respects R →
  (∀ s, is_Some (heap s !! e) → R s (run_restore e s)) →
  hoare R (run_epilogue (exec n) e).
Proof.
  intros HR Hres. apply hoare_run_epilogue; try done; try apply HR.
  intros p. by apply exec_respects.
Qed.

(** ** C10: [run] and the tracking flag *)

Lemma tracking_after_app b tr1 tr2 :
  tracking_after b (tr1 ++ tr2) = tracking_after (tracking_after b tr1) tr2.
Proof. apply foldl_app. Qed.

(** The flag after a history is the value of the last assignment. *)
Lemma tracking_after_last b tr :
  tracking_after b tr = default b (last (omap sets_flag tr)).
Proof.
  induction tr as [|ev tr IH] using rev_ind; [done|].
  rewrite tracking_after_app, omap_app, IH. simpl.
  destruct (sets_flag ev) as [b'|]; simpl.
  - by rewrite last_snoc.
  - by rewrite app_nil_r.
Qed.

Lemma follows_flag_refl s : follows_flag [] s s.
Proof. done. Qed.

Lemma follows_flag_trans tr1 tr2 s1 s2 s3 :
  follows_flag tr1 s1 s2 → follows_flag tr2 s2 s3 →
  follows_flag (tr1 ++ tr2) s1 s3.
Proof.
  unfold follows_flag. intros H1 H2. by rewrite tracking_after_app, <- H1.
Qed.

#[global] Instance follows_flag_preorder : PreOrder (traced follows_flag).
Proof.
  apply traced_preorder; [apply follows_flag_refl | apply follows_flag_trans].
Qed.

Lemma follows_flag_respects : respects (traced follows_flag).
Proof.
  apply respects_traced_stepwise;
    [apply follows_flag_refl | apply follows_flag_trans | ..];
    unfold follows_flag.
  - intros ev s Hev. by destruct ev.
  - done.
  - done.
  - intros e s. apply cleanupEffect_shouldTrack.
  - intros t k s e _ _. apply track_shouldTrack.
  - done.
  - done.
  - done.
  - intros e s _. apply run_prologue_shouldTrack.
  - done.
Qed.

Lemma run_prologue_shouldTrack_irrelevant e b s :
  run_prologue e (set_shouldTrack b s) = run_prologue e s.
Proof. reflexivity. Qed.

(** C10 (as amended).  An active [run] sets [shouldTrack] before it calls
    [fn] and does not put the former value back: its result is the same
    whatever the value was before the call, and when it returns the flag has
    the value of the last assignment made during the run, by
    [pauseTracking] (false), by [resetTracking] (true) or by the try block
    of an active [run] (true, the run itself being the first of these). *)
Theorem run_enables_tracking n e s o s' tr :
  active_of s e = true →
  run (exec n) e s = Some (o, s') →
  trace s' = trace s ++ tr →
  shouldTrack (run_prologue e s) = true
  ∧ last (omap sets_flag tr) = Some (shouldTrack s')
  ∧ ∀ b, run (exec n) e (set_shouldTrack b s) = Some (o, s').
Proof.
  intros Ha Hrun Htr. split; [apply run_prologue_shouldTrack|]. split.
  - pose proof (run_after_prologue (traced follows_flag) (exec n) e s o s') as H.
    destruct H as (tr' & Htr' & H); try done.
    + intros p. apply exec_respects; [apply _ | apply follows_flag_respects].
    + apply run_epilogue_respects; [apply _ | apply follows_flag_respects |].
      intros s1 _. eapply traced_intro; [reflexivity | done].
    + rewrite run_prologue_trace, <- app_assoc, Htr in Htr'.
      apply app_inv_head in Htr' as ->.
      unfold follows_flag in H. rewrite run_prologue_shouldTrack in H.
      rewrite H, tracking_after_last.
      change (omap sets_flag ([EvRunEnter e] ++ tr'))
        with (true :: omap sets_flag tr').
      rewrite last_cons. by destruct (last (omap sets_flag tr')).
  - intros b. rewrite <- Hrun. apply active_of_Some in Ha as (ef & He & Ha).
    unfold run. simpl. rewrite He, Ha. simpl. unfold try_finally.
    by rewrite run_prologue_shouldTrack_irrelevant.
Qed.

(** ** C5: a run starts from no subscriptions *)

Lemma deps_alter f e (h : gmap eid ReactiveEffect) x :
  (∀ ef, deps (f ef) = deps ef) → deps <$> alter f e h !! x = deps <$> h !! x.
Proof.
  intros Hf. rewrite lookup_alter. case_decide; [subst|done].
  destruct (h !! x); simpl; [|done]. by rewrite Hf.
Qed.

Lemma deps_of_upd_effect e f s x :
  (∀ ef, deps (f ef) = deps ef) → deps_of (upd_effect e f s) x = deps_of s x.
Proof.
  intros Hf. unfold deps_of. simpl. rewrite lookup_alter.
  case_decide; [subst|done]. destruct (heap s !! x); simpl; [|done]. apply Hf.
Qed.

Lemma deps_of_cleanupEffect e s x :
  deps_of (cleanupEffect e s) x = if decide (x = e) then [] else deps_of s x.
Proof.
  unfold deps_of. rewrite cleanupEffect_heap, lookup_alter.
  repeat case_decide; try congruence; subst.
  by destruct (heap s !! x).
Qed.

Lemma cleanupEffect_purges e s t k :
  consistent s → e ∉ dep_at (cleanupEffect e s) t k.
Proof.
  intros Hc. rewrite dep_at_cleanupEffect. case_decide as Hin.
  - rewrite elem_of_dep_delete. by intros [? _].
  - intros He. by apply Hin, Hc.
Qed.

Lemma run_prologue_dep_at e s t k :
  dep_at (run_prologue e s) t k
  = if decide ((t, k) ∈ deps_of s e) then dep_delete e (dep_at s t k)
    else dep_at s t k.
Proof.
  unfold run_prologue. rewrite dep_at_cleanupEffect.
  assert (∀ s0, deps_of (set_shouldTrack true (set_activeEffect (Some e)
            (upd_effect e (set_parent (activeEffect s)) s0))) e = deps_of s0 e) as ->.
  { intros s0. by apply (deps_of_upd_effect e (set_parent (activeEffect s)) s0 e). }
  done.
Qed.

Lemma run_prologue_purges e s t k :
  consistent s → e ∉ dep_at (run_prologue e s) t k.
Proof.
  intros Hc. rewrite run_prologue_dep_at. case_decide as Hin.
  - rewrite elem_of_dep_delete. by intros [? _].
  - intros He. by apply Hin, Hc.
Qed.

Lemma run_prologue_deps_of e s : deps_of (run_prologue e s) e = [].
Proof.
  unfold run_prologue. rewrite deps_of_cleanupEffect. by rewrite decide_True.
Qed.

Lemma subscribed_by_track_same tr s s' :
  targetMap s' = targetMap s → subscribed_by_track tr s s'.
Proof. intros H e t k. unfold dep_at. rewrite H. by left. Qed.

Lemma subscribed_by_track_refl s : subscribed_by_track [] s s.
Proof. by apply subscribed_by_track_same. Qed.

Lemma subscribed_by_track_trans tr1 tr2 s1 s2 s3 :
  subscribed_by_track tr1 s1 s2 → subscribed_by_track tr2 s2 s3 →
  subscribed_by_track (tr1 ++ tr2) s1 s3.
Proof.
  intros H1 H2 e t k [Hin|Hin]%H2.
  - apply H1 in Hin as [?|?]; [by left|]. right. apply elem_of_app. by left.
  - right. apply elem_of_app. by right.
Qed.

#[global] Instance subscribed_by_track_preorder :
  PreOrder (traced subscribed_by_track).
Proof.
  apply traced_preorder;
    [apply subscribed_by_track_refl | apply subscribed_by_track_trans].
Qed.

Lemma subscribed_by_track_respects : respects (traced subscribed_by_track).
Proof.
  apply respects_traced_stepwise;
    try apply subscribed_by_track_refl; try apply subscribed_by_track_trans;
    try (intros; by apply subscribed_by_track_same).
  - intros e s x t k. rewrite dep_at_cleanupEffect. case_decide; [|by left].
    rewrite elem_of_dep_delete. intros [_ ?]. by left.
  - intros t k s e He Hs x t' k'. rewrite dep_at_lookup.
    rewrite (dep_lookup_track t k s e) by done. case_decide as Heq.
    + injection Heq as <- <-. simpl. rewrite elem_of_dep_add.
      intros [->|?]; [right; by left | by left].
    + by left.
  - intros e s _ x t k. rewrite run_prologue_dep_at. case_decide; [|by left].
    rewrite elem_of_dep_delete. intros [_ ?]. by left.
Qed.

Lemma elem_of_trigger_effects_set s t k nv ov x :
  k ≠ KStr "length" →
  x ∈ trigger_effects s t SET k nv ov → x ∈ dep_at s t k.
Proof.
  intros Hk. unfold trigger_effects.
  destruct (targetMap s !! t) as [depsMap|] eqn:Ht; [|by intros ?%elem_of_nil].
  rewrite elem_of_collect. intros (d & Hd & Hx).
  apply (elem_of_dep_at_Some _ _ _ _ _ Ht). exists d. split; [|done].
  unfold trigger_deps in Hd. rewrite bool_decide_eq_false_2 in Hd by done.
  rewrite andb_false_r in Hd. simpl in Hd.
  by apply list_elem_of_singleton in Hd.
Qed.

(** C5.  An active [run] calls [fn] in the state left by the prologue, in
    which the effect belongs to no dependency set and its subscription list
    is empty.  Consequently, when the run is over the effect belongs only to
    sets of slots that were read on its behalf during this run, and a write
    ([SET], of a key other than ["length"]) to any other slot does not hand
    it to notification. *)
Theorem run_discards_subscriptions n e s ef :
  consistent s →
  heap s !! e = Some ef → active ef = true →
  run (exec n) e s
  = try_finally (λ s0, exec n (fn ef) (run_prologue e s0))
                (run_epilogue (exec n) e) s
  ∧ (∀ t k, e ∉ dep_at (run_prologue e s) t k)
  ∧ deps_of (run_prologue e s) e = []
  ∧ ∀ o s' tr,
      run (exec n) e s = Some (o, s') → trace s' = trace s ++ tr →
      (∀ t k, e ∈ dep_at s' t k → EvTrack e t k ∈ tr)
      ∧ (∀ t k nv ov, k ≠ KStr "length" →
           e ∈ trigger_effects s' t SET k nv ov → EvTrack e t k ∈ tr).
Proof.
  intros Hc He Ha. split_and!.
  - unfold run. by rewrite He, Ha.
  - intros t k. by apply run_prologue_purges.
  - apply run_prologue_deps_of.
  - intros o s' tr Hrun Htr.
    assert (∀ t k, e ∈ dep_at s' t k → EvTrack e t k ∈ tr) as Hsub.
    { intros t k Hin.
      destruct (run_after_prologue (traced subscribed_by_track) (exec n) e s o s')
        as (tr' & Htr' & H); try done.
      - intros p. apply exec_respects; [apply _ | apply subscribed_by_track_respects].
      - apply run_epilogue_respects;
          [apply _ | apply subscribed_by_track_respects |].
        intros s1 _. eapply traced_intro; [reflexivity|].
        by apply subscribed_by_track_same.
      - apply active_of_Some. eauto.
      - rewrite run_prologue_trace, <- app_assoc, Htr in Htr'.
        apply app_inv_head in Htr' as ->.
        apply H in Hin as [Hin|Hin]; [|by right].
        by apply run_prologue_purges in Hin. }
    split; [done|]. intros t k nv ov Hk Hin.
    by eapply Hsub, elem_of_trigger_effects_set.
Qed.

(** ** The invariant of the store *)

#[global] Instance preserves_wf_preorder : PreOrder preserves_wf.
Proof. split; unfold preserves_wf; [by intros s | intros s1 s2 s3; tauto]. Qed.

Lemma parent_of_upd_effect e f s x :
  (∀ ef, parent (f ef) = parent ef) →
  parent_of (upd_effect e f s) x = parent_of s x.
Proof.
  intros Hf. unfold parent_of. simpl. rewrite lookup_alter.
  case_decide; [subst|done]. destruct (heap s !! x); simpl; [|done]. apply Hf.
Qed.

Lemma parent_of_set_parent e p s x :
  parent_of (upd_effect e (set_parent p) s) x
  = if decide (x = e) then heap s !! e ≫= λ _, p else parent_of s x.
Proof.
  unfold parent_of. simpl. rewrite lookup_alter.
  repeat case_decide; try congruence; subst. by destruct (heap s !! x).
Qed.

Lemma parent_of_cleanupEffect e s x :
  parent_of (cleanupEffect e s) x = parent_of s x.
Proof.
  unfold parent_of. rewrite cleanupEffect_heap, lookup_alter.
  case_decide; [subst|done]. by destruct (heap s !! x).
Qed.

Lemma parent_of_track t k s x : parent_of (track t k s) x = parent_of s x.
Proof.
  unfold parent_of. rewrite track_heap.
  destruct (activeEffect s), (shouldTrack s); try done.
  rewrite lookup_alter. case_decide; [subst|done]. by destruct (heap s !! x).
Qed.

Lemma is_Some_heap_alter f e (h : gmap eid ReactiveEffect) x :
  is_Some (alter f e h !! x) ↔ is_Some (h !! x).
Proof.
  rewrite lookup_alter. case_decide; [subst|done]. by rewrite fmap_is_Some.
Qed.

(** A step that keeps the sets, the lists, the links and the current effect
    keeps the invariant. *)
Lemma wf_frame s s' :
  targetMap s' = targetMap s →
  (∀ x, deps_of s' x = deps_of s x) →
  (∀ x, parent_of s' x = parent_of s x) →
  (∀ x, is_Some (heap s' !! x) ↔ is_Some (heap s !! x)) →
  activeEffect s' = activeEffect s →
  preserves_wf s s'.
Proof.
  intros Htm Hd Hp Hh Ha (Hc & Hact & Hpar). split; [|split].
  - intros t k e. unfold dep_at. rewrite Htm, Hd. apply Hc.
  - intros e. rewrite Ha, Hh. apply Hact.
  - intros x p. rewrite Hp, Hh. apply Hpar.
Qed.

Lemma consistent_cleanupEffect e s : consistent s → consistent (cleanupEffect e s).
Proof.
  intros Hc t k x. rewrite dep_at_cleanupEffect, deps_of_cleanupEffect.
  case_decide as Hin.
  - rewrite elem_of_dep_delete. intros [Hne Hx].
    rewrite decide_False by done. by apply Hc.
  - intros Hx. case_decide as Hxe; [subst; by apply Hc in Hx|]. by apply Hc.
Qed.

Lemma preserves_wf_cleanupEffect e s : preserves_wf s (cleanupEffect e s).
Proof.
  intros (Hc & Hact & Hpar). split; [by apply consistent_cleanupEffect|]. split.
  - intros x. rewrite cleanupEffect_activeEffect, cleanupEffect_heap,
      is_Some_heap_alter. apply Hact.
  - intros x p. rewrite parent_of_cleanupEffect, cleanupEffect_heap,
      is_Some_heap_alter. apply Hpar.
Qed.

Lemma deps_of_track t k s e x :
  shouldTrack s = true → activeEffect s = Some e → is_Some (heap s !! e) →
  deps_of (track t k s) x
  = if decide (x = e) then deps_of s e ++ [(t, k)] else deps_of s x.
Proof.
  intros Hs He [ef Hef]. unfold deps_of. rewrite track_heap, He, Hs, lookup_alter.
  repeat case_decide; try congruence; subst. by rewrite Hef.
Qed.

Lemma preserves_wf_track t k s : preserves_wf s (track t k s).
Proof.
  intros (Hc & Hact & Hpar).
  destruct (tracking s) eqn:Htr; [|by rewrite track_off].
  apply tracking_Some in Htr as (Hs & e & He).
  pose proof (Hact e He) as Hin. split; [|split].
  - intros t' k' x. rewrite dep_at_lookup, (dep_lookup_track t k s e) by done.
    rewrite (deps_of_track t k s e) by done.
    case_decide as Heq.
    + injection Heq as <- <-. simpl. rewrite elem_of_dep_add. intros [->|Hx].
      * rewrite decide_True by done. apply elem_of_app. right. by left.
      * case_decide; [subst; apply elem_of_app; left|]; by apply Hc.
    + intros Hx%Hc. case_decide; [subst; apply elem_of_app; by left | done].
  - intros x Hx. rewrite track_activeEffect in Hx.
    rewrite track_heap, He, Hs. apply is_Some_heap_alter. by apply Hact.
  - intros x p Hx. rewrite parent_of_track in Hx.
    rewrite track_heap, He, Hs. apply is_Some_heap_alter. by eapply Hpar.
Qed.

Lemma preserves_wf_run_prologue e s :
  is_Some (heap s !! e) → preserves_wf s (run_prologue e s).
Proof.
  intros Hin Hwf. unfold run_prologue.
  apply preserves_wf_cleanupEffect.
  destruct Hwf as (Hc & Hact & Hpar). split; [|split].
  - intros t k x Hx. unfold deps_of. simpl. rewrite deps_alter by done.
    by apply Hc.
  - simpl. intros x [= <-]. by apply is_Some_heap_alter.
  - intros x p. simpl.
    intros Hp. apply is_Some_heap_alter. revert Hp.
    change (parent_of (upd_effect e (set_parent (activeEffect s)) s) x = Some p
            → is_Some (heap s !! p)).
    rewrite parent_of_set_parent. case_decide.
    + destruct (heap s !! e); simpl; [apply Hact | done].
    + apply Hpar.
Qed.

Lemma preserves_wf_run_restore e s :
  is_Some (heap s !! e) → preserves_wf s (run_restore e s).
Proof.
  intros Hin (Hc & Hact & Hpar). split; [|split].
  - intros t k x Hx. unfold deps_of. simpl. rewrite deps_alter by done.
    by apply Hc.
  - simpl. intros x Hx. apply is_Some_heap_alter. by eapply Hpar.
  - intros x p. simpl. intros Hp. apply is_Some_heap_alter. revert Hp.
    change (parent_of (upd_effect e (set_parent None) s) x = Some p
            → is_Some (heap s !! p)).
    rewrite parent_of_set_parent. case_decide.
    + by destruct (heap s !! e).
    + apply Hpar.
Qed.

Lemma preserves_wf_respects : respects preserves_wf.
Proof.
  apply respects_stepwise; try apply _.
  - intros. by apply wf_frame.
  - intros e b s. apply wf_frame; try done.
    + intros x. by apply deps_of_upd_effect.
    + intros x. by apply parent_of_upd_effect.
    + intros x. apply is_Some_heap_alter.
  - intros e s. apply wf_frame; try done.
    + intros x. by apply deps_of_upd_effect.
    + intros x. by apply parent_of_upd_effect.
    + intros x. apply is_Some_heap_alter.
  - apply preserves_wf_cleanupEffect.
  - apply preserves_wf_track.
  - intros. by apply wf_frame.
  - intros. by apply wf_frame.
  - intros. by apply wf_frame.
  - apply preserves_wf_run_prologue.
  - apply preserves_wf_run_restore.
Qed.

(** The invariant holds across every call of the interpreter and of the
    engine. *)
Lemma exec_wf n p s o s' : wf s → exec n p s = Some (o, s') → wf s'.
Proof.
  intros Hwf H.
  by apply (exec_respects preserves_wf preserves_wf_respects n p s o s').
Qed.

Lemma run_wf n e s o s' : wf s → run (exec n) e s = Some (o, s') → wf s'.
Proof.
  intros Hwf H.
  by apply (run_respects preserves_wf preserves_wf_respects n e s o s').
Qed.

(** ** C6: the current effect across a run *)

Lemma bracket_app stk tr1 tr2 :
  bracket stk (tr1 ++ tr2) = bracket stk tr1 ≫= λ stk1, bracket stk1 tr2.
Proof.
  revert stk. induction tr1 as [|ev tr1 IH]; intros stk; [done|].
  destruct ev; simpl; try apply IH.
  - case_decide; [done | apply IH].
  - destruct stk as [|x stk]; [done|]. case_decide; [apply IH | done].
Qed.

Lemma bracket_app_Some stk tr1 tr2 stk' :
  bracket stk (tr1 ++ tr2) = Some stk' →
  ∃ stk1, bracket stk tr1 = Some stk1 ∧ bracket stk1 tr2 = Some stk'.
Proof.
  rewrite bracket_app. destruct (bracket stk tr1) as [stk1|]; [|done]. eauto.
Qed.

Lemma linked_ext b stk s s' :
  (∀ x, x ∈ stk → parent_of s' x = parent_of s x) →
  linked b stk s → linked b stk s'.
Proof.
  induction stk as [|e stk IH]; intros Hp; [done|]. simpl. intros [He Hl]. split.
  - rewrite Hp; [done | by left].
  - apply IH; [|done]. intros x Hx. apply Hp. by right.
Qed.

Lemma lifo_frame tr s s' :
  (∀ stk, bracket stk tr = Some stk) →
  activeEffect s' = activeEffect s →
  (∀ x, parent_of s' x = parent_of s x) →
  lifo tr s s'.
Proof.
  intros Hb Ha Hp b stk stk' Hbr _ [Hact Hl]. rewrite Hb in Hbr.
  injection Hbr as <-. split; [done|]. split.
  - split; [by rewrite Ha|]. eapply linked_ext; [|done]. intros x _. apply Hp.
  - intros x _. by rewrite Hp.
Qed.

Lemma lifo_refl s : lifo [] s s.
Proof. by apply lifo_frame. Qed.

Lemma lifo_trans tr1 tr2 s1 s2 s3 :
  lifo tr1 s1 s2 → lifo tr2 s2 s3 → lifo (tr1 ++ tr2) s1 s3.
Proof.
  intros H1 H2 b stk stk' (stk1 & Hb1 & Hb2)%bracket_app_Some Hnd Hch.
  destruct (H1 b stk stk1) as (-> & Hch2 & Hn1); [done..|].
  destruct (H2 b stk stk') as (-> & Hch3 & Hn2); [done..|].
  split; [done|]. split; [done|]. intros x Hx Hp. by apply Hn2, Hn1.
Qed.

#[global] Instance lifo_preorder : PreOrder (traced lifo).
Proof. apply traced_preorder; [apply lifo_refl | apply lifo_trans]. Qed.

Lemma lifo_plain ev s : plain ev = true → lifo [ev] s (log ev s).
Proof. intros Hev. apply lifo_frame; try done. intros stk. by destruct ev. Qed.

Lemma run_prologue_parent_of e s x :
  parent_of (run_prologue e s) x
  = if decide (x = e) then heap s !! e ≫= λ _, activeEffect s else parent_of s x.
Proof.
  unfold run_prologue. rewrite parent_of_cleanupEffect.
  apply (parent_of_set_parent e (activeEffect s) s x).
Qed.

Lemma run_restore_parent_of e s x :
  parent_of (run_restore e s) x = if decide (x = e) then None else parent_of s x.
Proof.
  unfold run_restore, parent_of. simpl. rewrite lookup_alter.
  repeat case_decide; try congruence; subst. by destruct (heap s !! x).
Qed.

Section LifoRun.
Context (call : prog → M) (Hcall : ∀ p, hoare (traced lifo) (call p)).

Lemma lifo_stop e : hoare (traced lifo) (stop call e).
Proof.
  apply hoare_stop; try apply _; try done.
  - intros ev s Hev. eapply traced_intro; [reflexivity | by apply lifo_plain].
  - intros e' b s. eapply traced_intro; [by rewrite app_nil_r|].
    apply lifo_frame; try done. intros x. by apply parent_of_upd_effect.
  - intros e' s. eapply traced_intro; [by rewrite app_nil_r|].
    apply lifo_frame; try done. intros x. by apply parent_of_upd_effect.
  - intros e' s. eapply traced_intro; [by rewrite cleanupEffect_trace, app_nil_r|].
    apply lifo_frame; try done.
    + apply cleanupEffect_activeEffect.
    + apply parent_of_cleanupEffect.
Qed.

(** What follows the restoration in the finally block. *)
Lemma lifo_after_restore e ef s o s' :
  (if deferStop ef then
     (stop call e >> lift (upd_effect e (set_deferStop false))) s
   else Some (Returned, s)) = Some (o, s') →
  traced lifo s s'.
Proof.
  destruct (deferStop ef).
  - apply hoare_seq; try apply _; [apply lifo_stop|].
    apply hoare_lift. intros s0. eapply traced_intro; [by rewrite app_nil_r|].
    apply lifo_frame; try done. intros x. by apply parent_of_upd_effect.
  - intros H. inversion H. reflexivity.
Qed.

Lemma run_active_lifo e s o s' :
  active_of s e = true → run call e s = Some (o, s') →
  traced (lifo_run e) s s'.
Proof.
  intros (ef & He & Ha)%active_of_Some Hrun.
  destruct (run_active_Some _ _ _ _ _ _ He Ha Hrun)
    as (o1 & s1 & Hfn & Hfin).
  apply Hcall in Hfn as (tr1 & Htr1 & H1).
  assert (∃ o2, run_epilogue call e s1 = Some (o2, s')) as [o2 Hepi]
    by (destruct Hfin as [[? _]|[? _]]; eauto).
  clear Hfin. unfold run_epilogue in Hepi.
  destruct (heap s1 !! e) as [ef1|] eqn:He1; [|done].
  apply lifo_after_restore in Hepi as (tr2 & Htr2 & H2).
  exists ([EvRunEnter e] ++ tr1 ++ [EvRunLeave e] ++ tr2). split.
  { rewrite Htr2. simpl. rewrite Htr1, run_prologue_trace.
    by rewrite <- !app_assoc. }
  intros b stk stk' Hbr Hnd [Hact Hl]. simpl in Hbr.
  destruct (decide (e ∈ stk)) as [|Hne]; [done|].
  apply bracket_app_Some in Hbr as (stk1 & Hb1 & Hb2).
  destruct (H1 b (e :: stk) stk1) as (-> & [Hact1 Hl1] & Hn1); [done| |split|].
  { by apply NoDup_cons. }
  { apply run_prologue_activeEffect. }
  { simpl. split.
    - rewrite run_prologue_parent_of, decide_True, He by done. simpl.
      by rewrite Hact.
    - eapply linked_ext; [|done]. intros x Hx.
      rewrite run_prologue_parent_of, decide_False; [done|]. by intros ->. }
  simpl in Hb2. rewrite decide_True in Hb2 by done.
  simpl in Hl1. destruct Hl1 as [Hpe Hl1].
  destruct (H2 b stk stk') as (-> & Hch2 & Hn2); [done..| |].
  { split.
    - simpl. unfold parent_of in Hpe |- *. by rewrite Hpe.
    - eapply linked_ext; [|done]. intros x Hx.
      rewrite run_restore_parent_of, decide_False; [done|]. by intros ->. }
  split; [done|]. split; [done|]. split.
  - intros x Hx Hp. apply Hn2; [done|]. rewrite run_restore_parent_of.
    case_decide as Hxe; [done|]. apply Hn1.
    + rewrite elem_of_cons. tauto.
    + by rewrite run_prologue_parent_of, decide_False.
  - apply Hn2; [done|]. by rewrite run_restore_parent_of, decide_True.
Qed.

Lemma lifo_run_rule e : hoare (traced lifo) (run call e).
Proof.
  intros s o s' Hrun. destruct (active_of s e) eqn:Ha.
  - apply run_active_lifo in Hrun as (tr & Htr & H); [|done].
    exists tr. split; [done|]. intros b stk stk' Hb Hnd Hch.
    destruct (H b stk stk' Hb Hnd Hch) as (? & ? & ? & _). eauto.
  - unfold run in Hrun. unfold active_of in Ha.
    destruct (heap s !! e) as [ef|]; [|done]. simpl in Ha. rewrite Ha in Hrun.
    simpl in Hrun. etrans; [|by eapply Hcall].
    eapply traced_intro; [reflexivity | by apply lifo_plain].
Qed.
End LifoRun.

Lemma lifo_respects : respects (traced lifo).
Proof.
  apply respects_traced; try apply lifo_refl; try apply lifo_trans.
  - apply lifo_plain.
  - intros. apply lifo_frame; try done. intros x. by apply parent_of_upd_effect.
  - intros. apply lifo_frame; try done. intros x. by apply parent_of_upd_effect.
  - intros. apply lifo_frame; try done.
    + apply cleanupEffect_activeEffect.
    + apply parent_of_cleanupEffect.
  - intros. apply lifo_frame; try done.
    + apply track_activeEffect.
    + apply parent_of_track.
  - intros. by apply lifo_frame.
  - intros. by apply lifo_frame.
  - intros. by apply lifo_frame.
  - apply lifo_run_rule.
Qed.

(** The histories of calls are properly nested unless a run is re-entrant. *)

Lemma bracket_running stk tr stk' :
  bracket stk tr = Some stk' → running stk tr = stk'.
Proof.
  revert stk. induction tr as [|ev tr IH]; intros stk; simpl.
  - by intros [= ->].
  - destruct ev; try apply IH.
    + case_decide; [done | apply IH].
    + destruct stk as [|x stk]; [done|]. case_decide; [apply IH | done].
Qed.

Lemma reentrant_app stk tr1 tr2 :
  reentrant stk (tr1 ++ tr2)
  = reentrant stk tr1 || reentrant (running stk tr1) tr2.
Proof.
  revert stk. induction tr1 as [|ev tr1 IH]; intros stk; [done|].
  destruct ev; simpl; try apply IH. by rewrite IH, orb_assoc.
Qed.

Lemma well_nested_nil s s' : well_nested [] s s'.
Proof. by intros stk _. Qed.

Lemma well_nested_refl s : well_nested [] s s.
Proof. apply well_nested_nil. Qed.

Lemma well_nested_trans tr1 tr2 s1 s2 s3 :
  well_nested tr1 s1 s2 → well_nested tr2 s2 s3 →
  well_nested (tr1 ++ tr2) s1 s3.
Proof.
  intros H1 H2 stk. rewrite reentrant_app, orb_false_iff. intros [Hr1 Hr2].
  rewrite bracket_app, (H1 stk Hr1). simpl. apply H2.
  by rewrite (bracket_running stk tr1 stk (H1 stk Hr1)) in Hr2.
Qed.

Lemma well_nested_flat tr s s' :
  (∀ stk, bracket stk tr = Some stk) → well_nested tr s s'.
Proof. intros H stk _. apply H. Qed.

#[global] Instance well_nested_preorder : PreOrder (traced well_nested).
Proof.
  apply traced_preorder; [apply well_nested_refl | apply well_nested_trans].
Qed.

Lemma well_nested_plain ev s s' : plain ev = true → well_nested [ev] s s'.
Proof. intros Hev. apply well_nested_flat. intros stk. by destruct ev. Qed.

Lemma well_nested_run call e :
  (∀ p, hoare (traced well_nested) (call p)) →
  hoare (traced well_nested) (run call e).
Proof.
  intros Hcall s o s' Hrun. destruct (active_of s e) eqn:Ha.
  - apply active_of_Some in Ha as (ef & He & Ha).
    destruct (run_active_Some _ _ _ _ _ _ He Ha Hrun)
      as (o1 & s1 & Hfn & Hfin).
    apply Hcall in Hfn as (tr1 & Htr1 & H1).
    assert (∃ o2, run_epilogue call e s1 = Some (o2, s')) as [o2 Hepi]
      by (destruct Hfin as [[? _]|[? _]]; eauto).
    clear Hfin. unfold run_epilogue in Hepi.
    destruct (heap s1 !! e) as [ef1|] eqn:He1; [|done].
    assert (traced well_nested (run_restore e s1) s') as (tr2 & Htr2 & H2).
    { revert Hepi. destruct (deferStop ef1).
      - apply hoare_seq; try apply _.
        + apply hoare_stop; try apply _; try done.
          * intros ev s0 Hev. eapply traced_intro; [reflexivity|].
            by apply well_nested_plain.
          * intros e' b s0. eapply traced_intro; [by rewrite app_nil_r|].
            apply well_nested_nil.
          * intros e' s0. eapply traced_intro; [by rewrite app_nil_r|].
            apply well_nested_nil.
          * intros e' s0.
            eapply traced_intro; [by rewrite cleanupEffect_trace, app_nil_r|].
            by apply well_nested_flat.
        + apply hoare_lift. intros s0.
          eapply traced_intro; [by rewrite app_nil_r|]. apply well_nested_nil.
      - intros H. inversion H. reflexivity. }
    exists ([EvRunEnter e] ++ tr1 ++ [EvRunLeave e] ++ tr2). split.
    { rewrite Htr2. simpl. rewrite Htr1, run_prologue_trace.
      by rewrite <- !app_assoc. }
    intros stk. simpl. rewrite orb_false_iff, bool_decide_eq_false.
    intros [Hne Hr]. rewrite decide_False by done.
    rewrite reentrant_app, orb_false_iff in Hr. destruct Hr as [Hr1 Hr2].
    rewrite bracket_app, (H1 _ Hr1). simpl. rewrite decide_True by done.
    apply H2. rewrite (bracket_running _ _ _ (H1 _ Hr1)) in Hr2. exact Hr2.
  - unfold run in Hrun. unfold active_of in Ha.
    destruct (heap s !! e) as [ef|]; [|done]. simpl in Ha. rewrite Ha in Hrun.
    simpl in Hrun. etrans; [|by eapply Hcall].
    eapply traced_intro; [reflexivity | by apply well_nested_plain].
Qed.

Lemma well_nested_respects : respects (traced well_nested).
Proof.
  apply respects_traced; try apply well_nested_refl;
    try apply well_nested_trans; try (intros; by apply well_nested_flat).
  - intros. by apply well_nested_plain.
  - intros call Hcall e. by apply well_nested_run.
Qed.

(** ** C2 and C7: stopping *)

Lemma state_eta s :
  mkState (targetMap s) (activeEffect s) (shouldTrack s) (heap s) (mem s)
          (trace s) = s.
Proof. by destruct s. Qed.

Lemma upd_effect_id e f s ef :
  heap s !! e = Some ef → f ef = ef → upd_effect e f s = s.
Proof.
  intros He Hf. unfold upd_effect.
  assert (alter f e (heap s) = heap s) as ->; [|apply state_eta].
  apply map_eq. intros x. rewrite lookup_alter.
  case_decide; [subst|done]. by rewrite He; simpl; rewrite Hf.
Qed.

Lemma cleanupEffect_nil e s ef :
  heap s !! e = Some ef → deps ef = [] → cleanupEffect e s = s.
Proof.
  intros He Hd. unfold cleanupEffect. rewrite He, Hd. simpl.
  rewrite <- (state_eta s) at 3. unfold upd_effect, set_targetMap. simpl.
  f_equal. apply map_eq. intros x. rewrite lookup_alter.
  case_decide; [subst|done]. rewrite He. simpl. f_equal.
  destruct ef. simpl in *. by subst.
Qed.

(** A stop that is not deferred: purge, callback, deactivation. *)
Lemma stop_not_current call e s ef :
  heap s !! e = Some ef → activeEffect s ≠ Some e →
  stop call e s
  = match onStop ef with
    | None => Some (Returned, stopped e (cleanupEffect e s))
    | Some p =>
        match call p (log (EvOnStop e) (cleanupEffect e s)) with
        | Some (Returned, s') => Some (Returned, stopped e s')
        | r => r
        end
    end.
Proof.
  intros He Ha. unfold stop. rewrite He. rewrite decide_False by done.
  unfold seq, lift, ret. simpl. destruct (onStop ef) as [p|]; [|done].
  by destruct (call p _) as [[[] s']|].
Qed.

(** ** C6: what the finally block restores *)

Lemma parent_follows_refl e s : parent_follows e [] s s.
Proof. unfold parent_follows. by rewrite bool_decide_eq_false_2 by apply not_elem_of_nil. Qed.

Lemma parent_follows_trans e tr1 tr2 s1 s2 s3 :
  parent_follows e tr1 s1 s2 → parent_follows e tr2 s2 s3 →
  parent_follows e (tr1 ++ tr2) s1 s3.
Proof.
  unfold parent_follows. intros H1 H2. rewrite H2, H1.
  destruct (decide (EvRunEnter e ∈ tr2)) as [Hin|Hout].
  - rewrite !bool_decide_eq_true_2; [done| |done]. apply elem_of_app. by right.
  - rewrite (bool_decide_eq_false_2 _ Hout).
    destruct (decide (EvRunEnter e ∈ tr1)) as [Hin1|Hout1].
    + rewrite !bool_decide_eq_true_2; [done| |done]. apply elem_of_app. by left.
    + rewrite !bool_decide_eq_false_2; [done| |done].
      rewrite elem_of_app. tauto.
Qed.

#[global] Instance parent_follows_preorder e : PreOrder (traced (parent_follows e)).
Proof.
  apply traced_preorder; [apply parent_follows_refl | apply parent_follows_trans].
Qed.

(** A step that records [ev], not the start of a run of [e], and keeps the
    parent link of [e]. *)
Lemma parent_follows_step e ev s s' :
  ev ≠ EvRunEnter e → parent_of s' e = parent_of s e →
  parent_follows e [ev] s s'.
Proof.
  intros Hev Hp. unfold parent_follows. rewrite Hp.
  rewrite bool_decide_eq_false_2; [done|].
  intros Hin%list_elem_of_singleton. by apply Hev.
Qed.

Lemma parent_follows_silent e s s' :
  parent_of s' e = parent_of s e → parent_follows e [] s s'.
Proof.
  intros Hp. unfold parent_follows. rewrite Hp.
  by rewrite bool_decide_eq_false_2 by apply not_elem_of_nil.
Qed.

Section ParentLink.
Context (e : eid) (call : prog → M).
Context (Hcall : ∀ p, hoare (traced (parent_follows e)) (call p)).

Lemma parent_follows_stop x : hoare (traced (parent_follows e)) (stop call x).
Proof.
  apply hoare_stop; try done.
  - apply _.
  - intros ev s Hev. eapply traced_intro; [reflexivity|].
    apply parent_follows_step; [by destruct ev | done].
  - intros y b s. eapply traced_intro; [by rewrite app_nil_r|].
    apply parent_follows_silent. by apply parent_of_upd_effect.
  - intros y s. eapply traced_intro; [by rewrite app_nil_r|].
    apply parent_follows_silent. by apply parent_of_upd_effect.
  - intros y s. eapply traced_intro; [by rewrite cleanupEffect_trace, app_nil_r|].
    apply parent_follows_silent. apply parent_of_cleanupEffect.
Qed.

(** What is left of the finally block when the current effect and the
    parent link have been restored. *)
Lemma parent_follows_after_restore x s1 o s' :
  run_epilogue call x s1 = Some (o, s') →
  traced (parent_follows e) (run_restore x s1) s'.
Proof.
  unfold run_epilogue. destruct (heap s1 !! x) as [ef1|]; [|done].
  destruct (deferStop ef1).
  - apply hoare_seq; [apply _ | apply parent_follows_stop |].
    apply hoare_lift. intros s0. eapply traced_intro; [by rewrite app_nil_r|].
    apply parent_follows_silent. by apply parent_of_upd_effect.
  - intros [= _ <-]. reflexivity.
Qed.

(** An active [run] of [e], in its parts. *)
Lemma run_active_parent s ef o s' :
  heap s !! e = Some ef → active ef = true →
  run call e s = Some (o, s') →
  ∃ o1 s1 tr1 tr2,
    call (fn ef) (run_prologue e s) = Some (o1, s1)
    ∧ trace s1 = trace s ++ EvRunEnter e :: tr1
    ∧ parent_of s1 e
      = (if bool_decide (EvRunEnter e ∈ tr1) then None else activeEffect s)
    ∧ (run_epilogue call e s1 = Some (Returned, s') ∧ o = o1
       ∨ run_epilogue call e s1 = Some (Threw, s') ∧ o = Threw)
    ∧ trace s' = trace s ++ EvRunEnter e :: tr1 ++ EvRunLeave e :: tr2
    ∧ parent_of s' e = None.
Proof.
  intros He Ha Hrun.
  destruct (run_active_Some _ _ _ _ _ _ He Ha Hrun)
    as (o1 & s1 & Hfn & Hfin).
  destruct (Hcall _ _ _ _ Hfn) as (tr1 & Htr1 & Hp1).
  assert (∃ o', run_epilogue call e s1 = Some (o', s')) as [o' Hepi]
    by (destruct Hfin as [[? _]|[? _]]; eauto).
  destruct (parent_follows_after_restore e s1 o' s' Hepi) as (tr2 & Htr2 & Hp2).
  exists o1, s1, tr1, tr2. split; [done|].
  rewrite run_prologue_trace, <- app_assoc in Htr1. split; [done|].
  split; [|split; [done|split]].
  - rewrite Hp1, run_prologue_parent_of, decide_True by done.
    by rewrite He.
  - rewrite Htr2. simpl. rewrite Htr1, <- !app_assoc. done.
  - rewrite Hp2, run_restore_parent_of, decide_True by done.
    by destruct (bool_decide _).
Qed.

Lemma parent_follows_run x : hoare (traced (parent_follows e)) (run call x).
Proof.
  intros s o s' Hrun.
  destruct (heap s !! x) as [ef|] eqn:Hx;
    [|by unfold run in Hrun; rewrite Hx in Hrun].
  destruct (active ef) eqn:Ha.
  - destruct (decide (x = e)) as [->|Hne].
    + destruct (run_active_parent s ef o s' Hx Ha Hrun)
        as (o1 & s1 & tr1 & tr2 & _ & _ & _ & _ & Htr & Hp).
      eapply traced_intro; [exact Htr|]. unfold parent_follows.
      rewrite Hp. rewrite bool_decide_eq_true_2; [done|]. by left.
    + assert (active_of s x = true) as Hact by (apply active_of_Some; eauto).
      trans (run_prologue x s).
      * apply (traced_intro _ [EvRunEnter x]); [apply run_prologue_trace|].
        apply parent_follows_step; [congruence|].
        rewrite run_prologue_parent_of. by rewrite decide_False.
      * eapply (run_after_prologue _ call x s o s'); try done.
        intros s1 o' s2 Hepi.
        trans (run_restore x s1); [|by eapply parent_follows_after_restore].
        apply (traced_intro _ [EvRunLeave x]); [done|].
        apply parent_follows_step; [done|].
        rewrite run_restore_parent_of. by rewrite decide_False.
  - unfold run in Hrun. rewrite Hx, Ha in Hrun. simpl in Hrun.
    trans (log (EvRunInactive x) s); [|by eapply Hcall].
    apply (traced_intro _ [EvRunInactive x]); [reflexivity|].
    by apply parent_follows_step.
Qed.
End ParentLink.

Lemma parent_follows_respects e : respects (traced (parent_follows e)).
Proof.
  apply respects_traced;
    [apply parent_follows_refl | apply parent_follows_trans | ..].
  - intros ev s Hev. apply parent_follows_step; [by destruct ev | done].
  - intros x b s. apply parent_follows_silent. by apply parent_of_upd_effect.
  - intros x s. apply parent_follows_silent. by apply parent_of_upd_effect.
  - intros x s. apply parent_follows_silent. apply parent_of_cleanupEffect.
  - intros t k s x _ _. apply parent_follows_step; [done|].
    apply parent_of_track.
  - intros s. by apply parent_follows_step.
  - intros s. by apply parent_follows_step.
  - intros m s. by apply parent_follows_silent.
  - intros call Hcall x. by apply parent_follows_run.
Qed.

(** C6 (as amended).  For an active [run] of [e], with [fn] having returned
    or thrown in a state [s1]: the parent link of [e] is cleared when the
    run is over; the finally block sets [activeEffect] to what it was when
    the run began if the try block of [run] was not entered again for [e]
    itself during the call of [fn], and to [None] otherwise, whatever runs
    of other effects took place; and [activeEffect] has this value when the
    run is over, unless a pending stop makes the finally block invoke
    [onStop] of [e], in which case it has the value that the callback
    leaves. *)
Theorem run_restores_activeEffect n e s ef o s' :
  heap s !! e = Some ef → active ef = true →
  run (exec n) e s = Some (o, s') →
  parent_of s' e = None
  ∧ ∃ o1 s1 tr1,
      exec n (fn ef) (run_prologue e s) = Some (o1, s1)
      ∧ trace s1 = trace s ++ EvRunEnter e :: tr1
      ∧ activeEffect (run_restore e s1)
        = (if bool_decide (EvRunEnter e ∈ tr1) then None else activeEffect s)
      ∧ match onStop ef with
        | Some p =>
            if deferStop_of s1 e
               && bool_decide (activeEffect (run_restore e s1) ≠ Some e)
            then ∃ o3 s3,
                exec n p (log (EvOnStop e) (cleanupEffect e (run_restore e s1)))
                = Some (o3, s3)
                ∧ activeEffect s' = activeEffect s3
            else activeEffect s' = activeEffect (run_restore e s1)
        | None => activeEffect s' = activeEffect (run_restore e s1)
        end.
Proof.
  intros He Ha Hrun.
  assert (∀ p, hoare (traced (parent_follows e)) (exec n p)) as Hcall
    by (intros p; apply exec_respects; [apply _ | apply parent_follows_respects]).
  destruct (run_active_parent e (exec n) Hcall s ef o s' He Ha Hrun)
    as (o1 & s1 & tr1 & tr2 & Hfn & Htr1 & Hp1 & Hepi & _ & Hp).
  split; [done|]. exists o1, s1, tr1. split; [done|]. split; [done|].
  split; [exact Hp1|].
  assert (∃ o', run_epilogue (exec n) e s1 = Some (o', s')) as [o' Hepi']
    by (destruct Hepi as [[? _]|[? _]]; eauto).
  clear Hepi. revert Hepi'. unfold run_epilogue, deferStop_of.
  pose proof (exec_respects same_static same_static_respects n _ _ _ _ Hfn e)
    as Hst.
  rewrite run_prologue_heap, !static_alter, He in Hst by done.
  destruct (heap s1 !! e) as [ef1|] eqn:He1; [|done]. simpl in Hst.
  assert (onStop ef1 = onStop ef) as Hon
    by (unfold static in Hst; by injection Hst as _ -> _ _).
  simpl. destruct (deferStop ef1) eqn:Hd; simpl.
  2:{ intros [= _ <-]. by destruct (onStop ef). }
  set (s2 := run_restore e s1).
  assert (heap s2 !! e = Some (set_parent None ef1)) as He2
    by (unfold s2; simpl; by rewrite lookup_alter_eq, He1).
  destruct (decide (activeEffect s2 ≠ Some e)) as [Hcur|Hcur].
  - rewrite (bool_decide_eq_true_2 _ Hcur).
    unfold seq. rewrite (stop_not_current (exec n) e s2 _ He2 Hcur). simpl.
    rewrite Hon. destruct (onStop ef) as [p|].
    + destruct (exec n p _) as [[[] s3]|] eqn:Hcb; [| |done].
      * intros [= _ <-]. eauto.
      * intros [= _ <-]. eauto.
    + intros [= _ <-]. simpl. by rewrite cleanupEffect_activeEffect.
  - rewrite (bool_decide_eq_false_2 _ Hcur). apply dec_stable in Hcur.
    unfold seq, stop. rewrite He2.
    rewrite decide_True by done. intros [= _ <-]. by destruct (onStop ef).
Qed.

(** C2 (as amended).  [stop] on a stopped effect that is not the current
    one purges its subscription list again (which changes nothing when the
    list is empty), invokes [onStop] once more when there is one, and leaves
    the effect inactive.  It changes nothing at all when there is no
    [onStop] and the list is empty. *)
Theorem stop_again call e s ef :
  heap s !! e = Some ef → active ef = false → activeEffect s ≠ Some e →
  stop call e s
  = match onStop ef with
    | None => Some (Returned, cleanupEffect e s)
    | Some p =>
        match call p (log (EvOnStop e) (cleanupEffect e s)) with
        | Some (Returned, s') => Some (Returned, stopped e s')
        | r => r
        end
    end
  ∧ (deps ef = [] → cleanupEffect e s = s)
  ∧ (deps ef = [] → onStop ef = None → stop call e s = Some (Returned, s)).
Proof.
  intros He Hina Ha.
  assert (stopped e (cleanupEffect e s) = cleanupEffect e s) as Hid.
  { eapply upd_effect_id.
    - rewrite cleanupEffect_heap, lookup_alter_eq, He. reflexivity.
    - destruct ef. simpl in *. by subst. }
  split_and!.
  - rewrite (stop_not_current _ _ _ ef) by done.
    destruct (onStop ef); [done|]. by rewrite Hid.
  - intros Hd. by eapply cleanupEffect_nil.
  - intros Hd Ho. rewrite (stop_not_current _ _ _ ef) by done.
    rewrite Ho, Hid. by rewrite (cleanupEffect_nil e s ef).
Qed.

Lemma active_of_stopped e s :
  is_Some (heap s !! e) → active_of (stopped e s) e = false.
Proof.
  intros [ef He]. unfold active_of, stopped. simpl.
  by rewrite lookup_alter_eq, He.
Qed.

Lemma deactivated_flags e s :
  is_Some (heap s !! e) →
  active_of (deactivated e s) e = false
  ∧ deferStop_of (deactivated e s) e = false.
Proof.
  intros [ef He]. unfold active_of, deferStop_of, deactivated, stopped. simpl.
  by rewrite !lookup_alter_eq, He.
Qed.

(** C7 (as amended).  [stop] on the current effect only records the request:
    the sets, the subscription lists, both globals and every [active] flag
    are as before.  When afterwards the call of [fn] of an active [run] of
    [e] ends in a state [s1] with the request pending, and the effect that
    the finally block restores as current is not [e] itself, the finally
    block, after the restoration, purges [e] from every set and invokes
    [onStop], with [e] as active as it was and the request still pending;
    when [onStop] returns (or there is none), it clears [active] and the
    request; when [onStop] throws, the exception leaves [run] at once, in
    the state in which the callback threw: neither [active] nor the request
    is cleared.  When the effect that the finally block restores is [e]
    itself, [stop] defers once more and the request is cleared: nothing is
    deactivated. *)
Theorem stop_of_current_is_deferred call e :
  (∀ s, is_Some (heap s !! e) → activeEffect s = Some e →
     ∃ s', stop call e s = Some (Returned, s')
       ∧ deferStop_of s' e = true
       ∧ targetMap s' = targetMap s
       ∧ activeEffect s' = activeEffect s
       ∧ shouldTrack s' = shouldTrack s
       ∧ (∀ x, deps_of s' x = deps_of s x)
       ∧ (∀ x, active_of s' x = active_of s x)
       ∧ trace s' = trace s ++ [EvDeferStop e])
  ∧ (∀ s ef o1 s1 ef1,
       heap s !! e = Some ef → active ef = true →
       call (fn ef) (run_prologue e s) = Some (o1, s1) →
       heap s1 !! e = Some ef1 → deferStop ef1 = true →
       parent ef1 ≠ Some e → consistent s1 →
       let s2 := cleanupEffect e (run_restore e s1) in
       (∀ t k, e ∉ dep_at s2 t k)
       ∧ deps_of s2 e = []
       ∧ run call e s
         = match onStop ef1 with
           | None => Some (o1, deactivated e s2)
           | Some p =>
               match call p (log (EvOnStop e) s2) with
               | Some (Returned, s3) => Some (o1, deactivated e s3)
               | r => r
               end
           end
       ∧ (∀ s3, is_Some (heap s3 !! e) →
            active_of (deactivated e s3) e = false
            ∧ deferStop_of (deactivated e s3) e = false)
       ∧ active_of s2 e = active ef1
       ∧ deferStop_of s2 e = true
       ∧ ∀ p s3, onStop ef1 = Some p →
           call p (log (EvOnStop e) s2) = Some (Threw, s3) →
           run call e s = Some (Threw, s3))
  ∧ (∀ s ef o1 s1 ef1,
       heap s !! e = Some ef → active ef = true →
       call (fn ef) (run_prologue e s) = Some (o1, s1) →
       heap s1 !! e = Some ef1 → deferStop ef1 = true →
       parent ef1 = Some e →
       run call e s
       = Some (o1, upd_effect e (set_deferStop false)
                     (upd_effect e (set_deferStop true)
                        (log (EvDeferStop e) (run_restore e s1))))).
Proof.
  split; [|split].
  - intros s [ef He] Ha. eexists. split.
    { unfold stop. rewrite He. by rewrite decide_True. }
    split_and!; try done.
    + unfold deferStop_of. simpl. by rewrite lookup_alter_eq, He.
    + intros x. unfold deps_of. simpl. by rewrite deps_alter.
    + intros x. unfold active_of. simpl. rewrite lookup_alter.
      case_decide; [subst|done]. by destruct (heap s !! x).
  - intros s ef o1 s1 ef1 He Hact Hfn He1 Hdef Hpar Hc s2. subst s2.
    assert (consistent (run_restore e s1)) as Hc'.
    { intros t k x Hx. unfold deps_of. simpl. rewrite deps_alter by done.
      by apply Hc. }
    assert (run call e s
            = match onStop ef1 with
              | None =>
                  Some (o1, deactivated e (cleanupEffect e (run_restore e s1)))
              | Some p =>
                  match call p (log (EvOnStop e)
                                  (cleanupEffect e (run_restore e s1))) with
                  | Some (Returned, s3) => Some (o1, deactivated e s3)
                  | r => r
                  end
              end) as Hrun.
    { unfold run. rewrite He, Hact. simpl. unfold try_finally. rewrite Hfn.
      unfold run_epilogue. rewrite He1, Hdef. unfold seq at 1.
      rewrite (stop_not_current call e (run_restore e s1) (set_parent None ef1)).
      * simpl. destruct (onStop ef1) as [p|]; [|done].
        by destruct (call p _) as [[[] s3]|].
      * simpl. by rewrite lookup_alter_eq, He1.
      * simpl. unfold parent_of. by rewrite He1. }
    split_and!.
    + intros t k. by apply cleanupEffect_purges.
    + rewrite deps_of_cleanupEffect. by rewrite decide_True.
    + exact Hrun.
    + apply deactivated_flags.
    + unfold active_of. rewrite cleanupEffect_heap. simpl.
      by rewrite !lookup_alter_eq, He1.
    + unfold deferStop_of. rewrite cleanupEffect_heap. simpl.
      by rewrite !lookup_alter_eq, He1.
    + intros p s3 Hon Hcb. by rewrite Hrun, Hon, Hcb.
  - intros s ef o1 s1 ef1 He Hact Hfn He1 Hdef Hpar.
    unfold run. rewrite He, Hact. simpl. unfold try_finally. rewrite Hfn.
    unfold run_epilogue. rewrite He1, Hdef. unfold seq, stop.
    assert (heap (run_restore e s1) !! e = Some (set_parent None ef1)) as ->
      by (simpl; by rewrite lookup_alter_eq, He1).
    assert (activeEffect (run_restore e s1) = Some e) as Ha
      by (simpl; unfold parent_of; by rewrite He1).
    by rewrite decide_True.
Qed.

(** ** Scenarios *)

Lemma wf_initial effects vars :
  (∀ e ef, (e, ef) ∈ effects → parent ef = None) → wf (initial effects vars).
Proof.
  intros Hp. split; [|split].
  - intros t k e. unfold dep_at. simpl. rewrite lookup_empty. simpl.
    by intros ?%elem_of_nil.
  - done.
  - intros x p. unfold parent_of. simpl.
    destruct (list_to_map effects !! x) as [ef|] eqn:Hx; [|done].
    apply elem_of_list_to_map_2 in Hx. simpl. by rewrite (Hp _ _ Hx).
Qed.

(** *** Truncation of an array (C1) *)

(** C1.  What [trigger(arr, SET, "length", 2, 5)] does: the keys looked up
    are ["length"], ["1"], ["2"] and ["3"]; with one subscriber at each of
    the indices 0 to 4, the subscribers of the indices 1, 2 and 3 are handed
    to notification and run, and the subscriber of index 4 is not. *)
Theorem truncation_5_to_2 :
  (∀ depsMap : KeyToDepMap,
     trigger_deps depsMap arr SET (KStr "length") (Some 2%Z) (Some 5%Z)
     = [depsMap !! KStr "length"; depsMap !! KStr "1";
        depsMap !! KStr "2"; depsMap !! KStr "3"])
  ∧ ∃ s1 s2,
      exec 12 subscribe_all s_array = Some (Returned, s1)
      ∧ (dep_at s1 arr (KStr "0"), dep_at s1 arr (KStr "1"),
         dep_at s1 arr (KStr "2"), dep_at s1 arr (KStr "3"),
         dep_at s1 arr (KStr "4"))
        = ([0], [1], [2], [3], [4])
      ∧ trigger_effects s1 arr SET (KStr "length") (Some 2%Z) (Some 5%Z)
        = [1; 2; 3]
      ∧ trigger (exec 12) arr SET (KStr "length") (Some 2%Z) (Some 5%Z) s1
        = Some (Returned, s2)
      ∧ trace s2
        = trace s1
          ++ [EvRunEnter 1; EvTrack 1 arr (KStr "1"); EvRunLeave 1;
              EvRunEnter 2; EvTrack 2 arr (KStr "2"); EvRunLeave 2;
              EvRunEnter 3; EvTrack 3 arr (KStr "3"); EvRunLeave 3].
Proof.
  split; [done|].
  eexists _, _. split; [vm_compute; reflexivity|].
  split; [vm_compute; reflexivity|].
  split; [vm_compute; reflexivity|].
  split; vm_compute; reflexivity.
Qed.

(** *** Stopping twice (C2) *)

(** C2, counterexample.  After [stop] has completed and the effect is
    inactive, a second [stop] invokes [onStop] a second time: the callback
    sets variable 1, which it only does when it has been invoked before. *)
Lemma stop_twice_fires_onStop_twice :
  ∃ s1 s2,
    stop (exec 3) 0 s_stop = Some (Returned, s1)
    ∧ s1 = s_stopped
    ∧ active_of s1 0 = false
    ∧ stop (exec 3) 0 s1 = Some (Returned, s2)
    ∧ mem s1 !! 1 = None
    ∧ mem s2 !! 1 = Some true
    ∧ trace s2 = [EvOnStop 0; EvOnStop 0]
    ∧ s2 ≠ s1.
Proof.
  eexists _, _. split; [by_compute|]. split; [by_compute|].
  split; [by_compute|]. split; [by_compute|]. split; [by_compute|].
  split; [by_compute|]. split; [by_compute|].
  intros H. apply (f_equal (λ s, mem s !! 1)) in H. vm_compute in H.
  discriminate.
Qed.

(** The stopped effect of [s_stopped] is stopped once more. *)
Lemma stop_again_witness :
  heap s_stopped !! 0 = Some stopped_effect
  ∧ active stopped_effect = false
  ∧ activeEffect s_stopped ≠ Some 0
  ∧ stop (exec 3) 0 s_stopped
    = match exec 3 counting (log (EvOnStop 0) (cleanupEffect 0 s_stopped)) with
      | Some (Returned, s') => Some (Returned, stopped 0 s')
      | r => r
      end
  ∧ cleanupEffect 0 s_stopped = s_stopped.
Proof.
  assert (heap s_stopped !! 0 = Some stopped_effect) as H1 by by_compute.
  assert (activeEffect s_stopped ≠ Some 0) as H3 by done.
  destruct (stop_again (exec 3) 0 s_stopped stopped_effect H1 eq_refl H3)
    as (Hstop & Hclean & _).
  split; [exact H1|]. split; [reflexivity|]. split; [exact H3|].
  split; [exact Hstop | exact (Hclean eq_refl)].
Defined.

(** *** Notification order (C3) *)

(** The order of notification of the two subscribers of [s_order]. *)
Lemma triggerEffects_computed_first_witness :
  (∀ e, e ∈ [0; 1] → is_Some (heap s_order !! e))
  ∧ ∃ order : list eid,
      triggerEffects (exec 5) [0; 1] s_order
      = for_each (triggerEffect (exec 5)) order s_order
      ∧ order ≡ₚ [0; 1]
      ∧ ∀ i j d p, order !! i = Some d → order !! j = Some p →
          computed_of s_order d = true → computed_of s_order p = false →
          i < j.
Proof.
  assert (∀ e, e ∈ [0; 1] → is_Some (heap s_order !! e)) as H.
  { intros e He. apply elem_of_cons in He as [->|He]; [eexists; by_compute|].
    apply list_elem_of_singleton in He as ->. eexists; by_compute. }
  split; [exact H|]. exact (triggerEffects_computed_first 5 [0; 1] s_order H).
Defined.

(** The derived effect is notified (its scheduler is invoked) before the
    plain effect runs. *)
Example derived_first :
  ∃ s', triggerEffects (exec 5) [0; 1] s_order = Some (Returned, s')
    ∧ trace s' = [EvScheduler 1; EvRunEnter 0; EvTrack 0 obj (KStr "x");
                  EvRunLeave 0].
Proof. eexists. split; by_compute. Qed.

(** *** A computation that writes what it reads (C4) *)



(** *** Branch pruning (C5) *)

Lemma wf_s_branch1 : wf s_branch1.
Proof.
  apply (exec_wf 10 first_run s_branch0 Returned); [|by_compute].
  apply wf_initial. intros e ef Hin.
  apply list_elem_of_singleton in Hin. by injection Hin as -> ->.
Qed.

(** The second run, on the other branch, drops the subscription to [a]. *)
Lemma run_discards_subscriptions_witness :
  consistent s_branch1
  ∧ heap s_branch1 !! 0 = Some branch_effect1
  ∧ active branch_effect1 = true
  ∧ dep_at s_branch1 obj (KStr "a") = [0]
  ∧ (∀ t k, 0 ∉ dep_at (run_prologue 0 s_branch1) t k)
  ∧ deps_of (run_prologue 0 s_branch1) 0 = []
  ∧ ∃ s' tr,
      run (exec 10) 0 s_branch1 = Some (Returned, s')
      ∧ trace s' = trace s_branch1 ++ tr
      ∧ (EvTrack 0 obj (KStr "a") ∉ tr)
      ∧ (0 ∉ trigger_effects s' obj SET (KStr "a") None None).
Proof.
  assert (consistent s_branch1) as H1 by apply wf_s_branch1.
  assert (heap s_branch1 !! 0 = Some branch_effect1) as H2 by by_compute.
  destruct (run_discards_subscriptions 10 0 s_branch1 branch_effect1 H1 H2 eq_refl)
    as (_ & Hpurge & Hdeps & Hafter).
  split; [exact H1|]. split; [exact H2|]. split; [reflexivity|].
  split; [by_compute|]. split; [exact Hpurge|]. split; [exact Hdeps|].
  eexists _, [EvRunEnter 0; EvTrack 0 obj (KStr "flag");
              EvTrack 0 obj (KStr "b"); EvRunLeave 0].
  split; [by_compute|]. split; [by_compute|].
  assert (EvTrack 0 obj (KStr "a")
          ∉ [EvRunEnter 0; EvTrack 0 obj (KStr "flag");
             EvTrack 0 obj (KStr "b"); EvRunLeave 0]) as Hn
    by decide_by_compute.
  split; [exact Hn|]. intros Hin. apply Hn.
  refine (proj2 (Hafter Returned _ _ _ _) obj (KStr "a") None None _ Hin);
    [by_compute | by_compute | done].
Defined.

(** *** Nested and re-entrant runs (C6) *)

(** C6, counterexample.  An active [run] of effect 1, started while effect 0
    is current, returns with no current effect at all: the nested run of
    effect 1 by itself overwrote its parent link. *)
Lemma reentrant_run_loses_current :
  active_of s_reentrant 1 = true
  ∧ activeEffect s_reentrant = Some 0
  ∧ ∃ s', run (exec 10) 1 s_reentrant = Some (Returned, s')
      ∧ activeEffect s' = None
      ∧ trace s' = trace s_reentrant
                   ++ [EvRunEnter 1; EvRunEnter 1; EvRunLeave 1; EvRunLeave 1].
Proof.
  split; [by_compute|]. split; [by_compute|].
  eexists. split; [by_compute|]. split; by_compute.
Qed.

(** The failing run of effect 1 gives the current effect back to effect 0;
    so does the run of effect 2, although effect 1 is run again while it is
    running during this run. *)
Lemma run_restores_activeEffect_witness :
  (run (exec 10) 1 s_nested = Some (Threw, s_nested_end)
   ∧ activeEffect s_nested = Some 0
   ∧ activeEffect s_nested_end = Some 0
   ∧ parent_of s_nested_end 1 = None)
  ∧ (run (exec 10) 2 s_harmless = Some (Returned, s_harmless_end)
     ∧ trace s_harmless_end
       = trace s_harmless
         ++ [EvRunEnter 2; EvRunEnter 1; EvRunEnter 1; EvRunLeave 1;
             EvRunLeave 1; EvRunLeave 2]
     ∧ activeEffect s_harmless = Some 0
     ∧ activeEffect s_harmless_end = Some 0
     ∧ parent_of s_harmless_end 2 = None).
Proof.
  split.
  - assert (run (exec 10) 1 s_nested = Some (Threw, s_nested_end)) as Hrun
      by by_compute.
    assert (heap s_nested !! 1
            = Some (new_effect (PTrack obj (KStr "y") PThrow) None None false))
      as He by by_compute.
    destruct (run_restores_activeEffect 10 1 s_nested _ Threw s_nested_end
                He eq_refl Hrun)
      as (Hp & o1 & s1 & tr1 & Hfn & Htr & Hres & Hexit).
    assert (exec 10 (PTrack obj (KStr "y") PThrow) (run_prologue 1 s_nested)
            = Some (Threw, s_nested_mid)) as Hmid by by_compute.
    cbn [fn onStop new_effect] in Hfn, Hexit. rewrite Hmid in Hfn.
    injection Hfn as <- <-.
    assert (trace s_nested_mid
            = trace s_nested ++ EvRunEnter 1 :: [EvTrack 1 obj (KStr "y")])
      as Htr' by by_compute.
    rewrite Htr' in Htr. apply app_inv_head in Htr. injection Htr as <-.
    split; [exact Hrun|]. split; [by_compute|]. split; [|exact Hp].
    rewrite Hexit, Hres. by_compute.
  - assert (run (exec 10) 2 s_harmless = Some (Returned, s_harmless_end)) as Hrun
      by by_compute.
    assert (heap s_harmless !! 2
            = Some (new_effect (PRun 1 PDone) None None false))
      as He by by_compute.
    destruct (run_restores_activeEffect 10 2 s_harmless _ Returned s_harmless_end
                He eq_refl Hrun)
      as (Hp & o1 & s1 & tr1 & Hfn & Htr & Hres & Hexit).
    assert (exec 10 (PRun 1 PDone) (run_prologue 2 s_harmless)
            = Some (Returned, s_harmless_mid)) as Hmid by by_compute.
    cbn [fn onStop new_effect] in Hfn, Hexit. rewrite Hmid in Hfn.
    injection Hfn as <- <-.
    assert (trace s_harmless_mid
            = trace s_harmless
              ++ EvRunEnter 2 :: [EvRunEnter 1; EvRunEnter 1; EvRunLeave 1;
                                  EvRunLeave 1])
      as Htr' by by_compute.
    rewrite Htr' in Htr. apply app_inv_head in Htr. injection Htr as <-.
    split; [exact Hrun|]. split; [by_compute|]. split; [by_compute|].
    split; [|exact Hp].
    rewrite Hexit, Hres. by_compute.
Defined.

(** A stop deferred during the run of effect 2 makes the finally block
    invoke [onStop]; the callback runs effect 1, which runs itself once
    more, and the run of effect 2 ends with the current effect that the
    callback leaves. *)
Example on_stop_callback_leaves_current :
  activeEffect s_callback = Some 0
  ∧ ∃ s', run (exec 10) 2 s_callback = Some (Returned, s')
      ∧ trace s' = trace s_callback
                   ++ [EvRunEnter 2; EvDeferStop 2; EvRunLeave 2; EvOnStop 2;
                       EvRunEnter 1; EvRunEnter 1; EvRunLeave 1; EvRunLeave 1]
      ∧ activeEffect s' = None
      ∧ parent_of s' 2 = None.
Proof.
  split; [by_compute|]. eexists. split; [by_compute|].
  split; [by_compute|]. split; by_compute.
Qed.

(** *** Deferred stop (C7) *)

(** C7, counterexample.  [stop] is called on the current effect (the request
    is recorded twice: by the call in [fn], and by the finally block of the
    inner run, which restores the effect itself as current); both runs
    complete, and the effect is still active, [onStop] was never invoked and
    no request is pending. *)
Lemma deferred_stop_lost :
  ∃ s', run (exec 12) 0 s_stop_inside = Some (Returned, s')
    ∧ trace s' = [EvRunEnter 0; EvRunEnter 0; EvDeferStop 0; EvRunLeave 0;
                  EvDeferStop 0; EvRunLeave 0]
    ∧ active_of s' 0 = true
    ∧ deferStop_of s' 0 = false
    ∧ activeEffect s' = None.
Proof.
  eexists. split; [by_compute|]. split; [by_compute|]. split; [by_compute|].
  split; by_compute.
Qed.

(** When [onStop] throws, the deferred stop is interrupted: the effect is
    purged, still active, and the request is still pending. *)
Example deferred_stop_callback_throws :
  ∃ s', run (exec 5) 0 s_deferred_throw = Some (Threw, s')
    ∧ trace s' = [EvRunEnter 0; EvTrack 0 obj (KStr "a"); EvDeferStop 0;
                  EvRunLeave 0; EvOnStop 0]
    ∧ dep_at s' obj (KStr "a") = []
    ∧ active_of s' 0 = true
    ∧ deferStop_of s' 0 = true.
Proof.
  eexists. split; [by_compute|]. split; [by_compute|]. split; [by_compute|].
  split; by_compute.
Qed.

Lemma wf_s_deferred_end : wf s_deferred_end.
Proof.
  apply (exec_wf 5 (fn stops_itself) (run_prologue 0 s_deferred) Returned);
    [|by_compute].
  apply preserves_wf_run_prologue; [eexists; by_compute|].
  apply wf_initial. intros e ef Hin.
  apply list_elem_of_singleton in Hin. by injection Hin as -> ->.
Qed.

(** The stop requested inside the run is carried out when the run is over. *)
Lemma stop_of_current_is_deferred_witness :
  (activeEffect s_deferred_mid = Some 0
   ∧ ∃ s', stop (exec 5) 0 s_deferred_mid = Some (Returned, s')
       ∧ deferStop_of s' 0 = true
       ∧ targetMap s' = targetMap s_deferred_mid
       ∧ (∀ x, active_of s' x = active_of s_deferred_mid x))
  ∧ (exec 5 (fn stops_itself) (run_prologue 0 s_deferred)
     = Some (Returned, s_deferred_end)
     ∧ heap s_deferred_end !! 0 = Some stops_itself_end
     ∧ consistent s_deferred_end
     ∧ ∃ s', run (exec 5) 0 s_deferred = Some (Returned, s')
         ∧ active_of s' 0 = false
         ∧ deferStop_of s' 0 = false
         ∧ dep_at s' obj (KStr "a") = []
         ∧ trace s' = [EvRunEnter 0; EvTrack 0 obj (KStr "a"); EvDeferStop 0;
                       EvRunLeave 0; EvOnStop 0]).
Proof.
  destruct (stop_of_current_is_deferred (exec 5) 0) as (Hnow & Hlater & _).
  split.
  - assert (activeEffect s_deferred_mid = Some 0) as Ha by by_compute.
    split; [exact Ha|].
    destruct (Hnow s_deferred_mid) as (s' & Hs & Hd & Ht & _ & _ & _ & Hact & _);
      [eexists; by_compute | exact Ha |].
    exists s'. split; [exact Hs|]. split; [exact Hd|]. split; [exact Ht|].
    exact Hact.
  - assert (exec 5 (fn stops_itself) (run_prologue 0 s_deferred)
            = Some (Returned, s_deferred_end)) as Hfn by by_compute.
    assert (heap s_deferred_end !! 0 = Some stops_itself_end) as He
      by by_compute.
    assert (consistent s_deferred_end) as Hc by apply wf_s_deferred_end.
    split; [exact Hfn|]. split; [exact He|]. split; [exact Hc|].
    destruct (Hlater s_deferred stops_itself Returned s_deferred_end
                stops_itself_end) as (_ & _ & Hrun & _);
      [by_compute | reflexivity | exact Hfn | exact He | reflexivity
      | discriminate | exact Hc |].
    eexists. split; [rewrite Hrun; by_compute|].
    split; [by_compute|]. split; [by_compute|]. split; by_compute.
Defined.

(** *** Tracking while paused (C10) *)

(** C10, counterexample.  An active [run] whose [fn] calls [pauseTracking]
    returns with tracking disabled. *)
Lemma run_may_leave_tracking_paused :
  let s := initial [(0, new_effect (PPauseTracking PDone) None None false)] [] in
  active_of s 0 = true
  ∧ ∃ s', run (exec 5) 0 s = Some (Returned, s') ∧ shouldTrack s' = false.
Proof.
  split; [by_compute|]. eexists. split; by_compute.
Qed.

(** The run started while tracking is paused ends with tracking enabled,
    and so does a run whose computation pauses tracking and enables it
    again. *)
Lemma run_enables_tracking_witness :
  (shouldTrack s_paused = false
   ∧ active_of s_paused 0 = true
   ∧ run (exec 5) 0 s_paused = Some (Returned, s_paused_end)
   ∧ trace s_paused_end
     = trace s_paused ++ [EvRunEnter 0; EvTrack 0 obj (KStr "x"); EvRunLeave 0]
   ∧ shouldTrack s_paused_end = true
   ∧ run (exec 5) 0 (set_shouldTrack true s_paused)
     = Some (Returned, s_paused_end))
  ∧ (active_of s_region 0 = true
     ∧ run (exec 6) 0 s_region = Some (Returned, s_region_end)
     ∧ trace s_region_end
       = trace s_region
         ++ [EvRunEnter 0; EvPause; EvReset; EvTrack 0 obj (KStr "y");
             EvRunLeave 0]
     ∧ shouldTrack s_region_end = true).
Proof.
  split.
  - assert (active_of s_paused 0 = true) as H1 by by_compute.
    assert (run (exec 5) 0 s_paused = Some (Returned, s_paused_end)) as H2
      by by_compute.
    assert (trace s_paused_end
            = trace s_paused
              ++ [EvRunEnter 0; EvTrack 0 obj (KStr "x"); EvRunLeave 0]) as H3
      by by_compute.
    destruct (run_enables_tracking 5 0 s_paused Returned s_paused_end _ H1 H2 H3)
      as (_ & Hon & Hany).
    split; [by_compute|]. split; [exact H1|]. split; [exact H2|].
    split; [exact H3|]. split; [|exact (Hany true)].
    apply (inj Some). rewrite <- Hon. reflexivity.
  - assert (active_of s_region 0 = true) as H1 by by_compute.
    assert (run (exec 6) 0 s_region = Some (Returned, s_region_end)) as H2
      by by_compute.
    assert (trace s_region_end
            = trace s_region
              ++ [EvRunEnter 0; EvPause; EvReset; EvTrack 0 obj (KStr "y");
                  EvRunLeave 0]) as H3
      by by_compute.
    destruct (run_enables_tracking 6 0 s_region Returned s_region_end _ H1 H2 H3)
      as (_ & Hon & _).
    split; [exact H1|]. split; [exact H2|]. split; [exact H3|].
    apply (inj Some). rewrite <- Hon. reflexivity.
Defined.

(** *** Reading and adding (C8, C9) *)

(** The read of slot [a] by effect 0, and the same read while tracking is
    paused. *)
Lemma track_contract_witness :
  shouldTrack (run_prologue 0 s_deferred) = true
  ∧ activeEffect (run_prologue 0 s_deferred) = Some 0
  ∧ dep_lookup (targetMap s_deferred_mid) obj (KStr "a") = Some [0]
  ∧ deps_of s_deferred_mid 0 = [(obj, KStr "a")]
  ∧ track obj (KStr "a") (pauseTracking (run_prologue 0 s_deferred))
    = pauseTracking (run_prologue 0 s_deferred).
Proof.
  assert (shouldTrack (run_prologue 0 s_deferred) = true) as H1 by by_compute.
  assert (activeEffect (run_prologue 0 s_deferred) = Some 0) as H2 by by_compute.
  destruct (track_contract obj (KStr "a") (run_prologue 0 s_deferred))
    as [_ Hon].
  destruct (Hon 0 H1 H2) as (_ & Hdep & _ & _ & _ & _ & Hdeps & _).
  destruct (track_contract obj (KStr "a")
              (pauseTracking (run_prologue 0 s_deferred))) as [Hoff _].
  split; [exact H1|]. split; [exact H2|].
  split; [unfold s_deferred_mid; rewrite Hdep; by_compute|].
  split; [unfold s_deferred_mid; rewrite Hdeps; [by_compute | eexists; by_compute]|].
  apply Hoff. left. by_compute.
Defined.

(** Adding index 7 to the array reaches the subscriber of ["length"]; adding
    [foo] to the object reaches the subscriber of the iteration key. *)
Lemma trigger_add_fanout_witness :
  isArray arr = true ∧ isIntegerKey (KStr "7") = true
  ∧ 0 ∈ dep_at s_fanout arr (KStr "length")
  ∧ 0 ∈ trigger_effects s_fanout arr ADD (KStr "7") None None
  ∧ isObject obj = true
  ∧ 1 ∈ dep_at s_fanout obj ITERATE_KEY
  ∧ 1 ∈ trigger_effects s_fanout obj ADD (KStr "foo") None None.
Proof.
  assert (0 ∈ dep_at s_fanout arr (KStr "length")) as H0 by decide_by_compute.
  assert (1 ∈ dep_at s_fanout obj ITERATE_KEY) as H1 by decide_by_compute.
  destruct (trigger_add_fanout (exec 5) arr (KStr "7") None None s_fanout)
    as (_ & _ & _ & Hlen & _).
  destruct (trigger_add_fanout (exec 5) obj (KStr "foo") None None s_fanout)
    as (_ & _ & _ & _ & Hiter).
  split; [reflexivity|]. split; [reflexivity|]. split; [exact H0|].
  split; [exact (Hlen eq_refl eq_refl 0 H0)|].
  split; [reflexivity|]. split; [exact H1|].
  apply Hiter; [|reflexivity | exact H1].
  intros [Ha _]. discriminate Ha.
Defined.


(** * Further properties of the engine *)

(** ** What a write notifies *)

Lemma elem_of_nil_inv {A} (l : list A) : (∀ x, x ∉ l) → l = [].
Proof.
  destruct l as [|a l]; [done|]. intros H. destruct (H a). by left.
Qed.

Lemma triggerEffects_nil call s : triggerEffects call [] s = Some (Returned, s).
Proof. reflexivity. Qed.

(** X1.  A write that is not an addition and does not shrink an array hands
    to notification exactly the subscribers of the key written; when there
    is none (in particular when the target was never read), [trigger]
    changes nothing. *)
Theorem trigger_exact_key call t ty k nv ov s :
  ty ≠ ADD →
  isArray t = false ∨ k ≠ KStr "length" ∨ length_range nv ov = [] →
  (∀ x, x ∈ trigger_effects s t ty k nv ov ↔ x ∈ dep_at s t k)
  ∧ ((∀ x, x ∉ dep_at s t k) →
     trigger call t ty k nv ov s = Some (Returned, s)).
Proof.
  intros Hty Hk.
  assert (∀ x, x ∈ trigger_effects s t ty k nv ov ↔ x ∈ dep_at s t k) as Hiff.
  { intros x. unfold trigger_effects.
    destruct (targetMap s !! t) as [depsMap|] eqn:Ht.
    - rewrite elem_of_collect, (elem_of_dep_at_Some _ _ _ _ _ Ht).
      assert (trigger_deps depsMap t ty k nv ov = [depsMap !! k]) as ->.
      { unfold trigger_deps. rewrite (bool_decide_eq_false_2 (ty = ADD)) by done.
        rewrite app_nil_r.
        destruct Hk as [-> | [Hk | ->]]; [done| |].
        - rewrite (bool_decide_eq_false_2 (k = KStr "length")) by done.
          by rewrite andb_false_r.
        - by destruct (isArray t && _). }
      split; intros (d & Hd & Hx); exists d; (split; [|done]).
      + by apply list_elem_of_singleton in Hd.
      + by apply list_elem_of_singleton.
    - by rewrite dep_at_None. }
  split; [done|]. intros Hnone. rewrite trigger_unfold.
  rewrite (elem_of_nil_inv (trigger_effects s t ty k nv ov)); [done|].
  intros x Hx. by apply (Hnone x), Hiff.
Qed.

Lemma trigger_exact_key_witness :
  (∀ x, x ∈ trigger_effects s_reads_end obj SET (KStr "b") None None
        ↔ x ∈ dep_at s_reads_end obj (KStr "b"))
  ∧ ((∀ x, x ∉ dep_at s_reads_end obj (KStr "b")) →
     trigger (exec 4) obj SET (KStr "b") None None s_reads_end
     = Some (Returned, s_reads_end)).
Proof.
  apply (trigger_exact_key (exec 4) obj SET (KStr "b") None None s_reads_end).
  - discriminate.
  - left. reflexivity.
Defined.

(** X2.  A write of ["length"] on an array that is not an addition, with the
    safe integers [n] and [o] as new and old value, hands to notification
    the subscribers of ["length"] and the subscribers of the keys [i - 1]
    for [n ≤ i < o], and no other effect. *)
Theorem trigger_length_window t ty n o s x :
  isArray t = true → ty ≠ ADD →
  safe_integer n → safe_integer o →
  x ∈ trigger_effects s t ty (KStr "length") (Some n) (Some o)
  ↔ x ∈ dep_at s t (KStr "length")
    ∨ ∃ i, (n ≤ i < o)%Z ∧ x ∈ dep_at s t (KStr (pretty (i - 1)%Z)).
Proof.
  intros Ha Hty _ _. unfold trigger_effects.
  destruct (targetMap s !! t) as [depsMap|] eqn:Ht.
  - rewrite elem_of_collect. unfold trigger_deps.
    rewrite Ha, (bool_decide_eq_false_2 (ty = ADD)) by done.
    rewrite bool_decide_eq_true_2 by done. simpl. rewrite app_nil_r. split.
    + intros (d & Hd & Hx). apply elem_of_cons in Hd as [Hd|Hd].
      * left. apply (elem_of_dep_at_Some _ _ _ _ _ Ht). eauto.
      * right. apply list_elem_of_fmap in Hd as (i & Hd & Hi).
        apply elem_of_seqZ in Hi. exists i. split; [lia|].
        apply (elem_of_dep_at_Some _ _ _ _ _ Ht). eauto.
    + intros [Hx | (i & Hi & Hx)];
        apply (elem_of_dep_at_Some _ _ _ _ _ Ht) in Hx as (d & Hd & Hx);
        exists d; (split; [|done]).
      * rewrite <- Hd. by left.
      * right. apply list_elem_of_fmap. exists i. split; [done|].
        apply elem_of_seqZ. lia.
  - rewrite elem_of_nil. split; [done|].
    intros [Hx | (i & _ & Hx)]; rewrite dep_at_None in Hx by done;
      by apply elem_of_nil in Hx.
Qed.

Lemma trigger_length_window_witness :
  3 ∈ trigger_effects s_indexed arr SET (KStr "length") (Some 2%Z) (Some 5%Z)
  ↔ 3 ∈ dep_at s_indexed arr (KStr "length")
    ∨ ∃ i, (2 ≤ i < 5)%Z ∧ 3 ∈ dep_at s_indexed arr (KStr (pretty (i - 1)%Z)).
Proof.
  apply (trigger_length_window arr SET 2%Z 5%Z s_indexed 3).
  - reflexivity.
  - discriminate.
  - unfold safe_integer. lia.
  - unfold safe_integer. lia.
Defined.

(** ** [cleanupEffect] *)

(** X3.  [cleanupEffect(e)] touches only [e]: every other effect keeps its
    memberships and its object, no set is created or dropped, the
    subscription list of [e] is empty afterwards and, in a consistent store,
    [e] belongs to no set; cleaning up twice is cleaning up once. *)
Theorem cleanupEffect_removes_only_self e s :
  (∀ x t k, x ≠ e →
     (x ∈ dep_at (cleanupEffect e s) t k ↔ x ∈ dep_at s t k))
  ∧ (∀ x, x ≠ e → heap (cleanupEffect e s) !! x = heap s !! x)
  ∧ deps_of (cleanupEffect e s) e = []
  ∧ (∀ t k, is_Some (dep_lookup (targetMap (cleanupEffect e s)) t k)
            ↔ is_Some (dep_lookup (targetMap s) t k))
  ∧ (consistent s → ∀ t k, e ∉ dep_at (cleanupEffect e s) t k)
  ∧ cleanupEffect e (cleanupEffect e s) = cleanupEffect e s.
Proof.
  split_and!.
  - intros x t k Hx. rewrite dep_at_cleanupEffect. case_decide; [|done].
    rewrite elem_of_dep_delete. tauto.
  - intros x Hx. rewrite cleanupEffect_heap. by apply lookup_alter_ne.
  - rewrite deps_of_cleanupEffect. by rewrite decide_True.
  - intros t k. rewrite cleanupEffect_targetMap, dep_lookup_foldl_delete.
    case_decide; [|done]. by rewrite fmap_is_Some.
  - intros Hc t k. by apply cleanupEffect_purges.
  - destruct (heap s !! e) as [ef|] eqn:He.
    + apply (cleanupEffect_nil e _ (set_deps [] ef)); [|done].
      by rewrite cleanupEffect_heap, lookup_alter_eq, He.
    + unfold cleanupEffect at 2. by rewrite He.
Qed.

(** ** The invariant of the store, both ways *)

#[global] Instance keeps_invariant_preorder : PreOrder keeps_invariant.
Proof. split; unfold keeps_invariant; [by intros s | intros s1 s2 s3; tauto]. Qed.

Lemma recorded_frame s s' :
  targetMap s' = targetMap s → (∀ x, deps_of s' x = deps_of s x) →
  recorded s → recorded s'.
Proof. intros Htm Hd Hr t k e. unfold dep_at. rewrite Htm, Hd. apply Hr. Qed.

Lemma recorded_cleanupEffect e s : recorded s → recorded (cleanupEffect e s).
Proof.
  intros Hr t k x. rewrite deps_of_cleanupEffect, dep_at_cleanupEffect.
  case_decide as Hx; [by intros ?%elem_of_nil|]. intros Hin%Hr.
  case_decide; [|done]. by apply elem_of_dep_delete.
Qed.

Lemma recorded_track t k s : wf s → recorded s → recorded (track t k s).
Proof.
  intros (_ & Hact & _) Hr.
  destruct (tracking s) eqn:Htr; [|by rewrite track_off].
  apply tracking_Some in Htr as (Hs & e & He).
  pose proof (Hact e He) as Hin. intros t' k' x.
  rewrite dep_at_lookup, (dep_lookup_track t k s e) by done.
  rewrite (deps_of_track t k s e) by done.
  destruct (decide (x = e)) as [->|Hx];
    destruct (decide ((t, k) = (t', k'))) as [Heq|Hne]; simpl.
  - intros _. apply elem_of_dep_add. by left.
  - rewrite elem_of_app, list_elem_of_singleton. intros [Hd|Hd]; [|congruence].
    by apply Hr.
  - injection Heq as <- <-. intros Hd%Hr. apply elem_of_dep_add. by right.
  - apply Hr.
Qed.

Lemma keeps_invariant_frame s s' :
  targetMap s' = targetMap s →
  (∀ x, deps_of s' x = deps_of s x) →
  (∀ x, parent_of s' x = parent_of s x) →
  (∀ x, is_Some (heap s' !! x) ↔ is_Some (heap s !! x)) →
  activeEffect s' = activeEffect s →
  keeps_invariant s s'.
Proof.
  intros Htm Hd Hp Hh Ha [Hwf Hr]. split.
  - by apply (wf_frame s s').
  - by apply (recorded_frame s s').
Qed.

Lemma keeps_invariant_respects : respects keeps_invariant.
Proof.
  apply respects_stepwise; try apply _.
  - intros. by apply keeps_invariant_frame.
  - intros e b s. apply keeps_invariant_frame; try done.
    + intros x. by apply deps_of_upd_effect.
    + intros x. by apply parent_of_upd_effect.
    + intros x. apply is_Some_heap_alter.
  - intros e s. apply keeps_invariant_frame; try done.
    + intros x. by apply deps_of_upd_effect.
    + intros x. by apply parent_of_upd_effect.
    + intros x. apply is_Some_heap_alter.
  - intros e s [Hwf Hr]. split.
    + by apply preserves_wf_cleanupEffect.
    + by apply recorded_cleanupEffect.
  - intros t k s [Hwf Hr]. split.
    + by apply preserves_wf_track.
    + by apply recorded_track.
  - intros. by apply keeps_invariant_frame.
  - intros. by apply keeps_invariant_frame.
  - intros. by apply keeps_invariant_frame.
  - intros e s He [Hwf Hr]. split.
    + by apply preserves_wf_run_prologue.
    + unfold run_prologue. apply recorded_cleanupEffect.
      eapply recorded_frame; [| |exact Hr]; [done|].
      intros x. unfold deps_of. simpl. by rewrite deps_alter.
  - intros e s He [Hwf Hr]. split.
    + by apply preserves_wf_run_restore.
    + eapply recorded_frame; [| |exact Hr]; [done|].
      intros x. unfold deps_of. simpl. by rewrite deps_alter.
Qed.

Lemma store_invariant_initial effects vars :
  (∀ e ef, (e, ef) ∈ effects → parent ef = None ∧ deps ef = []) →
  store_invariant (initial effects vars).
Proof.
  intros H. split.
  - apply wf_initial. intros e ef Hin. by apply (H e ef).
  - intros t k e. unfold deps_of. simpl.
    destruct (list_to_map effects !! e) as [ef|] eqn:Hx; simpl;
      [|by intros ?%elem_of_nil].
    apply elem_of_list_to_map_2 in Hx. destruct (H _ _ Hx) as [_ ->].
    by intros ?%elem_of_nil.
Qed.

Lemma store_invariant_s_reads : store_invariant s_reads.
Proof.
  apply store_invariant_initial. intros e ef Hin.
  apply elem_of_cons in Hin as [[= -> ->]|Hin]; [done|].
  apply elem_of_cons in Hin as [[= -> ->]|Hin]; [done|].
  by apply elem_of_nil in Hin.
Qed.

Lemma run_s_reads : run (exec 3) 0 s_reads = Some (Returned, s_reads_end).
Proof. by_compute. Qed.

Lemma store_invariant_s_reads_end : store_invariant s_reads_end.
Proof.
  apply (run_respects keeps_invariant keeps_invariant_respects
           3 0 s_reads Returned s_reads_end run_s_reads).
  apply store_invariant_s_reads.
Qed.

(** X4.  Across every script of calls, and across [run], [stop] and
    [trigger], the store keeps its invariant: an effect is a member of a
    dependency set exactly when its subscription list names the set, and
    [activeEffect] and the parent links denote effect objects. *)
Theorem store_invariant_preserved n s o s' :
  store_invariant s →
  (∀ p, exec n p s = Some (o, s') → store_invariant s')
  ∧ (∀ e, run (exec n) e s = Some (o, s') → store_invariant s')
  ∧ (∀ e, stop (exec n) e s = Some (o, s') → store_invariant s')
  ∧ (∀ t ty k nv ov,
       trigger (exec n) t ty k nv ov s = Some (o, s') → store_invariant s').
Proof.
  intros Hinv. split_and!.
  - intros p H.
    by apply (exec_respects keeps_invariant keeps_invariant_respects n p s o s').
  - intros e H.
    by apply (run_respects keeps_invariant keeps_invariant_respects n e s o s').
  - intros e H.
    by apply (stop_respects keeps_invariant keeps_invariant_respects n e s o s').
  - intros t ty k nv ov H.
    by apply (trigger_respects keeps_invariant keeps_invariant_respects
                n t ty k nv ov s o s').
Qed.

Lemma store_invariant_preserved_witness :
  store_invariant s_reads
  ∧ run (exec 3) 0 s_reads = Some (Returned, s_reads_end)
  ∧ store_invariant s_reads_end.
Proof.
  split; [apply store_invariant_s_reads|]. split; [by_compute|].
  refine (proj1 (proj2 (store_invariant_preserved 3 s_reads Returned s_reads_end
                          store_invariant_s_reads)) 0 _).
  by_compute.
Defined.

(** ** Stopped effects *)

Lemma active_alter f e (h : gmap eid ReactiveEffect) x :
  (∀ ef, active ef = false → active (f ef) = false) →
  default false (active <$> h !! x) = false →
  default false (active <$> alter f e h !! x) = false.
Proof.
  intros Hf. rewrite lookup_alter. case_decide; [subst|done].
  destruct (h !! x); simpl; [|done]. apply Hf.
Qed.

#[global] Instance stays_stopped_preorder : PreOrder stays_stopped.
Proof. split; unfold stays_stopped; [by intros s | intros s1 s2 s3; auto]. Qed.

Lemma stays_stopped_heap s s' : heap s' = heap s → stays_stopped s s'.
Proof. intros H e. unfold active_of. by rewrite H. Qed.

Lemma stays_stopped_alter f e s s' :
  (∀ ef, active ef = false → active (f ef) = false) →
  heap s' = alter f e (heap s) → stays_stopped s s'.
Proof. intros Hf H x. unfold active_of. rewrite H. by apply active_alter. Qed.

Lemma stays_stopped_respects : respects stays_stopped.
Proof.
  apply respects_stepwise; try apply _.
  - intros. by apply stays_stopped_heap.
  - intros. eapply stays_stopped_alter; [|reflexivity]. done.
  - intros. eapply stays_stopped_alter; [|reflexivity]. done.
  - intros. eapply stays_stopped_alter; [|apply cleanupEffect_heap]. done.
  - intros t k s x. unfold active_of. rewrite track_heap.
    destruct (activeEffect s), (shouldTrack s); try done.
    intros H. by apply active_alter.
  - intros. by apply stays_stopped_heap.
  - intros. by apply stays_stopped_heap.
  - intros. by apply stays_stopped_heap.
  - intros e s _ x. unfold active_of. rewrite run_prologue_heap.
    intros H. apply active_alter; [done|]. by apply active_alter.
  - intros. eapply stays_stopped_alter; [|apply run_restore_heap]. done.
Qed.

Lemma cleanupEffect_removes_only_self_witness :
  consistent s_reads_end
  ∧ ∀ t k, 0 ∉ dep_at (cleanupEffect 0 s_reads_end) t k.
Proof.
  assert (consistent s_reads_end) as H by apply store_invariant_s_reads_end.
  split; [exact H|].
  exact (proj1 (proj2 (proj2 (proj2 (proj2
           (cleanupEffect_removes_only_self 0 s_reads_end))))) H).
Defined.

(** X5.  No call removes an effect object, replaces the [fn], [scheduler]
    or [onStop] closure or the [computed] mark of one, or makes a stopped
    effect active again. *)
Theorem calls_never_revive n p s o s' :
  exec n p s = Some (o, s') →
  ∀ e ef, heap s !! e = Some ef →
    ∃ ef', heap s' !! e = Some ef'
      ∧ fn ef' = fn ef ∧ scheduler ef' = scheduler ef
      ∧ onStop ef' = onStop ef ∧ computed ef' = computed ef
      ∧ (active ef = false → active ef' = false).
Proof.
  intros H e ef He.
  pose proof (exec_respects same_static same_static_respects n p s o s' H e)
    as Hst.
  pose proof (exec_respects stays_stopped stays_stopped_respects n p s o s' H e)
    as Hact.
  unfold active_of in Hact. rewrite He in Hst, Hact.
  destruct (heap s' !! e) as [ef'|]; [|done]. simpl in *.
  exists ef'. split; [done|]. unfold static in Hst.
  injection Hst as -> -> -> ->. done.
Qed.

Lemma calls_never_revive_witness :
  ∃ ef', heap s_reads_final !! 0 = Some ef'
    ∧ fn ef' = reads two_reads PDone ∧ scheduler ef' = None
    ∧ onStop ef' = None ∧ computed ef' = false
    ∧ active ef' = false.
Proof.
  destruct (calls_never_revive 8 after_stop s_reads_stopped Returned
              s_reads_final)
    with (e := 0)
         (ef := mkEffect false [] None false false None
                         (reads two_reads PDone) None)
    as (ef' & He & Hfn & Hs & Hon & Hc & Ha).
  - by_compute.
  - by_compute.
  - exists ef'. split; [exact He|]. split; [exact Hfn|]. split; [exact Hs|].
    split; [exact Hon|]. split; [exact Hc|]. by apply Ha.
Defined.

Lemma retired_frame e s s' :
  targetMap s' = targetMap s → activeEffect s' = activeEffect s →
  heap s' = heap s → retired e s → retired e s'.
Proof.
  intros Htm Ha Hh. unfold retired, active_of, parent_of, dep_at.
  by rewrite Htm, Ha, Hh.
Qed.

Lemma retired_upd_effect x f e s :
  (∀ ef, parent (f ef) = parent ef) →
  (∀ ef, active ef = false → active (f ef) = false) →
  retired e s → retired e (upd_effect x f s).
Proof.
  intros Hp Ha (H1 & H2 & H3 & H4). split_and!; [|done| |done].
  - unfold active_of. simpl. by apply active_alter.
  - intros y. by rewrite parent_of_upd_effect.
Qed.

Lemma retired_cleanupEffect x e s : retired e s → retired e (cleanupEffect x s).
Proof.
  intros (H1 & H2 & H3 & H4). split_and!.
  - unfold active_of. rewrite cleanupEffect_heap. by apply active_alter.
  - by rewrite cleanupEffect_activeEffect.
  - intros y. by rewrite parent_of_cleanupEffect.
  - intros t k. rewrite dep_at_cleanupEffect. case_decide; [|done].
    rewrite elem_of_dep_delete. intros [_ ?]. by apply (H4 t k).
Qed.

Lemma retired_track t k e s : retired e s → retired e (track t k s).
Proof.
  intros (H1 & H2 & H3 & H4).
  destruct (tracking s) eqn:Htr; [|by rewrite track_off].
  apply tracking_Some in Htr as (Hs & x & Hx).
  split_and!.
  - unfold active_of. rewrite track_heap, Hx, Hs. by apply active_alter.
  - by rewrite track_activeEffect.
  - intros y. by rewrite parent_of_track.
  - intros t' k'. rewrite dep_at_lookup, (dep_lookup_track t k s x) by done.
    case_decide; [|rewrite <- dep_at_lookup; apply H4]. simpl.
    rewrite elem_of_dep_add. intros [->|Hin]; [congruence|]. by apply (H4 t k).
Qed.

Lemma retired_run_prologue x e s :
  active_of s x = true → retired e s → retired e (run_prologue x s).
Proof.
  intros Hx (H1 & H2 & H3 & H4).
  assert (x ≠ e) as Hne by (intros ->; congruence).
  split_and!.
  - unfold active_of. rewrite run_prologue_heap.
    apply active_alter; [done|]. by apply active_alter.
  - rewrite run_prologue_activeEffect. congruence.
  - intros y. rewrite run_prologue_parent_of. case_decide; [|apply H3].
    destruct (heap s !! x); simpl; [done|discriminate].
  - intros t k. rewrite run_prologue_dep_at. case_decide; [|apply H4].
    rewrite elem_of_dep_delete. intros [_ ?]. by apply (H4 t k).
Qed.

Lemma retired_run_restore x e s : retired e s → retired e (run_restore x s).
Proof.
  intros (H1 & H2 & H3 & H4). split_and!.
  - unfold active_of. rewrite run_restore_heap. by apply active_alter.
  - apply H3.
  - intros y. rewrite run_restore_parent_of. case_decide; [done|apply H3].
  - done.
Qed.

Lemma stays_retired_refl e s : stays_retired e [] s s.
Proof.
  intros H. split; [done|]. split; [|intros t k]; by intros ?%elem_of_nil.
Qed.

Lemma stays_retired_trans e tr1 tr2 s1 s2 s3 :
  stays_retired e tr1 s1 s2 → stays_retired e tr2 s2 s3 →
  stays_retired e (tr1 ++ tr2) s1 s3.
Proof.
  intros H12 H23 H1. destruct (H12 H1) as (H2 & Ha & Hb).
  destruct (H23 H2) as (H3 & Hc & Hd). split; [done|].
  split.
  - rewrite elem_of_app. intros [?|?]; [by apply Ha | by apply Hc].
  - intros t k. rewrite elem_of_app.
    intros [?|?]; [by apply (Hb t k) | by apply (Hd t k)].
Qed.

Lemma stays_retired_only e tr s s' :
  EvRunEnter e ∉ tr → (∀ t k, EvTrack e t k ∉ tr) →
  (retired e s → retired e s') → stays_retired e tr s s'.
Proof. intros Ha Hb H Hr. by split; [apply H|]. Qed.

#[global] Instance stays_retired_preorder e : PreOrder (traced (stays_retired e)).
Proof.
  apply traced_preorder; [apply stays_retired_refl | apply stays_retired_trans].
Qed.

Lemma stays_retired_respects e : respects (traced (stays_retired e)).
Proof.
  assert (∀ ev s, plain ev = true →
            stays_retired e [ev] s (log ev s)) as Hlog.
  { intros ev s Hev. apply stays_retired_only.
    - intros Hin%list_elem_of_singleton. by subst.
    - intros t k Hin%list_elem_of_singleton. by subst.
    - by apply retired_frame. }
  assert (∀ x b s, stays_retired e [] s (upd_effect x (set_deferStop b) s))
    as Hdefer.
  { intros x b s. apply stays_retired_only;
      [by intros ?%elem_of_nil | by intros t k ?%elem_of_nil|].
    by apply retired_upd_effect. }
  assert (∀ x s, stays_retired e [] s (upd_effect x (set_active false) s))
    as Hinact.
  { intros x s. apply stays_retired_only;
      [by intros ?%elem_of_nil | by intros t k ?%elem_of_nil|].
    by apply retired_upd_effect. }
  assert (∀ x s, stays_retired e [] s (cleanupEffect x s)) as Hclean.
  { intros x s. apply stays_retired_only;
      [by intros ?%elem_of_nil | by intros t k ?%elem_of_nil|].
    apply retired_cleanupEffect. }
  apply respects_traced; try done.
  - apply stays_retired_refl.
  - apply stays_retired_trans.
  - intros t k s x Hx Hs Hr. split; [by apply retired_track|].
    destruct Hr as (_ & Hcur & _).
    split; [|intros t' k']; intros Hin%list_elem_of_singleton;
      [done | congruence].
  - intros s. apply stays_retired_only.
    + intros Hin%list_elem_of_singleton. done.
    + intros t k Hin%list_elem_of_singleton. done.
    + by apply retired_frame.
  - intros s. apply stays_retired_only.
    + intros Hin%list_elem_of_singleton. done.
    + intros t k Hin%list_elem_of_singleton. done.
    + by apply retired_frame.
  - intros m s. apply stays_retired_only;
      [by intros ?%elem_of_nil | by intros t k ?%elem_of_nil|].
    by apply retired_frame.
  - intros call Hcall x s o s' Hrun.
    destruct (heap s !! x) as [ef|] eqn:Hx;
      [|by unfold run in Hrun; rewrite Hx in Hrun].
    destruct (active ef) eqn:Ha.
    + assert (active_of s x = true) as Hact
        by (apply active_of_Some; eauto).
      trans (run_prologue x s).
      * apply (traced_intro _ [EvRunEnter x]); [apply run_prologue_trace|].
        intros Hr. split; [by apply retired_run_prologue|].
        destruct Hr as (Hoff & _).
        split; [|intros t k]; intros Hin%list_elem_of_singleton;
          [|done]. injection Hin as ->. congruence.
      * eapply (run_after_prologue _ call x s o s'); try done.
        apply hoare_run_epilogue; try done.
        -- apply _.
        -- intros ev s0 Hev. eapply traced_intro; [reflexivity|by apply Hlog].
        -- intros x0 b s0. eapply traced_intro; [|apply Hdefer].
           by rewrite app_nil_r.
        -- intros x0 s0. eapply traced_intro; [|apply Hinact].
           by rewrite app_nil_r.
        -- intros x0 s0. eapply traced_intro; [|apply Hclean].
           by rewrite cleanupEffect_trace, app_nil_r.
        -- intros s0 _. apply (traced_intro _ [EvRunLeave x]); [done|].
           apply stays_retired_only.
           ++ intros Hin%list_elem_of_singleton. done.
           ++ intros t k Hin%list_elem_of_singleton. done.
           ++ apply retired_run_restore.
    + unfold run in Hrun. rewrite Hx, Ha in Hrun. simpl in Hrun.
      trans (log (EvRunInactive x) s).
      * apply (traced_intro _ [EvRunInactive x]); [reflexivity|].
        by apply Hlog.
      * by eapply Hcall.
Qed.

Lemma elem_of_trigger_effects_dep_at s t ty k nv ov x :
  x ∈ trigger_effects s t ty k nv ov → ∃ k', x ∈ dep_at s t k'.
Proof.
  unfold trigger_effects.
  destruct (targetMap s !! t) as [depsMap|] eqn:Ht; [|by intros ?%elem_of_nil].
  rewrite elem_of_collect. intros (d & Hd & Hx).
  assert (∃ k', depsMap !! k' = Some d) as [k' Hk'].
  { unfold trigger_deps in Hd.
    rewrite !elem_of_app, list_elem_of_singleton in Hd.
    destruct Hd as [Hd|[Hd|Hd]]; [by eauto| |].
    - destruct (isArray t && _); [|by apply elem_of_nil in Hd].
      apply list_elem_of_fmap in Hd as (i & Hd & _). eauto.
    - destruct (bool_decide _); [|by apply elem_of_nil in Hd].
      destruct (isArray t && _).
      + apply list_elem_of_singleton in Hd. eauto.
      + destruct (isObject t); [|by apply elem_of_nil in Hd].
        apply list_elem_of_singleton in Hd. eauto. }
  exists k'. apply (elem_of_dep_at_Some _ _ _ _ _ Ht). eauto.
Qed.

(** The four parts of [retired], on the maps of the store. *)
Lemma retired_by_maps e s :
  active_of s e = false → activeEffect s ≠ Some e →
  map_Forall (λ _ ef, parent ef ≠ Some e) (heap s) →
  map_Forall (λ _ depsMap, map_Forall (λ _ (d : Dep), e ∉ d) depsMap)
             (targetMap s) →
  retired e s.
Proof.
  intros H1 H2 H3 H4. split_and!; [done|done| |].
  - intros x. unfold parent_of.
    destruct (heap s !! x) as [ef|] eqn:Hx; [|done]. apply (H3 x ef Hx).
  - intros t k. unfold dep_at.
    destruct (targetMap s !! t) as [depsMap|] eqn:Ht;
      [|by intros ?%elem_of_nil]. simpl.
    destruct (depsMap !! k) as [d|] eqn:Hk; [|by intros ?%elem_of_nil].
    apply (H4 t depsMap Ht k d Hk).
Qed.

(** X6.  [stop(runner)], that is [runner.effect.stop()], on an effect that
    has no [onStop] callback and is neither
    the current effect nor the saved parent of a running one, in a store
    whose subscription lists name every set that holds the effect, takes the
    effect out of the engine at once: it is inactive, its subscription list
    is empty, it belongs to no dependency set, and every other effect keeps
    its object and its memberships. *)
Theorem stop_retires call e s ef :
  consistent s →
  heap s !! e = Some ef → onStop ef = None →
  activeEffect s ≠ Some e → (∀ x, parent_of s x ≠ Some e) →
  ∃ s', stop_runner call e s = Some (Returned, s')
    ∧ retired e s'
    ∧ deps_of s' e = []
    ∧ (∀ x, x ≠ e → heap s' !! x = heap s !! x)
    ∧ (∀ x t k, x ≠ e → (x ∈ dep_at s' t k ↔ x ∈ dep_at s t k))
    ∧ activeEffect s' = activeEffect s ∧ shouldTrack s' = shouldTrack s.
Proof.
  intros Hc He Hon Hcur Hpar. exists (stopped e (cleanupEffect e s)).
  split; [unfold stop_runner; by rewrite (stop_not_current call e s ef), Hon|].
  assert (is_Some (heap (cleanupEffect e s) !! e)) as Hsome.
  { rewrite cleanupEffect_heap. apply is_Some_heap_alter. eauto. }
  split_and!.
  - split_and!.
    + by apply active_of_stopped.
    + unfold stopped. simpl. by rewrite cleanupEffect_activeEffect.
    + intros x. unfold stopped. rewrite parent_of_upd_effect by done.
      rewrite parent_of_cleanupEffect. apply Hpar.
    + intros t k. by apply cleanupEffect_purges.
  - unfold stopped. rewrite deps_of_upd_effect by done.
    rewrite deps_of_cleanupEffect. by rewrite decide_True.
  - intros x Hx. unfold stopped. simpl. rewrite lookup_alter_ne by done.
    rewrite cleanupEffect_heap. by rewrite lookup_alter_ne.
  - intros x t k Hx.
    assert (dep_at (stopped e (cleanupEffect e s)) t k
            = dep_at (cleanupEffect e s) t k) as -> by done.
    rewrite dep_at_cleanupEffect. case_decide; [|done].
    rewrite elem_of_dep_delete. tauto.
  - unfold stopped. simpl. by rewrite cleanupEffect_activeEffect.
  - unfold stopped. simpl. by rewrite cleanupEffect_shouldTrack.
Qed.

Lemma stop_retires_witness :
  ∃ s', stop_runner (exec 1) 0 s_reads_end = Some (Returned, s')
    ∧ retired 0 s'
    ∧ deps_of s' 0 = []
    ∧ (∀ x, x ≠ 0 → heap s' !! x = heap s_reads_end !! x)
    ∧ (∀ x t k, x ≠ 0 → (x ∈ dep_at s' t k ↔ x ∈ dep_at s_reads_end t k))
    ∧ activeEffect s' = activeEffect s_reads_end
    ∧ shouldTrack s' = shouldTrack s_reads_end.
Proof.
  apply (stop_retires (exec 1) 0 s_reads_end
           (mkEffect true two_reads None false false None
                     (reads two_reads PDone) None)).
  - apply store_invariant_s_reads_end.
  - by_compute.
  - reflexivity.
  - decide_by_compute.
  - intros x. unfold parent_of.
    destruct (heap s_reads_end !! x) as [ef|] eqn:Hx; [|done].
    assert (map_Forall (λ _ ef, parent ef ≠ Some 0) (heap s_reads_end)) as Hall
      by decide_by_compute.
    apply (Hall x ef Hx).
Defined.

Lemma retired_s_reads_stopped : retired 0 s_reads_stopped.
Proof.
  apply retired_by_maps; [by_compute | decide_by_compute..].
Qed.

(** X7.  An effect that is out of the engine stays out, whatever is called
    afterwards: it is still stopped, current nowhere and in no dependency
    set, so that no [trigger] notifies it; the history shows no tracked run
    of it and no read recorded for it (its [run] only calls [fn]). *)
Theorem retired_is_final n p e s o s' :
  retired e s → exec n p s = Some (o, s') →
  retired e s'
  ∧ (∀ t ty k nv ov, e ∉ trigger_effects s' t ty k nv ov)
  ∧ ∃ tr, trace s' = trace s ++ tr
      ∧ (EvRunEnter e ∉ tr) ∧ (∀ t k, EvTrack e t k ∉ tr).
Proof.
  intros Hr H.
  destruct (exec_respects _ (stays_retired_respects e) n p s o s' H)
    as (tr & Htr & HΦ).
  destruct (HΦ Hr) as (Hr' & Ha & Hb).
  split; [done|]. split; [|by exists tr].
  intros t ty k nv ov [k' Hin]%elem_of_trigger_effects_dep_at.
  destruct Hr' as (_ & _ & _ & Hout). by apply (Hout t k').
Qed.

Lemma retired_is_final_witness :
  retired 0 s_reads_final
  ∧ (∀ t ty k nv ov, 0 ∉ trigger_effects s_reads_final t ty k nv ov)
  ∧ ∃ tr, trace s_reads_final = trace s_reads_stopped ++ tr
      ∧ (EvRunEnter 0 ∉ tr) ∧ (∀ t k, EvTrack 0 t k ∉ tr).
Proof.
  apply (retired_is_final 8 after_stop 0 s_reads_stopped Returned s_reads_final).
  - apply retired_s_reads_stopped.
  - by_compute.
Defined.

(** ** Computations that read *)

Lemma exec_reads n l rest s :
  exec (List.length l + n) (reads l rest) s = exec n rest (track_all l s).
Proof.
  revert s. induction l as [|[t k] l IH]; intros s; [done|].
  simpl. apply IH.
Qed.

Lemma track_keeps_tracking t k s e :
  shouldTrack s = true → activeEffect s = Some e → is_Some (heap s !! e) →
  shouldTrack (track t k s) = true ∧ activeEffect (track t k s) = Some e
  ∧ is_Some (heap (track t k s) !! e).
Proof.
  intros Hs He Hh. rewrite track_shouldTrack, track_activeEffect, track_heap.
  rewrite He, Hs. split; [done|]. split; [done|]. by apply is_Some_heap_alter.
Qed.

Lemma track_all_tracking l s e :
  shouldTrack s = true → activeEffect s = Some e → is_Some (heap s !! e) →
  shouldTrack (track_all l s) = true ∧ activeEffect (track_all l s) = Some e
  ∧ is_Some (heap (track_all l s) !! e).
Proof.
  revert s. induction l as [|[t k] l IH]; intros s Hs He Hh; [done|].
  simpl. destruct (track_keeps_tracking t k s e Hs He Hh) as (? & ? & ?).
  by apply IH.
Qed.

Lemma track_all_heap l s e :
  shouldTrack s = true → activeEffect s = Some e → is_Some (heap s !! e) →
  heap (track_all l s) = alter (λ ef, set_deps (deps ef ++ l) ef) e (heap s).
Proof.
  revert s. induction l as [|[t k] l IH]; intros s Hs He Hh.
  - simpl. symmetry. apply alter_id. intros ef _. rewrite app_nil_r.
    by destruct ef.
  - simpl. destruct (track_keeps_tracking t k s e Hs He Hh) as (Hs' & He' & Hh').
    rewrite (IH _ Hs' He' Hh'), track_heap, He, Hs, alter_alter_eq.
    apply alter_ext. intros ef _. simpl. unfold set_deps. simpl.
    by rewrite <- app_assoc.
Qed.

Lemma track_all_dep_at l s e x t k :
  shouldTrack s = true → activeEffect s = Some e → is_Some (heap s !! e) →
  x ∈ dep_at (track_all l s) t k ↔ x ∈ dep_at s t k ∨ (x = e ∧ (t, k) ∈ l).
Proof.
  revert s. induction l as [|[t0 k0] l IH]; intros s Hs He Hh.
  - simpl. rewrite elem_of_nil. tauto.
  - simpl. destruct (track_keeps_tracking t0 k0 s e Hs He Hh) as (Hs' & He' & Hh').
    rewrite (IH _ Hs' He' Hh'), elem_of_cons.
    rewrite (dep_at_lookup (track t0 k0 s)), (dep_lookup_track t0 k0 s e) by done.
    case_decide as Heq.
    + injection Heq as -> ->. simpl. rewrite elem_of_dep_add. tauto.
    + rewrite <- (dep_at_lookup s t k). split.
      * intros [?|[? ?]]; [by left | right; split; [done | by right]].
      * intros [?|[? [?|?]]]; [by left | congruence | by right].
Qed.

(** An active run of a computation that only reads, in closed form. *)
Lemma run_reads n e s ef l :
  heap s !! e = Some ef → active ef = true → deferStop ef = false →
  fn ef = reads l PDone → List.length l < n →
  run (exec n) e s
  = Some (Returned, run_restore e (track_all l (run_prologue e s))).
Proof.
  intros He Ha Hd Hfn Hn. unfold run. rewrite He, Ha. simpl.
  unfold try_finally. rewrite Hfn.
  replace n with (List.length l + S (n - S (List.length l))) by lia.
  rewrite exec_reads. simpl.
  assert (is_Some (heap (run_prologue e s) !! e)) as Hh.
  { rewrite run_prologue_heap. apply is_Some_heap_alter, is_Some_heap_alter. eauto. }
  unfold run_epilogue.
  rewrite (track_all_heap l _ e (run_prologue_shouldTrack e s)
             (run_prologue_activeEffect e s) Hh).
  rewrite run_prologue_heap, !lookup_alter_eq, He. simpl. by rewrite Hd.
Qed.

(** What such a run leaves. *)
Lemma run_reads_end e s ef l s' :
  consistent s → heap s !! e = Some ef →
  s' = run_restore e (track_all l (run_prologue e s)) →
  (∀ t k, e ∈ dep_at s' t k ↔ (t, k) ∈ l)
  ∧ (∀ x t k, x ≠ e → (x ∈ dep_at s' t k ↔ x ∈ dep_at s t k))
  ∧ deps_of s' e = l
  ∧ (∀ x, x ≠ e → heap s' !! x = heap s !! x)
  ∧ activeEffect s' = activeEffect s
  ∧ shouldTrack s' = true.
Proof.
  intros Hc He ->.
  assert (is_Some (heap (run_prologue e s) !! e)) as Hh.
  { rewrite run_prologue_heap. apply is_Some_heap_alter, is_Some_heap_alter. eauto. }
  pose proof (run_prologue_shouldTrack e s) as Hs.
  pose proof (run_prologue_activeEffect e s) as Ha.
  assert (∀ x t k, x ∈ dep_at (run_restore e (track_all l (run_prologue e s))) t k
            ↔ x ∈ dep_at (run_prologue e s) t k ∨ (x = e ∧ (t, k) ∈ l)) as Hdep.
  { intros x t k. rewrite <- (track_all_dep_at l _ e x t k Hs Ha Hh). done. }
  split_and!.
  - intros t k. rewrite Hdep. split; [|tauto].
    intros [Hin|[_ ?]]; [|done]. by apply run_prologue_purges in Hin.
  - intros x t k Hx. rewrite Hdep, run_prologue_dep_at.
    case_decide; [rewrite elem_of_dep_delete|]; tauto.
  - unfold run_restore. rewrite deps_of_upd_effect by done.
    unfold deps_of. simpl.
    rewrite (track_all_heap l _ e Hs Ha Hh), lookup_alter_eq.
    fold (deps_of (run_prologue e s) e).
    destruct Hh as [ef0 Hef0]. rewrite Hef0. simpl.
    pose proof (run_prologue_deps_of e s) as H0. unfold deps_of in H0.
    rewrite Hef0 in H0. simpl in H0. by rewrite H0.
  - intros x Hx. rewrite run_restore_heap, lookup_alter_ne by done.
    rewrite (track_all_heap l _ e Hs Ha Hh), lookup_alter_ne by done.
    rewrite run_prologue_heap. by rewrite !lookup_alter_ne.
  - unfold run_restore. simpl. unfold parent_of.
    rewrite (track_all_heap l _ e Hs Ha Hh), lookup_alter_eq.
    pose proof (run_prologue_parent_of e s e) as Hp. unfold parent_of in Hp.
    rewrite decide_True, He in Hp by done. simpl in Hp.
    destruct (heap (run_prologue e s) !! e) as [ef0|]; simpl in *; done.
  - unfold run_restore. simpl.
    by destruct (track_all_tracking l _ e Hs Ha Hh) as (? & _).
Qed.

Lemma consistent_s_reads : consistent s_reads.
Proof. intros t k e. by intros ?%elem_of_nil. Qed.

(** X8.  A run of an active effect whose computation reads the slots [l]
    and returns, in a store whose subscription lists name every set that
    holds the effect: the run returns, and afterwards the effect is
    subscribed to exactly the slots of [l], whatever it was subscribed to
    before; its subscription list is [l] (a slot read twice is listed
    twice); the memberships and the objects of the other effects, and the
    current effect, are as before, and tracking is enabled. *)
Theorem run_resubscribes n e s ef l :
  consistent s →
  heap s !! e = Some ef → active ef = true → deferStop ef = false →
  fn ef = reads l PDone → List.length l < n →
  ∃ s', run (exec n) e s = Some (Returned, s')
    ∧ (∀ t k, e ∈ dep_at s' t k ↔ (t, k) ∈ l)
    ∧ (∀ x t k, x ≠ e → (x ∈ dep_at s' t k ↔ x ∈ dep_at s t k))
    ∧ deps_of s' e = l
    ∧ (∀ x, x ≠ e → heap s' !! x = heap s !! x)
    ∧ activeEffect s' = activeEffect s
    ∧ shouldTrack s' = true.
Proof.
  intros Hc He Ha Hd Hfn Hn. eexists. split; [by eapply run_reads|].
  by eapply run_reads_end.
Qed.

Lemma run_resubscribes_witness :
  ∃ s', run (exec 3) 0 s_reads = Some (Returned, s')
    ∧ (∀ t k, 0 ∈ dep_at s' t k ↔ (t, k) ∈ two_reads)
    ∧ (∀ x t k, x ≠ 0 → (x ∈ dep_at s' t k ↔ x ∈ dep_at s_reads t k))
    ∧ deps_of s' 0 = two_reads
    ∧ (∀ x, x ≠ 0 → heap s' !! x = heap s_reads !! x)
    ∧ activeEffect s' = activeEffect s_reads
    ∧ shouldTrack s' = true.
Proof.
  apply (run_resubscribes 3 0 s_reads
           (new_effect (reads two_reads PDone) None None false) two_reads).
  - apply consistent_s_reads.
  - by_compute.
  - reflexivity.
  - reflexivity.
  - reflexivity.
  - simpl. lia.
Defined.

(** ** What a write notifies, continued *)

(** X9.  [trigger] hands to notification every subscriber of the key
    written, only effects that subscribe to some key of the target written,
    and each effect once, however many of the collected sets hold it. *)
Theorem trigger_collects_subscribers_once s t ty k nv ov :
  NoDup (trigger_effects s t ty k nv ov)
  ∧ (∀ x, x ∈ dep_at s t k → x ∈ trigger_effects s t ty k nv ov)
  ∧ (∀ x, x ∈ trigger_effects s t ty k nv ov → ∃ k', x ∈ dep_at s t k').
Proof.
  split_and!.
  - unfold trigger_effects. destruct (targetMap s !! t); [|apply NoDup_nil_2].
    apply NoDup_collect.
  - intros x Hx. unfold trigger_effects.
    destruct (targetMap s !! t) as [depsMap|] eqn:Ht;
      [|by rewrite dep_at_None in Hx].
    destruct (proj1 (elem_of_dep_at_Some _ _ _ _ _ Ht) Hx) as (d & Hd & Hx').
    apply elem_of_collect. exists d. split; [|done].
    unfold trigger_deps. rewrite <- Hd. by left.
  - intros x. apply elem_of_trigger_effects_dep_at.
Qed.

Lemma seq_ret (m : M) s : (m >> ret) s = m s.
Proof. unfold seq. by destruct (m s) as [[[] ?]|]. Qed.

Lemma triggerEffects_singleton n e s ef :
  heap s !! e = Some ef →
  triggerEffects (exec n) [e] s = triggerEffect (exec n) e s.
Proof.
  intros He. rewrite triggerEffects_passes. simpl.
  unfold seq at 1. unfold seq at 1. unfold pass at 1. rewrite He. simpl.
  destruct (computed ef) eqn:Hc.
  - destruct (triggerEffect (exec n) e s) as [[[] s1]|] eqn:Ht; [|done|done].
    simpl. rewrite seq_ret. unfold pass.
    pose proof (triggerEffect_respects same_static same_static_respects
                  n e s Returned s1 Ht e) as Hst.
    rewrite He in Hst. destruct (heap s1 !! e) as [ef1|]; [|done].
    simpl in Hst. unfold static in Hst. injection Hst as Hst _ _ _.
    by rewrite Hst, Hc.
  - simpl. rewrite seq_ret. unfold pass. by rewrite He, Hc.
Qed.

(** X10.  A write whose collection of subscribers is the single effect [e],
    not the current one, does what one notification of [e] does: the call
    of its [scheduler] when it has one, and [e.run()] otherwise. *)
Theorem trigger_sole_subscriber n t ty k nv ov s e ef :
  trigger_effects s t ty k nv ov = [e] →
  heap s !! e = Some ef → activeEffect s ≠ Some e →
  trigger (exec n) t ty k nv ov s
  = match scheduler ef with
    | Some p => exec n p (log (EvScheduler e) s)
    | None => run (exec n) e s
    end.
Proof.
  intros Hl He Hcur. rewrite trigger_unfold, Hl.
  rewrite (triggerEffects_singleton n e s ef He).
  unfold triggerEffect. by rewrite decide_True, He.
Qed.

Lemma trigger_sole_subscriber_witness :
  trigger (exec 4) obj SET (KStr "b") None None s_reads_end
  = run (exec 4) 0 s_reads_end.
Proof.
  apply (trigger_sole_subscriber 4 obj SET (KStr "b") None None s_reads_end 0
           (mkEffect true two_reads None false false None
                     (reads two_reads PDone) None)).
  - by_compute.
  - by_compute.
  - decide_by_compute.
Defined.

(** ** The current effect across calls *)

(** X11.  Every call (a write with its notifications in particular) during
    which no effect is run again while one of its runs is in progress
    returns or fails with the current effect it was called with, and leaves
    cleared every parent link that was cleared. *)
Theorem calls_restore_current n s o s' tr :
  trace s' = trace s ++ tr → no_reentry tr →
  (∀ p, exec n p s = Some (o, s') →
     activeEffect s' = activeEffect s
     ∧ ∀ x, parent_of s x = None → parent_of s' x = None)
  ∧ (∀ t ty k nv ov, trigger (exec n) t ty k nv ov s = Some (o, s') →
       activeEffect s' = activeEffect s
       ∧ ∀ x, parent_of s x = None → parent_of s' x = None).
Proof.
  intros Htr Hno.
  assert (∀ m, hoare (traced well_nested) m → hoare (traced lifo) m →
            m s = Some (o, s') →
            activeEffect s' = activeEffect s
            ∧ ∀ x, parent_of s x = None → parent_of s' x = None) as Hgen.
  { intros m Hw Hl Hm.
    pose proof (traced_elim _ tr _ _ (Hw _ _ _ Hm) Htr) as Hw'.
    pose proof (traced_elim _ tr _ _ (Hl _ _ _ Hm) Htr) as Hl'.
    destruct (Hl' (activeEffect s) [] [] (Hw' [] Hno)) as (_ & [Hact _] & Hp);
      [apply NoDup_nil_2 | done |].
    split; [done|]. intros x. apply Hp. by intros ?%elem_of_nil. }
  split.
  - intros p. apply Hgen.
    + apply exec_respects; [apply _ | apply well_nested_respects].
    + apply exec_respects; [apply _ | apply lifo_respects].
  - intros t ty k nv ov. apply Hgen.
    + apply trigger_respects; [apply _ | apply well_nested_respects].
    + apply trigger_respects; [apply _ | apply lifo_respects].
Qed.

Lemma calls_restore_current_witness :
  activeEffect s_reads_final = activeEffect s_reads_stopped
  ∧ ∀ x, parent_of s_reads_stopped x = None → parent_of s_reads_final x = None.
Proof.
  refine (proj1 (calls_restore_current 8 s_reads_stopped Returned s_reads_final
                   [EvRunEnter 1; EvTrack 1 obj (KStr "a"); EvRunLeave 1;
                    EvRunEnter 1; EvTrack 1 obj (KStr "a"); EvRunLeave 1;
                    EvRunInactive 0] _ _) after_stop _).
  - by_compute.
  - by_compute.
  - by_compute.
Defined.

(** ** Registration *)

Lemma fresh_eid_fresh s : heap s !! fresh_eid s = None.
Proof. unfold fresh_eid. apply (not_elem_of_dom (D := gset eid)). apply is_fresh. Qed.


Lemma consistent_alloc s ef :
  consistent s → consistent (set_heap (<[fresh_eid s := ef]> (heap s)) s).
Proof.
  intros Hc t k x Hx. apply (Hc t k x) in Hx as Hd.
  assert (x ≠ fresh_eid s) as Hne.
  { intros ->. unfold deps_of in Hd. rewrite fresh_eid_fresh in Hd.
    by apply elem_of_nil in Hd. }
  unfold deps_of. simpl. by rewrite lookup_insert_ne.
Qed.


(** X12.  [effect(fn)] without [lazy], for a computation that reads the
    slots [l] and returns, in a store whose subscription lists name every
    set that holds the effect: a new effect object is created and run, the
    runner returned is the one of this object, and afterwards the new effect
    is active, has the scheduler of the options and is subscribed to exactly
    the slots of [l]; the effects that existed keep their objects and
    memberships, and the current effect is as before. *)
Theorem effect_subscribes n l options s :
  consistent s →
  match options with None => True | Some o => lazy o = false end →
  List.length l < n →
  ∃ s', effect (exec n) (Closure (reads l PDone)) options s
        = Some (Value (fresh_eid s), s')
    ∧ heap s !! fresh_eid s = None
    ∧ heap s' !! fresh_eid s
      = Some (mkEffect true l None false false None (reads l PDone)
                       (options ≫= opt_scheduler))
    ∧ (∀ t k, fresh_eid s ∈ dep_at s' t k ↔ (t, k) ∈ l)
    ∧ (∀ x t k, x ≠ fresh_eid s → (x ∈ dep_at s' t k ↔ x ∈ dep_at s t k))
    ∧ (∀ x, x ≠ fresh_eid s → heap s' !! x = heap s !! x)
    ∧ activeEffect s' = activeEffect s.
Proof.
  intros Hc Hlazy Hn.
  set (e := fresh_eid s).
  set (ef := new_ReactiveEffect (reads l PDone) (options ≫= opt_scheduler)).
  set (s1 := set_heap (<[e := ef]> (heap s)) s).
  assert (heap s1 !! e = Some ef) as He by apply lookup_insert_eq.
  pose proof (run_reads n e s1 ef l He eq_refl eq_refl eq_refl Hn) as Hrun.
  exists (run_restore e (track_all l (run_prologue e s1))).
  split.
  { unfold effect. fold e ef s1.
    assert ((match options with
             | None => true
             | Some o => negb (lazy o)
             end) = true) as ->.
    { destruct options as [o|]; [|done]. by rewrite Hlazy. }
    by rewrite Hrun. }
  split; [apply fresh_eid_fresh|].
  destruct (run_reads_end e s1 ef l _ (consistent_alloc s ef Hc) He eq_refl)
    as (H1 & H2 & H3 & H4 & H5 & H6).
  assert (is_Some (heap (run_prologue e s1) !! e)) as Hh.
  { rewrite run_prologue_heap. apply is_Some_heap_alter, is_Some_heap_alter. eauto. }
  split_and!; try done.
  - rewrite run_restore_heap.
    rewrite (track_all_heap l _ e (run_prologue_shouldTrack e s1)
               (run_prologue_activeEffect e s1) Hh).
    rewrite run_prologue_heap, !lookup_alter_eq, He. done.
  - intros x Hx. rewrite (H4 x Hx). simpl. by apply lookup_insert_ne.
Qed.

Lemma effect_subscribes_witness :
  ∃ s', effect (exec 3) (Closure (reads two_reads PDone)) None s_reads
        = Some (Value (fresh_eid s_reads), s')
    ∧ heap s_reads !! fresh_eid s_reads = None
    ∧ heap s' !! fresh_eid s_reads
      = Some (mkEffect true two_reads None false false None
                       (reads two_reads PDone) None)
    ∧ (∀ t k, fresh_eid s_reads ∈ dep_at s' t k ↔ (t, k) ∈ two_reads)
    ∧ (∀ x t k, x ≠ fresh_eid s_reads →
         (x ∈ dep_at s' t k ↔ x ∈ dep_at s_reads t k))
    ∧ (∀ x, x ≠ fresh_eid s_reads → heap s' !! x = heap s_reads !! x)
    ∧ activeEffect s' = activeEffect s_reads.
Proof.
  apply (effect_subscribes 3 two_reads None s_reads).
  - apply consistent_s_reads.
  - exact I.
  - simpl. lia.
Defined.



(** ** Tracking while paused *)

Lemma stays_paused_refl s : stays_paused [] s s.
Proof.
  intros Hs _. split; [done|]. split; [|done].
  intros e t k. apply not_elem_of_nil.
Qed.

Lemma stays_paused_trans tr1 tr2 s1 s2 s3 :
  stays_paused tr1 s1 s2 → stays_paused tr2 s2 s3 →
  stays_paused (tr1 ++ tr2) s1 s3.
Proof.
  intros H12 H23 Hs Hno.
  destruct H12 as (Hs2 & Ht1 & Hd1); [done| |].
  { intros ev Hev. apply Hno, elem_of_app. by left. }
  destruct H23 as (Hs3 & Ht2 & Hd2); [done| |].
  { intros ev Hev. apply Hno, elem_of_app. by right. }
  split; [done|]. split.
  - intros e t k [Hin|Hin]%elem_of_app; [by apply (Ht1 e t k) | by apply (Ht2 e t k)].
  - intros e t k Hin. by apply Hd1, Hd2.
Qed.

#[global] Instance stays_paused_preorder : PreOrder (traced stays_paused).
Proof.
  apply traced_preorder; [apply stays_paused_refl | apply stays_paused_trans].
Qed.




